(** * Workflow-composition built-ins of celery: group, chain, chord, chord_unlock

  A shallow embedding of [celery/app/builtins.py] and a verification of the
  properties the specification states about it.

  Python objects that the code mutates and shares (Signatures, whose
  [options] dictionaries are written in place) live in an explicit store
  of objects addressed by reference.  Effects (drawing a uuid, handing a
  message to the queue, calling the result backend, raising an exception)
  are threaded through a state-and-exception monad [M]. *)

From Stdlib Require Import ZArith List Lia.
From stdpp Require Import base gmap strings list option pretty.

Set Warnings "-register-all".
Open Scope string_scope.

(** ** Python values and objects *)

Module Py.

Abbreviation loc := nat.

(** The values that travel through task arguments, options and results.
    [VRef l] is a reference to a Signature object of the store; [VExc e]
    is an exception instance held as a value (what a failed task stores
    as its result). Tuples and lists are both [VList]. *)
Inductive pyval :=
| VNone
| VBool (b : bool)
| VInt (z : Z)
| VStr (s : string)
| VRef (l : loc)
| VExc (e : string)
| VList (vs : list pyval).

(** Python truth value, as tested by [if x:] and [x or y]. A Signature is
    a non-empty dict, hence true. *)
Definition truthy (v : pyval) : bool :=
  match v with
  | VNone => false
  | VBool b => b
  | VInt z => negb (Z.eqb z 0)
  | VStr s => negb (String.eqb s "")
  | VRef _ => true
  | VExc _ => true
  | VList vs => match vs with [] => false | _ => true end
  end.

(** [x is None] *)
Definition is_none (v : pyval) : bool :=
  match v with VNone => true | _ => false end.

Inductive sigkind := kind_task | kind_group | kind_chain | kind_chord.

Definition is_group (k : sigkind) : bool :=
  match k with kind_group => true | _ => false end.

(** A Signature: [{task, args, kwargs, options, subtask_type}]. *)
Record Signature := mkSignature {
  task : string;
  args : list pyval;
  kwargs : gmap string pyval;
  options : gmap string pyval;
  subtask_type : sigkind
}.

#[global] Instance Signature_inhabited : Inhabited Signature :=
  populate (mkSignature "" [] ∅ ∅ kind_task).

Definition with_options (f : gmap string pyval → gmap string pyval)
    (s : Signature) : Signature :=
  mkSignature (task s) (args s) (kwargs s) (f (options s)) (subtask_type s).

(** Task states of the result backend. *)
Inductive task_state := PENDING | SUCCESS | FAILURE | RETRY.

(** [state in READY_STATES] *)
Definition state_ready (s : task_state) : bool :=
  match s with SUCCESS | FAILURE => true | _ => false end.

(** A result handle: an id, an optional parent, and (for an EagerResult
    only) the state and return value it was built with. *)
Inductive AsyncResult := mkAsyncResult {
  res_id : pyval;
  res_eager : option (task_state * pyval);
  res_parent : option AsyncResult
}.

Definition set_parent (r : AsyncResult) (p : option AsyncResult) : AsyncResult :=
  mkAsyncResult (res_id r) (res_eager r) p.

Record GroupResult := mkGroupResult {
  gr_id : pyval;
  gr_results : list AsyncResult
}.

(** What the result backend stores under a task id. *)
Record TaskMeta := mkMeta { status : task_state; result : pyval }.

(** [status == FAILURE] *)
Definition is_failure (m : TaskMeta) : bool :=
  match status m with FAILURE => true | _ => false end.

Inductive exn :=
| KeyError (k : string)
| IndexError
| ValueError
| TypeError
| RetryTaskError
| MaxRetriesExceededError
| TimeoutError
| Raised (e : pyval).

(** Observable calls to the collaborators, in program order. *)
Inductive Event :=
| Publish (name : string) (a : list pyval) (kw opts : gmap string pyval)
| Execute (name : string) (a : list pyval) (kw : gmap string pyval)
| OnChordApply (group_id body interval max_retries propagate : pyval)
               (expected : list AsyncResult)
| Join (native : bool) (ids : list pyval) (propagate : bool)
| AppendChild (g : GroupResult)
| Retry (countdown max_retries : pyval) (retries : nat).

Record World := mkWorld {
  heap : gmap loc Signature;
  uuid_ctr : nat;
  outbox : list Event
}.

Definition set_heap (f : gmap loc Signature → gmap loc Signature) (w : World) :=
  mkWorld (f (heap w)) (uuid_ctr w) (outbox w).

Inductive outcome (A : Type) :=
| Ok (a : A)
| Raise (e : exn).
#[global] Arguments Ok {A} a.
#[global] Arguments Raise {A} e.

Definition M (A : Type) : Type := World → outcome A * World.

#[global] Instance M_ret : MRet M := λ A a w, (Ok a, w).
#[global] Instance M_bind : MBind M := λ A B f m w,
  match m w with
  | (Ok a, w') => f a w'
  | (Raise e, w') => (Raise e, w')
  end.

Definition raise {A} (e : exn) : M A := λ w, (Raise e, w).

(** The world after further calls to the collaborators. *)
Definition log (evs : list Event) (w : World) : World :=
  mkWorld (heap w) (uuid_ctr w) (outbox w ++ evs).

Definition emit (ev : Event) : M unit := λ w, (Ok tt, log [ev] w).

(** The n-th identifier drawn from the generator. *)
Definition uuid4 (n : nat) : string := "uuid-" +:+ pretty n.

(** [celery.utils.uuid()] *)
Definition uuid : M pyval := λ w,
  (Ok (VStr (uuid4 (uuid_ctr w))), mkWorld (heap w) (S (uuid_ctr w)) (outbox w)).

(** Reading and writing a Signature object. *)
Definition deref (l : loc) : M Signature := λ w, (Ok (heap w !!! l), w).

Definition assign (l : loc) (s : Signature) : M unit := λ w,
  (Ok tt, set_heap (insert l s) w).

(** A new object at a reference not in use. *)
Definition alloc (s : Signature) : M loc := λ w,
  let l := fresh (dom (heap w)) in (Ok l, set_heap (insert l s) w).

(** [sig.options.get(k)] *)
Definition get_option (l : loc) (k : string) : M pyval :=
  s ← deref l; mret (default VNone (options s !! k)).

(** [sig.options[k] = v] *)
Definition set_option (l : loc) (k : string) (v : pyval) : M unit :=
  s ← deref l; assign l (with_options (insert k v) s).

Fixpoint mapM {A B} (f : A → M B) (xs : list A) : M (list B) :=
  match xs with
  | [] => mret []
  | x :: xs' => y ← f x; ys ← mapM f xs'; mret (y :: ys)
  end.

End Py.

Import Py.

(** ** Collaborators of the built-ins

    [celery.result], [celery.canvas] and [celery.app.task] are not part of
    the verified file; what the built-ins need from them is modelled here
    from the specification's description of their contracts. *)

Module Result.

(** Modelled from the spec: the result backend of [celery.backends], as
    the built-ins see it: the capability flag "supports native join" and
    the stored outcome of every task id. *)
Record Backend := mkBackend {
  supports_native_join : bool;
  store : gmap string TaskMeta
}.

(** Modelled from the spec: the backend's [get(id) -> state/value]. An id
    the store does not know is PENDING. *)
Definition get_task_meta (be : Backend) (id : pyval) : TaskMeta :=
  match id with
  | VStr s => default (mkMeta PENDING VNone) (store be !! s)
  | _ => mkMeta PENDING VNone
  end.

(** Modelled from the spec: [AsyncResult(id)] of [celery.result], a handle
    created from an id alone. *)
Definition AsyncResult (id : pyval) : Py.AsyncResult := mkAsyncResult id None None.

(** Modelled from the spec: [EagerResult(id, ret_value, state)]. *)
Definition EagerResult (id ret : pyval) (st : task_state) : Py.AsyncResult :=
  mkAsyncResult id (Some (st, ret)) None.

(** Modelled from the spec: the state and value of a handle, which an
    eager handle carries and any other fetches from the backend. *)
Definition meta_of (be : Backend) (r : Py.AsyncResult) : TaskMeta :=
  match res_eager r with
  | Some (st, v) => mkMeta st v
  | None => get_task_meta be (res_id r)
  end.

(** Modelled from the spec: [AsyncResult.ready()], the state is a final one. *)
Definition ready (be : Backend) (r : Py.AsyncResult) : bool :=
  state_ready (status (meta_of be r)).

(** Modelled from the spec: [GroupResult.ready()], which the data model
    fixes as [ready() == all(child.ready())]. *)
Definition group_ready (be : Backend) (g : GroupResult) : bool :=
  forallb (ready be) (gr_results g).

(** Modelled from the spec: [AsyncResult.get(propagate=...)]. A failed
    result is raised when [propagate] holds and returned as a value (the
    stored exception instance) otherwise. A result that is not ready keeps
    the caller waiting; against a fixed snapshot of the store the wait ends
    in [TimeoutError]. *)
Definition get (be : Backend) (propagate : bool) (r : Py.AsyncResult) : M pyval :=
  let m := meta_of be r in
  match status m with
  | SUCCESS => mret (result m)
  | FAILURE => if propagate then raise (Raised (result m)) else mret (result m)
  | _ => raise TimeoutError
  end.

(** Modelled from the spec: [GroupResult.join(propagate=...)], the generic
    join that fetches every child in order. *)
Definition join (be : Backend) (g : GroupResult) (propagate : bool) : M (list pyval) :=
  emit (Join false (res_id <$> gr_results g) propagate);;
  mapM (get be propagate) (gr_results g).

(** Modelled from the spec: [GroupResult.join_native(propagate=...)], the
    backend's bulk join [bulk_join(ids, propagate) -> ordered values]: all
    outcomes are fetched at once, then inspected. *)
Definition join_native (be : Backend) (g : GroupResult) (propagate : bool) : M (list pyval) :=
  emit (Join true (res_id <$> gr_results g) propagate);;
  let metas := meta_of be <$> gr_results g in
  if negb (forallb (λ m, state_ready (status m)) metas) then raise TimeoutError
  else
    match (if propagate
           then find is_failure metas
           else None) with
    | Some m => raise (Raised (result m))
    | None => mret (result <$> metas)
    end.

End Result.

Module Task.

(** Modelled from the spec: [Task.apply_async(args, kwargs, options)],
    the queue submission [submit(signature, options) -> accepted], which
    accepts a pre-assigned id. It hands one message to the queue and
    returns the handle of that invocation. *)
Definition apply_async (name : string) (a : list pyval)
    (kw opts : gmap string pyval) : M AsyncResult :=
  tid ← (let t := default VNone (opts !! "task_id") in
         if truthy t then mret t else uuid);
  emit (Publish name a kw opts);;
  mret (Result.AsyncResult tid).

(** Modelled from the spec: the part of the current request that
    [retry] reads, the number of retries so far. *)
Record Request := mkRequest { retries : nat }.

(** Modelled from the spec: is the retry budget used up?
    [max_retries=None] falls back to the task's own setting, which
    [chord_unlock] declares as [None]: unbounded. *)
Definition exhausted (req : Request) (max_retries : pyval) : bool :=
  match max_retries with
  | VInt r => (r <? Z.of_nat (retries req) + 1)%Z
  | _ => false
  end.

(** Modelled from the spec: [Task.retry(countdown=..., max_retries=...)]:
    "reschedule itself with the same parameters after [interval] seconds,
    consuming one unit of [max_retries] if bounded; if retries are
    exhausted ... this is a fatal, surfaced failure". It never returns:
    either the task is sent again (with one more retry on its count) and
    [RetryTaskError] ends this invocation, or the budget is used up and
    [MaxRetriesExceededError] (the spec's ChordTimeout) is raised. *)
Definition retry {A} (req : Request) (countdown max_retries : pyval) : M A :=
  if exhausted req max_retries then raise MaxRetriesExceededError
  else emit (Retry countdown max_retries (S (retries req)));; raise RetryTaskError.

(** Modelled from the spec: what running a task body gives, a return
    value or a raised exception instance. *)
Inductive ran := Returned (v : pyval) | Threw (e : pyval).

(** Modelled from the spec: the application object, with its
    configuration, its result backend and its task registry (the body of
    every registered task, by name). *)
Record App := mkApp {
  CELERY_ALWAYS_EAGER : bool;
  backend : Result.Backend;
  registry : string → list pyval → gmap string pyval → ran
}.

(** Modelled from the spec: [Task.apply(args, kwargs, options)], eager
    execution: the body runs in the current thread and the outcome comes
    back as an already-resolved handle. *)
Definition apply (app : App) (name : string) (a : list pyval)
    (kw opts : gmap string pyval) : M AsyncResult :=
  tid ← (let t := default VNone (opts !! "task_id") in
         if truthy t then mret t else uuid);
  emit (Execute name a kw);;
  mret (match registry app name a kw with
        | Returned v => Result.EagerResult tid v SUCCESS
        | Threw e => Result.EagerResult tid e FAILURE
        end).

(** Modelled from the spec: calling a task object, [task(args)], as
    [map] and [starmap] do on every element: "results computed in the
    current execution context"; "failures propagate directly from the
    underlying per-element call". The body runs in the current thread,
    its value is returned and its exception raised. *)
Definition call (app : App) (name : string) (a : list pyval) : M pyval :=
  emit (Execute name a ∅);;
  match registry app name a ∅ with
  | Returned v => mret v
  | Threw e => raise (Raised e)
  end.

End Task.

Module Canvas.

(** Modelled from the spec: [Signature._merge], "[partial_args] prepended
    to existing positional args and [option_overrides] merged over existing
    options (override wins on key conflict)". *)
Definition merge_args (s : Signature) (a : list pyval) : list pyval := a ++ args s.

(** Modelled from the spec: the options half of [Signature._merge]. *)
Definition merge_options (s : Signature) (o : gmap string pyval) : gmap string pyval :=
  o ∪ options s.

(** Modelled from the spec: [Signature.apply_async(args, options)] and
    its shorthand [delay]: the merged invocation is submitted. *)
Definition sig_apply_async (s : Signature) (a : list pyval)
    (o : gmap string pyval) : M AsyncResult :=
  Task.apply_async (task s) (merge_args s a) (kwargs s) (merge_options s o).

(** Modelled from the spec: [Signature.delay], [apply_async] with
    positional arguments only. *)
Definition delay (s : Signature) (a : list pyval) : M AsyncResult :=
  sig_apply_async s a ∅.

(** Modelled from the spec: [maybe_subtask(d)]. Every task description of
    the model is a Signature object already, and for those the result is
    the very same object. *)
Definition maybe_subtask (l : loc) : M loc := mret l.

(** Modelled from the spec: [Signature.clone(args)], "a new Signature with
    [partial_args] prepended to existing positional args"; the receiver is
    not mutated and the copy owns its options dictionary. *)
Definition clone (l : loc) (a : list pyval) : M loc :=
  s ← deref l;
  alloc (mkSignature (task s) (merge_args s a) (kwargs s) (options s) (subtask_type s)).

(** Modelled from the spec: [Signature.set(options)], update of the
    options in place. *)
Definition set (l : loc) (k : string) (v : pyval) : M unit := set_option l k v.

(** Modelled from the spec: [Signature.link(callback)], "predecessor's
    callback list gains this step". *)
Definition link (l : loc) (callback : loc) : M unit :=
  s ← deref l;
  let items := match options s !! "link" with Some (VList vs) => vs | _ => [] end in
  set_option l "link" (VList (items ++ [VRef callback])).

(** Modelled from the spec: the constructor [chord(header, body=...,
    task_id=...)], "A Chord = {header: Group, body: Signature}". *)
Definition new_chord (header body : loc) (task_id : pyval) : M loc :=
  alloc (mkSignature "celery.chord" []
           (<["header" := VRef header]> (<["body" := VRef body]> ∅))
           (<["task_id" := task_id]> ∅) kind_chord).

(** Modelled from the spec: [sig.apply_async()] on a Signature object,
    the queue submission of that one signature. *)
Definition apply_async (l : loc) (a : list pyval) (o : gmap string pyval) : M AsyncResult :=
  s ← deref l; sig_apply_async s a o.

(** Modelled from the spec: [sig.apply(args, options)], eager execution
    of the merged invocation. *)
Definition apply (app : Task.App) (l : loc) (a : list pyval)
    (o : gmap string pyval) : M AsyncResult :=
  s ← deref l;
  Task.apply app (task s) (merge_args s a) (kwargs s) (merge_options s o).

(** Modelled from the spec: [GroupResult.serializable()], the id with the
    ids of the children. *)
Definition serializable (g : GroupResult) : pyval :=
  VList [gr_id g; VList (res_id <$> gr_results g)].

End Canvas.

(** ** celery/app/builtins.py *)

Module Builtins.

(** [shared_task(constructor)]: the constructor is appended to the
    module's list [_shared_tasks], threaded here as state, and returned
    as it is. *)
Definition shared_task {C : Type} (constructor : C) (_shared_tasks : list C)
  : C * list C :=
  (constructor, (_shared_tasks ++ [constructor])%list).

(** [load_shared_tasks(app)]: every constructor of the list is called on
    the app, in the order of the list. A constructor acts on the app,
    whose state is [S]; what it returns is dropped. *)
Definition load_shared_tasks {S : Type} (_shared_tasks : list (S → S)) (app : S) : S :=
  foldl (λ app constructor, constructor app) app _shared_tasks.

(** [unlock_chord(group_id, callback, interval, propagate, max_retries,
    result)], run under the request [req]. [callback] arrives as a
    serialized Signature; [result] is the list of header ids. *)
Definition unlock_chord (be : Result.Backend) (req : Task.Request)
    (group_id : pyval) (callback : Signature) (interval : pyval)
    (propagate : bool) (max_retries : pyval) (result : list pyval) : M unit :=
  let result := mkGroupResult group_id (Result.AsyncResult <$> result) in
  let j := if Result.supports_native_join be
           then Result.join_native be result else Result.join be result in
  if Result.group_ready be result then
    vs ← j propagate;
    Canvas.delay callback [VList vs];;
    mret tt
  else
    Task.retry req interval max_retries.

(** [xmap(task, it)]. [task] arrives as a serialized Signature, of which
    [subtask(task).type] keeps the task it names; [map] calls that task
    on every item, in order, and [list] collects the values. *)
Definition xmap (app : Task.App) (task : Signature) (it : list pyval) : M pyval :=
  let task := Py.task task in
  vs ← mapM (λ x, Task.call app task [x]) it;
  mret (VList vs).

(** [xstarmap(task, it)]: as [xmap], with every item, a tuple, unpacked
    into the positional arguments of the call. *)
Definition xstarmap (app : Task.App) (task : Signature) (it : list (list pyval))
  : M pyval :=
  let task := Py.task task in
  vs ← mapM (λ a, Task.call app task a) it;
  mret (VList vs).

(** *** class Group *)

Module Group.

(** The nested [prepare_member(task)] of [prepare], closed over
    [group_id]. The options are written on the object it is given. *)
Definition prepare_member (group_id : pyval) (task : loc) : M (loc * AsyncResult) :=
  task ← Canvas.maybe_subtask task;
  set_option task "group_id" group_id;;
  s ← deref task;
  tid ← match options s !! "task_id" with
        | Some t => mret t
        | None => u ← uuid; set_option task "task_id" u;; mret u
        end;
  mret (task, Result.AsyncResult tid).

(** [prepare(self, options, tasks, args)]. [options] is the keyword
    dictionary of the caller, updated in place: it is returned with the
    tuple. Unpacking the zip of no pairs into two names fails with [ValueError]. *)
Definition prepare (options : gmap string pyval) (tasks : list loc)
    (args : list pyval)
  : M (list loc * GroupResult * pyval * list pyval * gmap string pyval) :=
  u ← uuid;
  let group_id := default u (options !! "task_id") in
  let options :=
    <["group_id" := group_id]>
      (match options !! "task_id" with
       | Some _ => options
       | None => <["task_id" := u]> options
       end) in
  members ← mapM (prepare_member group_id) tasks;
  match members with
  | [] => raise ValueError
  | _ :: _ =>
      mret (members.*1, mkGroupResult group_id members.*2, group_id, args, options)
  end.

(** [run(self, tasks, result, group_id, partial_args)]. [is_eager] is
    [self.request.is_eager]; [in_worker] tells whether
    [get_current_worker_task()] finds a task. The members are cloned one
    by one as the generator [taskit] is consumed. *)
Definition run (app : Task.App) (is_eager in_worker : bool) (tasks : list loc)
    (result : GroupResult) (group_id : pyval) (partial_args : list pyval)
  : M GroupResult :=
  let taskit (k : loc → M AsyncResult) :=
    mapM (λ task, t ← Canvas.clone task partial_args; k t) tasks in
  if is_eager || Task.CELERY_ALWAYS_EAGER app then
    rs ← taskit (λ t, Canvas.apply app t [] (<["group_id" := group_id]> ∅));
    mret (mkGroupResult (gr_id result) rs)
  else
    taskit (λ t, Canvas.apply_async t []
                   (<["group_id" := group_id]>
                      (<["add_to_parent" := VBool false]> ∅)));;
    (if in_worker then emit (AppendChild result) else mret tt);;
    mret result.

(** [apply(self, args, kwargs, options)]: [Task.apply] runs the body in
    the current thread under an eager request and [.get()] gives back what
    it returned. *)
Definition apply (app : Task.App) (args : list pyval) (tasks : list loc)
    (options : gmap string pyval) : M GroupResult :=
  '(tasks, result, gid, a, options) ← prepare options tasks args;
  emit (Execute "celery.group"
          [VList (VRef <$> tasks); Canvas.serializable result; gid; VList a] ∅);;
  run app true false tasks result gid a.

(** [apply_async(self, partial_args, kwargs, options)], with
    [kwargs = {'tasks': tasks}]. *)
Definition apply_async (app : Task.App) (partial_args : list pyval)
    (tasks : list loc) (options : gmap string pyval) : M GroupResult :=
  if Task.CELERY_ALWAYS_EAGER app then apply app partial_args tasks options
  else
    '(tasks, result, gid, args, options) ← prepare options tasks partial_args;
    Task.apply_async "celery.group"
      [VList (VRef <$> tasks); Canvas.serializable result; gid; VList args]
      ∅ options;;
    mret result.

End Group.

(** *** class Chain *)

Module Chain.

(** One turn of the loop of [prepare_steps], up to the [isinstance] test:
    the step is cloned (the first one with the chain's arguments), given a
    task id if it has none, and its result handle is built. *)
Definition begin_step (args : list pyval) (i : nat) (step : loc)
  : M (loc * pyval * AsyncResult) :=
  task ← Canvas.maybe_subtask step;
  task ← match i with
         | 0 => Canvas.clone task args
         | S _ => Canvas.clone task []
         end;
  tid ← get_option task "task_id";
  tid ← (if is_none tid
         then u ← uuid; set_option task "task_id" u;; mret u
         else mret tid);
  mret (task, tid, Result.AsyncResult tid).

(** The rest of the turn, from [if next_step is not None] on. *)
Definition end_step (task : loc) (tid : pyval) (res : AsyncResult)
    (next_step : option loc) (prev : option (loc * AsyncResult))
  : M (loc * AsyncResult) :=
  task ← match next_step with
         | Some body => Canvas.new_chord task body tid
         | None => mret task
         end;
  res ← match prev with
        | Some (prev_task, prev_res) =>
            Canvas.link prev_task task;; mret (set_parent res (Some prev_res))
        | None => mret res
        end;
  mret (task, res).

(** The [while steps:] loop. [next_step], [prev] ([prev_task] with
    [prev_res]), [tasks] and [results] are the loop's variables; [steps]
    is the deque, from which the group case pops a second element. *)
Fixpoint prepare_loop (args : list pyval) (steps : list loc) (i : nat)
    (next_step : option loc) (prev : option (loc * AsyncResult))
    (tasks : list loc) (results : list AsyncResult) {struct steps}
  : M (list loc * list AsyncResult) :=
  match steps with
  | [] => mret (tasks, results)
  | step :: steps =>
      '(task, tid, res) ← begin_step args i step;
      s ← deref task;
      if is_group (subtask_type s) then
        match steps with
        | body :: steps' =>
            '(task, res) ← end_step task tid res (Some body) prev;
            prepare_loop args steps' (S i) (Some body) (Some (task, res))
              (tasks ++ [task]) (results ++ [res])
        | [] =>
            '(task, res) ← end_step task tid res None prev;
            prepare_loop args steps (S i) None (Some (task, res))
              (tasks ++ [task]) (results ++ [res])
        end
      else
        '(task, res) ← end_step task tid res next_step prev;
        prepare_loop args steps (S i) next_step (Some (task, res))
          (tasks ++ [task]) (results ++ [res])
  end.

(** [prepare_steps(self, args, tasks)] *)
Definition prepare_steps (args : list pyval) (tasks : list loc)
  : M (list loc * list AsyncResult) :=
  prepare_loop args tasks 0 None None [] [].

(** The [for task in tasks:] loop of [apply]; [prev] is also the value of
    [res] at each turn's end. *)
Fixpoint apply_loop (app : Task.App) (tasks : list loc) (prev : option AsyncResult)
  : M (option AsyncResult) :=
  match tasks with
  | [] => mret prev
  | task :: tasks =>
      a ← match prev with
          | Some p => v ← Result.get (Task.backend app) true p; mret [v]
          | None => mret []
          end;
      res ← Canvas.apply app task a ∅;
      apply_loop app tasks (Some (set_parent res prev))
  end.

(** [apply(self, args, kwargs, options)], with [kwargs = {'tasks': tasks}].
    The result is [None] for a chain without steps. *)
Definition apply (app : Task.App) (args : list pyval) (tasks : list loc)
    (options : gmap string pyval) : M (option AsyncResult) :=
  tasks ← mapM (λ task, t ← Canvas.maybe_subtask task; Canvas.clone t []) tasks;
  apply_loop app tasks None.

(** [x[-1]] and [x[0]] *)
Definition last_item {A} (xs : list A) : M A :=
  match last xs with Some x => mret x | None => raise IndexError end.

Definition first_item {A} (xs : list A) : M A :=
  match xs with x :: _ => mret x | [] => raise IndexError end.

(** [apply_async(self, args, kwargs, group_id, chord, task_id, options)],
    with [kwargs = {'tasks': tasks}]. Popping [publisher] from [options]
    has no effect that is observed: the options are not used again on
    this path. *)
Definition apply_async (app : Task.App) (args : list pyval) (tasks : list loc)
    (group_id chord task_id : pyval) (options : gmap string pyval)
  : M (option AsyncResult) :=
  if Task.CELERY_ALWAYS_EAGER app then apply app args tasks options
  else
    '(tasks, results) ← prepare_steps args tasks;
    result ← last_item results;
    (if truthy group_id
     then t ← last_item tasks; Canvas.set t "group_id" group_id
     else mret tt);;
    (if truthy chord
     then t ← last_item tasks; Canvas.set t "chord" chord
     else mret tt);;
    result ← (if truthy task_id
              then t ← last_item tasks; Canvas.set t "task_id" task_id;;
                   mret (Result.AsyncResult task_id)
              else mret result);
    t0 ← first_item tasks;
    Canvas.apply_async t0 [] ∅;;
    mret (Some result).

End Chain.

(** *** class Chord *)

Module Chord.

(** The body of [for task in header.tasks:] in [run]. *)
Definition tag_member (group_id : pyval) (body : loc) (task : loc) : M AsyncResult :=
  s ← deref task;
  tid ← match options s !! "task_id" with
        | Some t => mret t
        | None => u ← uuid; set_option task "task_id" u;; mret u
        end;
  set_option task "chord" (VRef body);;
  set_option task "group_id" group_id;;
  mret (Result.AsyncResult tid).

(** [run(self, header, body, partial_args, interval, max_retries,
    propagate, eager)]. [header] is the list of member signatures, which
    [group(map(maybe_subtask, header))] wraps without copying them;
    [header.apply] and calling [header] go to the Group task. *)
Definition run (app : Task.App) (header : list loc) (body : loc)
    (partial_args : list pyval) (interval max_retries : pyval)
    (propagate eager : bool) : M GroupResult :=
  group_id ← uuid;
  r ← mapM (tag_member group_id body) header;
  if eager then
    Group.apply app partial_args header (<["task_id" := group_id]> ∅)
  else
    emit (OnChordApply group_id (VRef body) interval max_retries
            (VBool propagate) r);;
    Group.apply_async app partial_args header (<["task_id" := group_id]> ∅).

(** [apply(self, args, kwargs, propagate, options)]: the chord task runs
    eagerly with [eager=True]; positional [args] next to the [header]
    keyword do not bind. The header's values are then collected and given
    to the body. *)
Definition apply (app : Task.App) (args : list pyval) (header : list loc)
    (body : loc) (propagate : bool) (options : gmap string pyval) : M AsyncResult :=
  match args with
  | _ :: _ => raise TypeError
  | [] =>
      emit (Execute "celery.chord" []
              (<["header" := VList (VRef <$> header)]>
                 (<["body" := VRef body]> (<["eager" := VBool true]> ∅))));;
      res ← run app header body [] (VInt 1) VNone false true;
      vs ← (if Result.supports_native_join (Task.backend app)
            then Result.join_native (Task.backend app) res true
            else Result.join (Task.backend app) res true);
      b ← Canvas.maybe_subtask body;
      Canvas.apply app b [VList vs] ∅
  end.

(** [apply_async(self, args, kwargs, task_id, options)], with
    [kwargs = {'header': header, 'body': body}]. *)
Definition apply_async (app : Task.App) (args : list pyval) (header : list loc)
    (body : loc) (task_id : pyval) (options : gmap string pyval) : M AsyncResult :=
  if Task.CELERY_ALWAYS_EAGER app then apply app args header body true options
  else
    let group_id := default VNone (options !! "group_id") in
    let options := delete "group_id" options in
    let chord := default VNone (options !! "chord") in
    let options := delete "chord" options in
    body ← Canvas.maybe_subtask body;
    (if truthy group_id then Canvas.set body "group_id" group_id else mret tt);;
    (if truthy chord then Canvas.set body "chord" chord else mret tt);;
    d ← (if truthy task_id then mret task_id else uuid);
    s ← deref body;
    callback_id ← match Py.options s !! "task_id" with
                  | Some t => mret t
                  | None => set_option body "task_id" d;; mret d
                  end;
    parent ← Task.apply_async "celery.chord"
               [VList (VRef <$> header); VRef body; VList args] ∅ options;
    let body_result := Result.AsyncResult callback_id in
    mret (set_parent body_result (Some parent)).

End Chord.

End Builtins.

(** ** The worker's side of a retrying task *)

Module Worker.

Inductive detector_state :=
| POLLING
| DONE (poll : nat)
| FAILED (poll : nat) (e : exn).

(** Modelled from the spec: how the queue and the worker treat the
    self-rescheduling detector. Poll number [poll] (counted from 0) runs
    [unlock_chord] against the store as it is then, [store_at poll], with
    [poll] retries on its request; a [RetryTaskError] means the task was
    sent again and leads to the next poll, a normal return ends the
    detector (DONE), any other exception is its failure. [fuel] bounds
    the polls that are simulated. *)
Fixpoint chord_unlock (fuel : nat) (native : bool)
    (store_at : nat → gmap string TaskMeta) (poll : nat)
    (group_id : pyval) (callback : Signature) (interval : pyval)
    (propagate : bool) (max_retries : pyval) (result : list pyval)
    (w : World) : detector_state * World :=
  match fuel with
  | 0 => (POLLING, w)
  | S fuel =>
      match Builtins.unlock_chord (Result.mkBackend native (store_at poll))
              (Task.mkRequest poll) group_id callback interval propagate
              max_retries result w with
      | (Ok _, w') => (DONE poll, w')
      | (Raise RetryTaskError, w') =>
          chord_unlock fuel native store_at (S poll) group_id callback
            interval propagate max_retries result w'
      | (Raise e, w') => (FAILED poll e, w')
      end
  end.

End Worker.



Open Scope list_scope.
Open Scope nat_scope.

Import Builtins.

(** ** Sample canvases, apps and stores *)

Module Examples.

Definition sig (name : string) (a : list pyval) : Signature :=
  mkSignature name a ∅ ∅ kind_task.

Definition group_of (members : list loc) : Signature :=
  mkSignature "celery.group" [] (<["tasks" := VList (VRef <$> members)]> ∅) ∅ kind_group.

Definition world (h : gmap loc Signature) : World := mkWorld h 0 [].

(** [chain(group(a, b), c, d)]: objects 0 and 1 are [a] and [b], 2 is
    the group, 3 is [c], 4 is [d]. *)
Definition canvas : gmap loc Signature :=
  <[0 := sig "a" []]> (<[1 := sig "b" []]> (<[2 := group_of [0; 1]]>
    (<[3 := sig "c" []]> (<[4 := sig "d" []]> ∅)))).

Definition sum_ints (vs : list pyval) : Z :=
  foldr (λ v acc, match v with VInt z => (z + acc)%Z | _ => acc end) 0%Z vs.

(** An app whose one task, [add], sums its integer arguments. *)
Definition app : Task.App :=
  Task.mkApp false (Result.mkBackend false ∅)
    (λ name a _, if String.eqb name "add" then Task.Returned (VInt (sum_ints a))
                 else Task.Threw (VExc "NotRegistered")).

End Examples.

Module Samples.
(** A header of two tasks: [h1] has succeeded with 1; [h2] is pending in
    [pending] and has failed in [settled]. *)
Definition pending : gmap string TaskMeta :=
  <["h1" := mkMeta SUCCESS (VInt 1)]> ∅.

Definition settled : gmap string TaskMeta :=
  <["h1" := mkMeta SUCCESS (VInt 1)]> (<["h2" := mkMeta FAILURE (VExc "boom")]> ∅).

Definition ids : list pyval := [VStr "h1"; VStr "h2"].

(** The header settles between the second and the third poll. *)
Definition store_at (p : nat) : gmap string TaskMeta :=
  if p <? 2 then pending else settled.

Definition never (p : nat) : gmap string TaskMeta := pending.

Definition body : Signature := mkSignature "body" [] ∅ ∅ kind_task.

Definition idle : World := mkWorld ∅ 0 [].
End Samples.

Module Picky.

(** An app whose task [inv] returns the integer it is given, except 0, on
    which it raises. *)
Definition app : Task.App :=
  Task.mkApp false (Result.mkBackend false ∅)
    (λ name a _, match a with
                 | [VInt 0] => Task.Threw (VExc "ZeroDivisionError")
                 | [VInt z] => Task.Returned (VInt z)
                 | _ => Task.Threw (VExc "TypeError")
                 end).

Definition inv : Signature := mkSignature "inv" [] ∅ ∅ kind_task.

End Picky.

Module Pipeline.

(** The steps [add.s(2)] and [add.s(3)], and a step whose task is not
    registered. *)
Definition canvas : gmap loc Signature :=
  <[0 := Examples.sig "add" [VInt 2]]> (<[1 := Examples.sig "add" [VInt 3]]>
    (<[2 := Examples.sig "missing" []]> ∅)).

End Pipeline.

(** ** Vocabulary of the statements *)

Definition is_publish (e : Event) : bool :=
  match e with Publish _ _ _ _ => true | _ => false end.
Definition is_retry (e : Event) : bool :=
  match e with Retry _ _ _ => true | _ => false end.
Definition publishes (evs : list Event) : list Event := List.filter is_publish evs.
Definition reschedules (evs : list Event) : list Event := List.filter is_retry evs.

Definition header_of (group_id : pyval) (ids : list pyval) : GroupResult :=
  mkGroupResult group_id (Result.AsyncResult <$> ids).

(** The stored values of the children, in order. *)
Definition values (be : Result.Backend) (rs : list AsyncResult) : list pyval :=
  (λ r, result (Result.meta_of be r)) <$> rs.

(** The exception instance of the first failed child, if any. *)
Definition first_failure (be : Result.Backend) (rs : list AsyncResult) : option pyval :=
  result <$> find is_failure (Result.meta_of be <$> rs).

(** What a join of ready children comes to. *)
Definition join_outcome (be : Result.Backend) (rs : list AsyncResult)
    (propagate : bool) : outcome (list pyval) :=
  match (if propagate then first_failure be rs else None) with
  | Some e => Raise (Raised e)
  | None => Ok (values be rs)
  end.

(** The message that submits [callback] with the joined list. *)
Definition callback_message (callback : Signature) (vs : list pyval) : Event :=
  Publish (task callback) (Canvas.merge_args callback [VList vs])
    (kwargs callback) (Canvas.merge_options callback ∅).

(** Outcome and calls of one invocation of the detector, by cases. *)
Definition unlock_chord_trace (be : Result.Backend) (req : Task.Request)
    (callback : Signature) (interval : pyval) (propagate : bool)
    (max_retries : pyval) (g : GroupResult) : outcome unit * list Event :=
  let j := Join (Result.supports_native_join be) (res_id <$> gr_results g) propagate in
  if Result.group_ready be g then
    match join_outcome be (gr_results g) propagate with
    | Ok vs => (Ok tt, [j; callback_message callback vs])
    | Raise e => (Raise e, [j])
    end
  else if Task.exhausted req max_retries then (Raise MaxRetriesExceededError, [])
  else (Raise RetryTaskError, [Retry interval max_retries (S (Task.retries req))]).

(** The backend as poll number [p] finds it. *)
Definition backend_at (native : bool) (store_at : nat → gmap string TaskMeta)
    (p : nat) : Result.Backend :=
  Result.mkBackend native (store_at p).

(** Is the whole header ready at poll [p]? *)
Definition header_ready_at (native : bool) (store_at : nat → gmap string TaskMeta)
    (gid : pyval) (ids : list pyval) (p : nat) : bool :=
  Result.group_ready (backend_at native store_at p) (header_of gid ids).

Definition trace_at_poll (native : bool) (store_at : nat → gmap string TaskMeta)
    (gid : pyval) (cb : Signature) (interval : pyval) (propagate : bool)
    (mr : pyval) (ids : list pyval) (p : nat) : outcome unit * list Event :=
  unlock_chord_trace (backend_at native store_at p) (Task.mkRequest p) cb interval
    propagate mr (header_of gid ids).

(** The retries that polls [p], ..., [p + n - 1] ask for. *)
Definition retry_calls (interval mr : pyval) (p n : nat) : list Event :=
  (λ i, Retry interval mr (S i)) <$> seq p n.

(** The task id a member ends up with: its own, or the next uuid. *)
Definition member_tid (w : World) (l : loc) : pyval :=
  default (VStr (uuid4 (uuid_ctr w))) (options (heap w !!! l) !! "task_id").

(** A member's signature once [stamp] and a task id are written on it. *)
Definition stamped (stamp : gmap string pyval) (tid : pyval) (s : Signature) : Signature :=
  with_options (λ o, stamp ∪ <["task_id" := tid]> o) s.

(** [w'] keeps every object of [w], up to the options that stamping
    writes: a task id where there was none, and the keys of [stamp]. *)
Definition carried (stamp : gmap string pyval) (w w' : World) : Prop :=
  dom (heap w) ⊆ dom (heap w') ∧
  ∀ l, l ∈ dom (heap w) →
    let s := heap w !!! l in
    let s' := heap w' !!! l in
    task s' = task s ∧ args s' = args s ∧ kwargs s' = kwargs s ∧
    subtask_type s' = subtask_type s ∧
    (∀ t, options s !! "task_id" = Some t → options s' !! "task_id" = Some t) ∧
    (∀ k v, stamp !! k = Some v → options s !! k = Some v → options s' !! k = Some v) ∧
    (∀ k, k ≠ "task_id" → stamp !! k = None → options s' !! k = options s !! k).

(** What holds of a member [l] and what the pass returned for it, [b]
    (whose handle is [π b]), after the pass. *)
Definition tagged {B : Type} (π : B → AsyncResult) (Q : loc → B → Prop)
    (stamp : gmap string pyval) (w' : World) (l : loc) (b : B) : Prop :=
  Q l b ∧ l ∈ dom (heap w') ∧
  (∃ tid, options (heap w' !!! l) !! "task_id" = Some tid ∧
          π b = Result.AsyncResult tid) ∧
  (∀ k v, stamp !! k = Some v → options (heap w' !!! l) !! k = Some v).

(** Where a member's task id comes from: its own if it had one when the
    pass began, else a uuid drawn during the pass. *)
Definition origin {B : Type} (π : B → AsyncResult) (w : World) (l : loc) (b : B) : Prop :=
  ∃ n, uuid_ctr w ≤ n ∧
    π b = Result.AsyncResult
            (default (VStr (uuid4 n)) (options (heap w !!! l) !! "task_id")).

Definition group_stamp (group_id : pyval) : gmap string pyval :=
  <["group_id" := group_id]> ∅.

Definition chord_stamp (group_id : pyval) (body : loc) : gmap string pyval :=
  <["group_id" := group_id]> (<["chord" := VRef body]> ∅).

(** The world once a uuid has been drawn. *)
Definition drawn (w : World) : World :=
  mkWorld (heap w) (S (uuid_ctr w)) (outbox w).

(** The group id [prepare] settles on, and the options it leaves. *)
Definition prepared_group_id (options : gmap string pyval) (w : World) : pyval :=
  default (VStr (uuid4 (uuid_ctr w))) (options !! "task_id").

Definition prepared_options (options : gmap string pyval) (w : World) :=
  <["group_id" := prepared_group_id options w]>
    (<["task_id" := prepared_group_id options w]> options).

(** [w'] has every object of [w], unchanged. *)
Definition kept (w w' : World) : Prop :=
  dom (heap w) ⊆ dom (heap w') ∧
  ∀ l, l ∈ dom (heap w) → heap w' !!! l = heap w !!! l.

(** The copy [clone] makes of a signature. *)
Definition cloned (a : list pyval) (s : Signature) : Signature :=
  mkSignature (task s) (Canvas.merge_args s a) (kwargs s) (options s) (subtask_type s).

Definition member_execute (pa : list pyval) (s : Signature) : Event :=
  Execute (task s) (pa ++ args s) (kwargs s).

Definition member_publish (o : gmap string pyval) (pa : list pyval) (s : Signature) : Event :=
  Publish (task s) (pa ++ args s) (kwargs s) (o ∪ options s).

(** The options [Group.run] submits each member with. *)
Definition run_options (group_id : pyval) : gmap string pyval :=
  <["group_id" := group_id]> (<["add_to_parent" := VBool false]> ∅).

(** The options [Chord.run] submits or executes the header with. *)
Definition header_options (group_id : pyval) : gmap string pyval :=
  <["task_id" := group_id]> ∅.

(** [if v: sig.set(k=v)] on the options. *)
Definition set_if (v : pyval) (k : string) (o : gmap string pyval) : gmap string pyval :=
  if truthy v then <[k := v]> o else o.

(** The caller-level overrides of [Chain.apply_async], in the order the
    code applies them. *)
Definition overrides (group_id chord task_id : pyval) (o : gmap string pyval) :=
  set_if task_id "task_id" (set_if chord "chord" (set_if group_id "group_id" o)).

(** [w'] has every object of [w], with the task id it had. *)
Definition tid_kept (w w' : World) : Prop :=
  dom (heap w) ⊆ dom (heap w') ∧
  ∀ l, l ∈ dom (heap w) →
    options (heap w' !!! l) !! "task_id" = options (heap w !!! l) !! "task_id".

(** A prepared step and its handle agree on the task id. *)
Definition step_handle (w : World) (t : loc) (r : AsyncResult) : Prop :=
  t ∈ dom (heap w) ∧ options (heap w !!! t) !! "task_id" = Some (res_id r).

(** The id [Task.apply_async] gives the invocation it submits. *)
Definition submitted_id (opts : gmap string pyval) (w : World) : pyval :=
  let t := default VNone (opts !! "task_id") in
  if truthy t then t else VStr (uuid4 (uuid_ctr w)).

(** The signature [s] called with the arguments [a] in front of its own. *)
Definition call (app : Task.App) (s : Signature) (a : list pyval) : Task.ran :=
  Task.registry app (task s) (a ++ args s) (kwargs s).

Fixpoint feed (app : Task.App) (sigs : list Signature) (v : Task.ran) : Task.ran :=
  match sigs with
  | [] => v
  | s :: rest =>
      match v with
      | Task.Returned x => feed app rest (call app s [x])
      | Task.Threw e => Task.Threw e
      end
  end.

(** The spec's words: "sequential manual application Sk(...S2(S1(A)))". *)
Definition manual_application (app : Task.App) (sigs : list Signature)
    (a : list pyval) : option Task.ran :=
  match sigs with
  | [] => None
  | s1 :: rest => Some (feed app rest (call app s1 a))
  end.

Definition is_registration (e : Event) : bool :=
  match e with OnChordApply _ _ _ _ _ _ => true | _ => false end.

(** The task ids of the messages handed to the queue, in order. *)
Definition published_ids (evs : list Event) : list pyval :=
  omap (λ e, match e with
             | Publish _ _ _ o => o !! "task_id"
             | _ => None
             end) evs.

(** The chord signature [chord(header, body=body, task_id=tid)]. *)
Definition chord_signature (header body : loc) (tid : pyval) : Signature :=
  mkSignature "celery.chord" []
    (<["header" := VRef header]> (<["body" := VRef body]> ∅))
    (<["task_id" := tid]> ∅) kind_chord.

(** The handle [r] holds what running a task gave, [x]. *)
Definition holds (r : AsyncResult) (x : Task.ran) : Prop :=
  match x with
  | Task.Returned v => res_eager r = Some (SUCCESS, v)
  | Task.Threw e => res_eager r = Some (FAILURE, e)
  end.

(** The outcome [out] of an eager chain is what manual application, [x],
    comes to: its value in a successful handle; or its exception, held
    by the last handle if the last step raised it, raised by the chain
    if an earlier step did. *)
Definition reflects (x : Task.ran) (out : outcome (option AsyncResult)) : Prop :=
  match x with
  | Task.Returned v => ∃ r, out = Ok (Some r) ∧ res_eager r = Some (SUCCESS, v)
  | Task.Threw e =>
      (∃ r, out = Ok (Some r) ∧ res_eager r = Some (FAILURE, e)) ∨
      out = Raise (Raised e)
  end.

(** The calls of the task [name], one per argument tuple, in order. *)
Definition executions (name : string) (calls : list (list pyval)) : list Event :=
  (λ a, Execute name a ∅) <$> calls.

(** [xs] with every element made a tuple of one. *)
Definition singletons (xs : list pyval) : list (list pyval) := (λ x, [x]) <$> xs.

(** Decorating the constructors [cs] with [shared_task], one after the
    other: what the decorator returned for each, and the list at the end. *)
Definition decorate_all {C : Type} (cs : list C) (_shared_tasks : list C)
  : list C * list C :=
  foldl (λ st c, let '(c', l) := shared_task c st.2 in (st.1 ++ [c'], l))
    ([], _shared_tasks) cs.

(** The handle [r] of the eager execution of the member [s] with the
    arguments [pa] in front of its own: it holds what the call gave, and
    its id is the member's task id, when that is a true value. *)
Definition executed (app : Task.App) (pa : list pyval) (s : Signature)
    (r : AsyncResult) : Prop :=
  holds r (call app s pa) ∧
  ∀ t, options s !! "task_id" = Some t → truthy t = true → res_id r = t.

(** The steps of an eager chain that run, each with the call it makes
    and what the call gives: the first step is called with [a] in front
    of its own arguments, every later one with the value the step before
    it returned; no step runs after one that raised. *)
Fixpoint chain_run (app : Task.App) (sigs : list Signature) (a : list pyval)
  : list (Event * Task.ran) :=
  match sigs with
  | [] => []
  | s :: rest =>
      (member_execute a s, call app s a) ::
      match call app s a with
      | Task.Returned v => chain_run app rest [v]
      | Task.Threw _ => []
      end
  end.

(** A handle, its parent, the parent of that, and so on. *)
Fixpoint lineage (r : AsyncResult) : list AsyncResult :=
  match r with
  | mkAsyncResult _ _ (Some p) => r :: lineage p
  | mkAsyncResult _ _ None => [r]
  end.

(** The handles behind [prev], the value of the loop's variable. *)
Definition ancestry (prev : option AsyncResult) : list AsyncResult :=
  match prev with Some p => lineage p | None => [] end.

(** The argument tuple that the loop of [Chain.apply] builds from [prev]. *)
Definition carry (prev : option AsyncResult) (a : list pyval) : Prop :=
  match prev with
  | None => a = []
  | Some p => ∃ v, res_eager p = Some (SUCCESS, v) ∧ a = [v]
  end.

(** How an eager chain over [n] steps ended, given the steps that ran. *)
Definition chain_ended (n : nat) (run : list (Event * Task.ran))
    (behind : list AsyncResult) (out : outcome (option AsyncResult)) : Prop :=
  match out with
  | Ok (Some r) =>
      length run = n ∧
      ∃ hs, lineage r = hs ++ behind ∧ Forall2 holds (reverse hs) run.*2
  | Ok None => n = 0 ∧ behind = []
  | Raise e =>
      length run < n ∧ ∃ x, last run.*2 = Some (Task.Threw x) ∧ e = Raised x
  end.

(** Every handle has for parent the handle before it in the list; the
    first has [p]. *)
Fixpoint chained (p : option AsyncResult) (rs : list AsyncResult) : Prop :=
  match rs with
  | [] => True
  | r :: rs' => res_parent r = p ∧ chained (Some r) rs'
  end.

(** In the store [h], every step of [ts] that has a successor has it as
    the last of its callbacks. *)
Definition linked (h : gmap loc Signature) (ts : list loc) : Prop :=
  ∀ i t t', ts !! i = Some t → ts !! S i = Some t' →
    ∃ items, options (h !!! t) !! "link" = Some (VList (items ++ [VRef t'])).

(** The arguments that turn [i] of the loop of [prepare_steps] clones
    its step with. *)
Definition turn_args (args : list pyval) (i : nat) : list pyval :=
  match i with 0 => args | S _ => [] end.

(** The task id that [prepare_steps] settles on for a copy [s]. *)
Definition step_tid (w : World) (s : Signature) : pyval :=
  let t := default VNone (options s !! "task_id") in
  if is_none t then VStr (uuid4 (uuid_ctr w)) else t.

(** The callbacks of [s] with [t] added at the end. *)
Definition with_link (t : loc) (s : Signature) : Signature :=
  with_options
    (insert "link"
       (VList ((match options s !! "link" with Some (VList vs) => vs | _ => [] end)
               ++ [VRef t]))) s.

(** What one turn of the loop does to the world: [task'] is the step it
    appends and [r'] its handle. *)
Definition turn (prev : option (loc * AsyncResult)) (w w2 : World)
    (task' : loc) (r' : AsyncResult) : Prop :=
  outbox w2 = outbox w ∧
  dom (heap w) ⊆ dom (heap w2) ∧
  task' ∈ dom (heap w2) ∧ (task' ∉ dom (heap w)) ∧
  (∀ l, l ∈ dom (heap w) → (∀ pr, prev ≠ Some (l, pr)) →
     heap w2 !!! l = heap w !!! l) ∧
  (∀ pt pr, prev = Some (pt, pr) →
     heap w2 !!! pt = with_link task' (heap w !!! pt)) ∧
  res_parent r' = snd <$> prev.

(** The invariant of the loop of [prepare_steps], begun in [w0]. *)
Definition prepared (w0 w : World) (prev : option (loc * AsyncResult))
    (tasks : list loc) (results : list AsyncResult) : Prop :=
  kept w0 w ∧ outbox w = outbox w0 ∧
  Forall (λ t, t ∈ dom (heap w) ∧ t ∉ dom (heap w0)) tasks ∧
  NoDup tasks ∧
  length tasks = length results ∧
  chained None results ∧
  match prev with
  | None => tasks = [] ∧ results = []
  | Some (t, r) => last tasks = Some t ∧ last results = Some r
  end ∧
  linked (heap w) tasks.

(** The prepared step [s'], with its handle [r], is a copy of the step
    [s] with [a] in front of its arguments: the same task, keyword
    arguments and kind; the task id of [s], or a new one when [s] has
    none (or [None]), which is also the id of [r]; and the options of
    [s], the callbacks apart. *)
Definition copy_of (a : list pyval) (s s' : Signature) (r : AsyncResult) : Prop :=
  task s' = task s ∧ args s' = a ++ args s ∧ kwargs s' = kwargs s ∧
  subtask_type s' = subtask_type s ∧
  options s' !! "task_id" = Some (res_id r) ∧
  (∀ tid, options s !! "task_id" = Some tid → is_none tid = false → res_id r = tid) ∧
  (∀ k, k ≠ "task_id" → k ≠ "link" → options s' !! k = options s !! k).

(** Step by step, [tasks] with [results] are copies of [done]. *)
Definition copies (w0 w : World) (args : list pyval) (done tasks : list loc)
    (results : list AsyncResult) : Prop :=
  length tasks = length done ∧ length results = length done ∧
  ∀ j l t r, done !! j = Some l → tasks !! j = Some t → results !! j = Some r →
    copy_of (turn_args args j) (heap w0 !!! l) (heap w !!! t) r.

(** What collecting the outcomes [xs] with [propagate=True] comes to:
    the exception of the first that raised, or all the values. *)
Fixpoint gather (xs : list Task.ran) : outcome (list pyval) :=
  match xs with
  | [] => Ok []
  | Task.Returned v :: xs' =>
      match gather xs' with
      | Ok vs => Ok (v :: vs)
      | Raise e => Raise e
      end
  | Task.Threw e :: _ => Raise (Raised e)
  end.

(** The keyword arguments [Chord.apply] runs the chord task with. *)
Definition eager_chord_kwargs (header : list loc) (body : loc) : gmap string pyval :=
  <["header" := VList (VRef <$> header)]>
    (<["body" := VRef body]> (<["eager" := VBool true]> ∅)).

(** Whatever the outcome, the computation [m] only adds to the calls
    made so far, and what it adds are events that [ok] accepts. *)
Definition emits_only {A : Type} (ok : Event → bool) (m : M A) : Prop :=
  ∀ w, ∃ evs, outbox (m w).2 = outbox w ++ evs ∧ forallb ok evs = true.

(** The calls that stay in the current process: running a task body and
    joining results. *)
Definition is_local (e : Event) : bool :=
  match e with
  | Execute _ _ _ | Join _ _ _ => true
  | _ => false
  end.

(** ** Proof support *)

Ltac munfold :=
  unfold mbind, mret, M_bind, M_ret, raise, emit in *.

Ltac lookups :=
  repeat first
    [ rewrite lookup_insert_eq
    | rewrite lookup_insert_ne by done
    | rewrite lookup_empty ].

Lemma forallb_fmap {A B} (f : B → bool) (g : A → B) (l : list A) :
  forallb f (g <$> l) = forallb (λ x, f (g x)) l.
Proof. induction l as [|x l IH]; simpl; [reflexivity|]. f_equal. exact IH. Qed.

Section Detector.
Context (be : Result.Backend).

Lemma get_ready propagate r w :
  Result.ready be r = true →
  Result.get be propagate r w =
    (if propagate && is_failure (Result.meta_of be r)
     then Raise (Raised (result (Result.meta_of be r)))
     else Ok (result (Result.meta_of be r)), w).
Proof.
  unfold Result.ready, Result.get, is_failure.
  destruct (status (Result.meta_of be r)); simpl; try discriminate;
    intros _; destruct propagate; reflexivity.
Qed.

Lemma mapM_get_outcome propagate rs w :
  forallb (Result.ready be) rs = true →
  mapM (Result.get be propagate) rs w = (join_outcome be rs propagate, w).
Proof.
  unfold join_outcome, first_failure, values.
  induction rs as [|r rs IH]; simpl.
  - destruct propagate; reflexivity.
  - intros [Hr Hrs]%andb_prop. munfold.
    rewrite (get_ready propagate r w Hr), (IH Hrs).
    destruct propagate; simpl; [|reflexivity].
    destruct (is_failure (Result.meta_of be r)); simpl; [reflexivity|].
    destruct (find _ _); reflexivity.
Qed.

Lemma join_outcome_ready g propagate w :
  Result.group_ready be g = true →
  Result.join be g propagate w =
    (join_outcome be (gr_results g) propagate,
     log [Join false (res_id <$> gr_results g) propagate] w).
Proof.
  intros H. unfold Result.join. munfold.
  apply (mapM_get_outcome propagate (gr_results g)), H.
Qed.

Lemma join_native_outcome_ready g propagate w :
  Result.group_ready be g = true →
  Result.join_native be g propagate w =
    (join_outcome be (gr_results g) propagate,
     log [Join true (res_id <$> gr_results g) propagate] w).
Proof.
  unfold Result.group_ready, Result.join_native, Result.ready. intros H. munfold.
  rewrite forallb_fmap, H, <- list_fmap_compose. simpl.
  unfold join_outcome, first_failure, values.
  destruct propagate; simpl; [|reflexivity].
  destruct (find _ _); reflexivity.
Qed.
End Detector.

Lemma header_ids gid ids : res_id <$> gr_results (header_of gid ids) = ids.
Proof.
  unfold header_of; simpl. rewrite <- list_fmap_compose.
  induction ids as [|i ids IH]; simpl; [reflexivity|]. f_equal. exact IH.
Qed.

Lemma task_apply_async_outbox name a kw opts w :
  ∃ r w', Task.apply_async name a kw opts w = (Ok r, w') ∧
          outbox w' = outbox w ++ [Publish name a kw opts] ∧ heap w' = heap w.
Proof.
  unfold Task.apply_async. munfold.
  destruct (truthy (default VNone (opts !! "task_id"))); simpl; eauto.
Qed.

Lemma unlock_chord_outcome be req gid cb interval propagate mr ids w :
  ∃ w', Builtins.unlock_chord be req gid cb interval propagate mr ids w =
          (fst (unlock_chord_trace be req cb interval propagate mr (header_of gid ids)), w') ∧
        outbox w' = outbox w ++
          snd (unlock_chord_trace be req cb interval propagate mr (header_of gid ids)) ∧
        heap w' = heap w.
Proof.
  unfold Builtins.unlock_chord, unlock_chord_trace.
  fold (header_of gid ids).
  destruct (Result.group_ready be (header_of gid ids)) eqn:Hr.
  - munfold.
    assert (Hj : (if Result.supports_native_join be
                  then Result.join_native be (header_of gid ids)
                  else Result.join be (header_of gid ids)) propagate w =
                 (join_outcome be (gr_results (header_of gid ids)) propagate,
                  log [Join (Result.supports_native_join be)
                         (res_id <$> gr_results (header_of gid ids)) propagate] w)).
    { destruct (Result.supports_native_join be);
        [apply join_native_outcome_ready | apply join_outcome_ready]; exact Hr. }
    rewrite Hj.
    destruct (join_outcome be _ propagate) as [vs|e]; simpl.
    + unfold Canvas.delay, Canvas.sig_apply_async.
      destruct (task_apply_async_outbox (task cb) (Canvas.merge_args cb [VList vs])
                  (kwargs cb) (Canvas.merge_options cb ∅)
                  (log [Join (Result.supports_native_join be)
                          (res_id <$> gr_results (header_of gid ids)) propagate] w))
        as (r & w' & Hp & Ho & Hh).
      simpl in Hp, Ho, Hh |- *. rewrite Hp.
      exists w'. split; [reflexivity|]. split; [|exact Hh].
      rewrite Ho, <- app_assoc. reflexivity.
    + eexists. split; [reflexivity|]. split; reflexivity.
  - unfold Task.retry. destruct (Task.exhausted req mr); munfold; simpl.
    + exists w. rewrite app_nil_r. auto.
    + eexists. split; [reflexivity|]. split; reflexivity.
Qed.

Lemma join_outcome_raise be rs propagate e :
  join_outcome be rs propagate = Raise e → ∃ v, e = Raised v.
Proof.
  unfold join_outcome.
  destruct (if propagate then first_failure be rs else None); intros [=]; eauto.
Qed.

Lemma publishes_app evs evs' : publishes (evs ++ evs') = publishes evs ++ publishes evs'.
Proof. apply List.filter_app. Qed.

Lemma reschedules_app evs evs' :
  reschedules (evs ++ evs') = reschedules evs ++ reschedules evs'.
Proof. apply List.filter_app. Qed.

Section Polling.
Context (native : bool) (store_at : nat → gmap string TaskMeta).
Context (gid : pyval) (cb : Signature) (interval : pyval) (propagate : bool).
Context (mr : pyval) (ids : list pyval).

Local Abbreviation be_at := (backend_at native store_at).
Local Abbreviation ready_at := (header_ready_at native store_at gid ids).
Local Abbreviation run fuel p :=
  (Worker.chord_unlock fuel native store_at p gid cb interval propagate mr ids).
Local Abbreviation trace_at :=
  (trace_at_poll native store_at gid cb interval propagate mr ids).

Lemma run_step fuel p w :
  ∃ w', outbox w' = outbox w ++ snd (trace_at p) ∧
    run (S fuel) p w =
      match fst (trace_at p) with
      | Ok _ => (Worker.DONE p, w')
      | Raise RetryTaskError => run fuel (S p) w'
      | Raise e => (Worker.FAILED p e, w')
      end.
Proof.
  destruct (unlock_chord_outcome (be_at p) (Task.mkRequest p) gid cb interval
              propagate mr ids w) as (w' & Hu & Ho & _).
  exists w'. split; [exact Ho|].
  simpl. fold (be_at p). rewrite Hu. fold (trace_at p).
  destruct (fst (trace_at p)) as [[]|e]; [reflexivity|].
  destruct e; reflexivity.
Qed.

Lemma run_safe fuel : ∀ p0 w,
  ∃ st w' evs, run fuel p0 w = (st, w') ∧ outbox w' = outbox w ++ evs ∧
    length (publishes evs) ≤ 1 ∧
    (publishes evs ≠ [] →
       ∃ p, st = Worker.DONE p ∧ ready_at p = true ∧
            ∀ i, p0 ≤ i < p → ready_at i = false).
Proof.
  induction fuel as [|fuel IH]; intros p0 w.
  - exists Worker.POLLING, w, []. rewrite app_nil_r. simpl. repeat split; auto. congruence.
  - destruct (run_step fuel p0 w) as (w1 & Ho & ->).
    unfold trace_at, unlock_chord_trace in *. fold (ready_at p0) in *.
    destruct (ready_at p0) eqn:Hr.
    + destruct (join_outcome _ _ propagate) as [vs|e] eqn:Hj; simpl in *.
      * eexists _, w1, _. split; [reflexivity|]. split; [exact Ho|].
        simpl. split; [lia|]. intros _. exists p0. repeat split; auto. intros; lia.
      * apply join_outcome_raise in Hj as [v ->].
        eexists _, w1, _. split; [reflexivity|]. split; [exact Ho|].
        simpl. split; [lia|]. congruence.
    + destruct (Task.exhausted _ mr); simpl in *.
      * eexists _, w1, _. split; [reflexivity|]. split; [exact Ho|].
        simpl. split; [lia|]. congruence.
      * destruct (IH (S p0) w1) as (st & w2 & evs & Hrun & Ho2 & Hlen & Hp).
        exists st, w2, (Retry interval mr (S p0) :: evs).
        split; [exact Hrun|]. split.
        { rewrite Ho2, Ho, <- app_assoc. reflexivity. }
        simpl. split; [exact Hlen|]. intros Hne.
        destruct (Hp Hne) as (p & -> & Hrp & Hbefore).
        exists p. repeat split; auto. intros i Hi.
        destruct (decide (i = p0)) as [->|]; [exact Hr|]. apply Hbefore. lia.
Qed.

Lemma run_until_ready K : ∀ p0 w fuel,
  (∀ i, i < K → ready_at (p0 + i) = false) →
  ready_at (p0 + K) = true →
  (∀ i, i < K → Task.exhausted (Task.mkRequest (p0 + i)) mr = false) →
  (propagate = true →
     first_failure (be_at (p0 + K)) (gr_results (header_of gid ids)) = None) →
  K < fuel →
  ∃ w', run fuel p0 w = (Worker.DONE (p0 + K), w') ∧
    outbox w' = outbox w ++ retry_calls interval mr p0 K ++
      [Join native ids propagate;
       callback_message cb (values (be_at (p0 + K)) (gr_results (header_of gid ids)))].
Proof.
  induction K as [|K IH]; intros p0 w fuel Hnot Hrdy Hbud Hok Hfuel;
    (destruct fuel as [|fuel]; [lia|]);
    destruct (run_step fuel p0 w) as (w1 & Ho & ->);
    unfold trace_at, unlock_chord_trace in *; fold (ready_at p0) in *.
  - rewrite Nat.add_0_r in *. rewrite Hrdy in *.
    assert (Hj : join_outcome (be_at p0) (gr_results (header_of gid ids)) propagate
                 = Ok (values (be_at p0) (gr_results (header_of gid ids)))).
    { unfold join_outcome. destruct propagate; [rewrite Hok|]; auto. }
    rewrite Hj, header_ids in *. simpl in *. exists w1. split; [reflexivity|].
    rewrite Ho. reflexivity.
  - pose proof (Hnot 0 ltac:(lia)) as H0. pose proof (Hbud 0 ltac:(lia)) as B0.
    rewrite Nat.add_0_r in H0, B0. rewrite H0, B0 in *. simpl in *.
    destruct (IH (S p0) w1 fuel) as (w2 & Hrun & Ho2).
    + intros i Hi. replace (S p0 + i) with (p0 + S i) by lia. apply Hnot. lia.
    + replace (S p0 + K) with (p0 + S K) by lia. exact Hrdy.
    + intros i Hi. replace (S p0 + i) with (p0 + S i) by lia. apply Hbud. lia.
    + replace (S p0 + K) with (p0 + S K) by lia. exact Hok.
    + lia.
    + exists w2. replace (p0 + S K) with (S p0 + K) by lia.
      split; [exact Hrun|]. rewrite Ho2, Ho. unfold retry_calls. simpl.
      rewrite <- !app_assoc. reflexivity.
Qed.

Lemma run_until_exhausted n : ∀ p0 w fuel,
  (∀ i, ready_at i = false) →
  mr = VInt (Z.of_nat (p0 + n)) →
  n < fuel →
  ∃ w', run fuel p0 w = (Worker.FAILED (p0 + n) MaxRetriesExceededError, w') ∧
    outbox w' = outbox w ++ retry_calls interval mr p0 n.
Proof.
  induction n as [|n IH]; intros p0 w fuel Hnot Hmr Hfuel;
    (destruct fuel as [|fuel]; [lia|]);
    destruct (run_step fuel p0 w) as (w1 & Ho & ->);
    unfold trace_at, unlock_chord_trace in *; fold (ready_at p0) in *;
    rewrite (Hnot p0) in *.
  - assert (Task.exhausted (Task.mkRequest p0) mr = true) as E.
    { rewrite Hmr. simpl. apply Z.ltb_lt. lia. }
    rewrite E in *. simpl in *. exists w1. rewrite Nat.add_0_r.
    split; [reflexivity|exact Ho].
  - assert (Task.exhausted (Task.mkRequest p0) mr = false) as E.
    { rewrite Hmr. simpl. apply Z.ltb_ge. lia. }
    rewrite E in *. simpl in *.
    destruct (IH (S p0) w1 fuel Hnot) as (w2 & Hrun & Ho2); [rewrite Hmr; f_equal; lia | lia |].
    exists w2. replace (p0 + S n) with (S p0 + n) by lia.
    split; [exact Hrun|]. rewrite Ho2, Ho. unfold retry_calls. simpl.
    rewrite <- app_assoc. reflexivity.
Qed.

End Polling.

Lemma carried_refl stamp w : carried stamp w w.
Proof. split; [done|]. intros l _. simpl. repeat split; trivial. Qed.

Lemma carried_same_heap stamp w w' : heap w' = heap w → carried stamp w w'.
Proof. intros H. unfold carried. rewrite H. apply carried_refl. Qed.

Lemma carried_trans stamp w1 w2 w3 :
  carried stamp w1 w2 → carried stamp w2 w3 → carried stamp w1 w3.
Proof.
  intros [D1 H1] [D2 H2]. split; [intros x Hx; apply D2, D1, Hx|].
  intros l Hl. specialize (H1 l Hl). specialize (H2 l (D1 l Hl)). simpl in *.
  destruct H1 as (a1 & b1 & c1 & d1 & e1 & f1 & g1).
  destruct H2 as (a2 & b2 & c2 & d2 & e2 & f2 & g2).
  repeat split; try congruence; eauto.
  intros k Hk Hs. rewrite g2, g1; auto.
Qed.

Lemma stamped_carried stamp tid l w w' :
  stamp !! "task_id" = None →
  tid = member_tid w l →
  heap w' = <[l := stamped stamp tid (heap w !!! l)]> (heap w) →
  carried stamp w w'.
Proof.
  intros Hs -> Hh. split.
  - rewrite Hh, dom_insert_L. set_solver.
  - intros l' Hl'. simpl. rewrite Hh.
    destruct (decide (l = l')) as [<-|Hne].
    + rewrite lookup_total_insert_eq. unfold stamped, with_options; simpl.
      repeat split; auto.
      * intros t Ht. rewrite lookup_union_r by exact Hs.
        unfold member_tid. rewrite Ht. simpl. apply lookup_insert_eq.
      * intros k v Hk _. apply lookup_union_Some_l. exact Hk.
      * intros k Hk Hn. rewrite lookup_union_r by exact Hn.
        apply lookup_insert_ne. congruence.
    + rewrite lookup_total_insert_ne by exact Hne. repeat split; auto.
Qed.

Section Tagging.
Context {B : Type} (π : B → AsyncResult) (Q : loc → B → Prop).
Context (stamp : gmap string pyval) (f : loc → M B).
Hypothesis stamp_no_tid : stamp !! "task_id" = None.
Hypothesis f_spec : ∀ l w, ∃ b w',
  f l w = (Ok b, w') ∧ Q l b ∧
  π b = Result.AsyncResult (member_tid w l) ∧
  heap w' = <[l := stamped stamp (member_tid w l) (heap w !!! l)]> (heap w) ∧
  outbox w' = outbox w ∧ uuid_ctr w ≤ uuid_ctr w'.

Lemma tagged_carried w w' l b :
  tagged π Q stamp w l b → carried stamp w w' → tagged π Q stamp w' l b.
Proof.
  intros (HQ & Hd & (tid & Ht & Hb) & Hs) [D C].
  destruct (C l Hd) as (_ & _ & _ & _ & Ht' & Hs' & _).
  split; [exact HQ|]. split; [apply D, Hd|]. split.
  - exists tid. split; [apply Ht', Ht | exact Hb].
  - intros k v Hk. apply (Hs' k v Hk), Hs, Hk.
Qed.

Lemma mapM_tag tasks : ∀ w, ∃ bs w',
  mapM f tasks w = (Ok bs, w') ∧ outbox w' = outbox w ∧
  carried stamp w w' ∧ Forall2 (tagged π Q stamp w') tasks bs.
Proof.
  induction tasks as [|l tasks IH]; intros w; simpl.
  - exists [], w. repeat split; auto using carried_refl. 
  - destruct (f_spec l w) as (b & w1 & Hf & HQ & Hb & Hh & Ho & _).
    destruct (IH w1) as (bs & w' & Hm & Ho' & Hc & Hall).
    exists (b :: bs), w'. munfold. rewrite Hf, Hm.
    split; [reflexivity|]. split; [congruence|].
    assert (Hc1 : carried stamp w w1) by (eapply stamped_carried; eauto).
    split; [eapply carried_trans; eauto|].
    constructor; [|exact Hall].
    apply (tagged_carried w1); [|exact Hc].
    repeat split; auto.
    + rewrite Hh, dom_insert_L. apply elem_of_union_l, elem_of_singleton. reflexivity.
    + exists (member_tid w l). split; [|exact Hb].
      rewrite Hh, lookup_total_insert_eq. simpl.
      rewrite lookup_union_r by exact stamp_no_tid. apply lookup_insert_eq.
    + intros k v Hk. rewrite Hh, lookup_total_insert_eq. simpl.
      apply lookup_union_Some_l. exact Hk.
Qed.

Lemma mapM_tag_origin tasks : ∀ w bs w',
  mapM f tasks w = (Ok bs, w') →
  Forall2 (origin π w) tasks bs ∧ uuid_ctr w ≤ uuid_ctr w' ∧
  dom (heap w') = list_to_set tasks ∪ dom (heap w).
Proof.
  induction tasks as [|l tasks IH]; intros w bs w'; simpl.
  - munfold. intros [= <- <-]. split; [constructor|]. split; [lia|].
    rewrite union_empty_l_L. reflexivity.
  - destruct (f_spec l w) as (b & w1 & Hf & HQ & Hb & Hh & Ho & Hu).
    munfold. rewrite Hf.
    destruct (mapM f tasks w1) as [[bs'|e] w2] eqn:Hm; [|discriminate].
    intros [= <- <-].
    destruct (IH w1 bs' w2 Hm) as (Hall & Hu' & Hd).
    split; [|split; [lia|]].
    + constructor.
      * exists (uuid_ctr w). split; [lia|exact Hb].
      * eapply Forall2_impl; [exact Hall|]. intros l' b' (n & Hn & Hb').
        destruct (decide (l = l')) as [<-|Hne].
        -- exists (uuid_ctr w). split; [lia|]. rewrite Hb'. f_equal.
           rewrite Hh, lookup_total_insert_eq. simpl.
           rewrite lookup_union_r by exact stamp_no_tid.
           rewrite lookup_insert_eq. reflexivity.
        -- exists n. split; [lia|]. rewrite Hb', Hh.
           rewrite lookup_total_insert_ne by done. reflexivity.
    + rewrite Hd, Hh, dom_insert_L. rewrite (assoc_L (∪)). f_equal.
      apply (comm_L (∪)).
Qed.
End Tagging.

Lemma prepare_member_spec gid l w : ∃ b w',
  Builtins.Group.prepare_member gid l w = (Ok b, w') ∧ b.1 = l ∧
  b.2 = Result.AsyncResult (member_tid w l) ∧
  heap w' = <[l := stamped (group_stamp gid) (member_tid w l) (heap w !!! l)]> (heap w) ∧
  outbox w' = outbox w ∧ uuid_ctr w ≤ uuid_ctr w'.
Proof.
  unfold Builtins.Group.prepare_member, Canvas.maybe_subtask, set_option, deref,
    assign, uuid, member_tid, stamped, group_stamp.
  munfold. simpl. rewrite lookup_total_insert_eq. simpl.
  destruct (options (heap w !!! l) !! "task_id") as [t|] eqn:Ht.
  - rewrite lookup_insert_ne by done. rewrite Ht. simpl.
    eexists _, _. split; [reflexivity|]. repeat split; [|simpl; lia]. simpl.
    f_equal. unfold with_options. f_equal.
    apply map_eq. intros k.
    destruct (decide (k = "group_id")) as [->|Hk].
    + rewrite lookup_insert_eq. symmetry. apply lookup_union_Some_l, lookup_insert_eq.
    + rewrite lookup_insert_ne by done.
      rewrite lookup_union_r by (rewrite lookup_insert_ne by done; apply lookup_empty).
      destruct (decide (k = "task_id")) as [->|Hk'].
      * rewrite lookup_insert_eq. exact Ht.
      * rewrite lookup_insert_ne by done. reflexivity.
  - rewrite lookup_insert_ne by done. rewrite Ht. simpl.
    rewrite lookup_total_insert_eq.
    eexists _, _. split; [reflexivity|]. repeat split; [|simpl; lia]. simpl.
    rewrite insert_insert_eq. f_equal. unfold with_options; simpl. f_equal.
    apply map_eq. intros k.
    destruct (decide (k = "group_id")) as [->|Hk].
    + rewrite lookup_insert_ne by done. rewrite lookup_insert_eq.
      symmetry. apply lookup_union_Some_l, lookup_insert_eq.
    + rewrite lookup_union_r by (rewrite lookup_insert_ne by done; apply lookup_empty).
      destruct (decide (k = "task_id")) as [->|Hk'].
      * rewrite !lookup_insert_eq. reflexivity.
      * rewrite !lookup_insert_ne by done. reflexivity.
Qed.

Lemma tag_member_spec gid body l w : ∃ b w',
  Builtins.Chord.tag_member gid body l w = (Ok b, w') ∧ True ∧
  b = Result.AsyncResult (member_tid w l) ∧
  heap w' = <[l := stamped (chord_stamp gid body) (member_tid w l) (heap w !!! l)]> (heap w) ∧
  outbox w' = outbox w ∧ uuid_ctr w ≤ uuid_ctr w'.
Proof.
  unfold Builtins.Chord.tag_member, set_option, deref, assign, uuid, member_tid,
    stamped, chord_stamp.
  munfold. simpl.
  destruct (options (heap w !!! l) !! "task_id") as [t|] eqn:Ht; simpl;
    rewrite ?lookup_total_insert_eq; simpl;
    (eexists _, _; split; [reflexivity|]; repeat split; [|simpl; lia]; simpl;
     rewrite ?insert_insert_eq; f_equal; unfold with_options; simpl; f_equal;
     apply map_eq; intros k;
     destruct (decide (k = "group_id")) as [->|Hk];
     [ lookups; symmetry; apply lookup_union_Some_l; lookups; reflexivity |];
     destruct (decide (k = "chord")) as [->|Hk2];
     [ lookups; symmetry; apply lookup_union_Some_l; lookups; reflexivity |];
     rewrite lookup_union_r by (lookups; reflexivity);
     destruct (decide (k = "task_id")) as [->|Hk3]; lookups; auto).
Qed.

Lemma group_stamp_no_tid gid : group_stamp gid !! "task_id" = None.
Proof. reflexivity. Qed.

Lemma chord_stamp_no_tid gid body : chord_stamp gid body !! "task_id" = None.
Proof. reflexivity. Qed.

Lemma Forall2_fst_eq {A B} (xs : list A) (ys : list (A * B)) :
  Forall2 (λ x y, y.1 = x) xs ys → ys.*1 = xs.
Proof.
  induction 1 as [|x y xs ys H _ IH]; simpl; [reflexivity|].
  rewrite H. f_equal. exact IH.
Qed.

Lemma prepare_spec options tasks args w :
  tasks ≠ [] →
  let gid := prepared_group_id options w in
  ∃ ms w',
    Builtins.Group.prepare options tasks args w =
      (Ok (tasks, mkGroupResult gid ms.*2, gid, args, prepared_options options w), w') ∧
    outbox w' = outbox w ∧
    carried (group_stamp gid) w w' ∧
    Forall2 (tagged snd (λ l b, b.1 = l) (group_stamp gid) w') tasks ms ∧
    Forall2 (origin snd (drawn w)) tasks ms ∧
    dom (heap w') = list_to_set tasks ∪ dom (heap w).
Proof.
  intros Hne gid. unfold Builtins.Group.prepare, uuid. munfold. simpl.
  fold (prepared_group_id options w). fold gid. fold (drawn w).
  destruct (mapM_tag snd (λ l b, b.1 = l) (group_stamp gid)
              (Builtins.Group.prepare_member gid) (group_stamp_no_tid gid)
              (prepare_member_spec gid) tasks (drawn w))
    as (ms & w' & Hm & Ho & Hc & Hall).
  destruct (mapM_tag_origin snd (λ l b, b.1 = l) (group_stamp gid)
              (Builtins.Group.prepare_member gid) (group_stamp_no_tid gid)
              (prepare_member_spec gid) tasks (drawn w) ms w' Hm)
    as (Hor & _ & Hdom).
  rewrite Hm. exists ms, w'.
  assert (Hfst : ms.*1 = tasks).
  { apply Forall2_fst_eq. eapply Forall2_impl; [exact Hall|]. intros l b H. apply H. }
  destruct ms as [|m ms]; [simpl in Hfst; congruence|].
  rewrite Hfst.
  split; [|split; [exact Ho|split; [|split; [exact Hall|split; [exact Hor|exact Hdom]]]]].
  - unfold prepared_options. fold gid.
    destruct (options !! "task_id") as [t|] eqn:Ht;
      [|unfold gid, prepared_group_id; rewrite Ht; reflexivity].
    rewrite (insert_id options "task_id" gid); [reflexivity|].
    unfold gid, prepared_group_id. rewrite Ht. reflexivity.
  - destruct Hc as [D C]. split; [exact D|exact C].
Qed.

Lemma task_apply_outbox app name a kw opts w :
  ∃ r w', Task.apply app name a kw opts w = (Ok r, w') ∧
          is_Some (res_eager r) ∧
          outbox w' = outbox w ++ [Execute name a kw] ∧ heap w' = heap w.
Proof.
  unfold Task.apply. munfold.
  destruct (truthy (default VNone (opts !! "task_id"))); simpl;
    destruct (Task.registry app name a kw); simpl; eauto 10.
Qed.

Lemma group_apply_async_spec app partial_args tasks options w :
  Task.CELERY_ALWAYS_EAGER app = false →
  tasks ≠ [] →
  let gid := prepared_group_id options w in
  ∃ ms w',
    Builtins.Group.apply_async app partial_args tasks options w =
      (Ok (mkGroupResult gid ms.*2), w') ∧
    outbox w' = outbox w ++
      [Publish "celery.group"
         [VList (VRef <$> tasks); Canvas.serializable (mkGroupResult gid ms.*2);
          gid; VList partial_args]
         ∅ (prepared_options options w)] ∧
    carried (group_stamp gid) w w' ∧
    Forall2 (tagged snd (λ l b, b.1 = l) (group_stamp gid) w') tasks ms ∧
    Forall2 (origin snd (drawn w)) tasks ms ∧
    dom (heap w') = list_to_set tasks ∪ dom (heap w).
Proof.
  intros He Hne gid. unfold Builtins.Group.apply_async. rewrite He.
  destruct (prepare_spec options tasks partial_args w Hne)
    as (ms & w1 & Hp & Ho & Hc & Hall & Hor & Hdom).
  fold gid in Hp, Hc, Hall. munfold. rewrite Hp.
  destruct (task_apply_async_outbox "celery.group"
              [VList (VRef <$> tasks); Canvas.serializable (mkGroupResult gid ms.*2);
               gid; VList partial_args] ∅ (prepared_options options w) w1)
    as (r & w' & Ha & Ho' & Hh).
  rewrite Ha. exists ms, w'. split; [reflexivity|]. split; [congruence|].
  assert (Hc' : carried (group_stamp gid) w1 w') by (apply carried_same_heap, Hh).
  split; [eapply carried_trans; eauto|].
  split; [|split; [exact Hor|rewrite Hh; exact Hdom]].
  eapply Forall2_impl; [exact Hall|]. intros l b Ht.
  eapply tagged_carried; eauto.
Qed.

Lemma kept_refl w : kept w w.
Proof. split; [done|]. reflexivity. Qed.

Lemma kept_same_heap w w' : heap w' = heap w → kept w w'.
Proof. intros H. unfold kept. rewrite H. apply kept_refl. Qed.

Lemma kept_trans w1 w2 w3 : kept w1 w2 → kept w2 w3 → kept w1 w3.
Proof.
  intros [D1 H1] [D2 H2]. split; [intros x Hx; apply D2, D1, Hx|].
  intros l Hl. rewrite H2, H1; auto.
Qed.

Lemma kept_carried stamp w w' : kept w w' → carried stamp w w'.
Proof.
  intros [D H]. split; [exact D|]. intros l Hl. simpl. rewrite (H l Hl).
  repeat split; trivial.
Qed.

Lemma alloc_kept s w : kept w (snd (alloc s w)).
Proof.
  unfold alloc, set_heap; simpl. split.
  - simpl. rewrite dom_insert_L. intros x Hx. apply elem_of_union_r, Hx.
  - intros l Hl. simpl. apply lookup_total_insert_ne.
    intros <-. exact (is_fresh _ Hl).
Qed.

Lemma clone_spec l a w :
  let c := fresh (dom (heap w)) in
  Canvas.clone l a w = (Ok c, set_heap (insert c (cloned a (heap w !!! l))) w).
Proof. reflexivity. Qed.

Section CloneEach.
Context (pa : list pyval) (k : loc → M AsyncResult).
Context (ev : Signature → Event) (P : AsyncResult → Prop).
Hypothesis k_spec : ∀ c w, ∃ r w',
  k c w = (Ok r, w') ∧ P r ∧
  outbox w' = outbox w ++ [ev (heap w !!! c)] ∧ heap w' = heap w.

Lemma mapM_clone tasks : ∀ w,
  Forall (λ l, l ∈ dom (heap w)) tasks →
  ∃ rs w',
    mapM (λ task, t ← Canvas.clone task pa; k t) tasks w = (Ok rs, w') ∧
    Forall P rs ∧ length rs = length tasks ∧
    outbox w' = outbox w ++ ((λ l, ev (cloned pa (heap w !!! l))) <$> tasks) ∧
    kept w w'.
Proof.
  induction tasks as [|l tasks IH]; intros w Hdom; simpl.
  - exists [], w. rewrite app_nil_r. repeat split; auto using kept_refl.
  - apply Forall_cons in Hdom as [Hl Hdom].
    munfold. rewrite clone_spec.
    set (c := fresh (dom (heap w))).
    set (w1 := set_heap (insert c (cloned pa (heap w !!! l))) w).
    destruct (k_spec c w1) as (r & w2 & Hk & HP & Ho & Hh).
    rewrite Hk.
    assert (Hc1 : kept w w1) by apply (alloc_kept (cloned pa (heap w !!! l)) w).
    assert (Hc2 : kept w1 w2) by (apply kept_same_heap, Hh).
    assert (Hc : kept w w2) by (eapply kept_trans; eauto).
    destruct (IH w2) as (rs & w' & Hm & HPs & Hlen & Ho' & Hc').
    { eapply Forall_impl; [exact Hdom|]. intros x Hx. apply Hc, Hx. }
    rewrite Hm. exists (r :: rs), w'. split; [reflexivity|].
    split; [constructor; auto|]. split; [simpl; congruence|].
    split; [|eapply kept_trans; eauto].
    rewrite Ho', Ho. unfold w1 at 1. simpl. rewrite <- app_assoc. f_equal. simpl.
    f_equal.
    + unfold w1; simpl. rewrite lookup_total_insert_eq. reflexivity.
    + apply Forall_fmap_ext_1. eapply Forall_impl; [exact Hdom|].
      intros x Hx. simpl. f_equal. f_equal. apply Hc, Hx.
Qed.
End CloneEach.

Lemma canvas_apply_spec app o c w : ∃ r w',
  Canvas.apply app c [] o w = (Ok r, w') ∧ is_Some (res_eager r) ∧
  outbox w' = outbox w ++ [member_execute [] (heap w !!! c)] ∧ heap w' = heap w.
Proof.
  unfold Canvas.apply, deref. munfold.
  apply task_apply_outbox.
Qed.

Lemma canvas_apply_async_spec o c w : ∃ r w',
  Canvas.apply_async c [] o w = (Ok r, w') ∧ True ∧
  outbox w' = outbox w ++ [member_publish o [] (heap w !!! c)] ∧ heap w' = heap w.
Proof.
  unfold Canvas.apply_async, deref, Canvas.sig_apply_async. munfold.
  destruct (task_apply_async_outbox (task (heap w !!! c))
              (Canvas.merge_args (heap w !!! c) []) (kwargs (heap w !!! c))
              (Canvas.merge_options (heap w !!! c) o) w) as (r & w' & H & Ho & Hh).
  exists r, w'. auto.
Qed.

Lemma group_run_spec app is_eager in_worker tasks result gid pa w :
  Forall (λ l, l ∈ dom (heap w)) tasks →
  ∃ g w',
    Builtins.Group.run app is_eager in_worker tasks result gid pa w = (Ok g, w') ∧
    kept w w' ∧ gr_id g = gr_id result ∧
    if is_eager || Task.CELERY_ALWAYS_EAGER app then
      length (gr_results g) = length tasks ∧
      Forall (λ r, is_Some (res_eager r)) (gr_results g) ∧
      outbox w' = outbox w ++ ((λ l, member_execute pa (heap w !!! l)) <$> tasks)
    else
      g = result ∧
      outbox w' = outbox w ++
        ((λ l, member_publish (run_options gid) pa (heap w !!! l)) <$> tasks) ++
        (if in_worker then [AppendChild result] else []).
Proof.
  intros Hdom. unfold Builtins.Group.run.
  destruct (is_eager || Task.CELERY_ALWAYS_EAGER app).
  - destruct (mapM_clone pa _ _ _ (canvas_apply_spec app (<["group_id" := gid]> ∅))
                tasks w Hdom) as (rs & w' & Hm & HP & Hlen & Ho & Hk).
    munfold. rewrite Hm. exists (mkGroupResult (gr_id result) rs), w'.
    split; [reflexivity|]. split; [exact Hk|]. split; [reflexivity|].
    simpl. split; [exact Hlen|]. split; [exact HP|]. exact Ho.
  - destruct (mapM_clone pa _ _ _ (canvas_apply_async_spec (run_options gid))
                tasks w Hdom) as (rs & w' & Hm & HP & Hlen & Ho & Hk).
    munfold. fold (run_options gid). rewrite Hm.
    destruct in_worker; simpl.
    + eexists _, _. split; [reflexivity|]. split; [|split; [reflexivity|]].
      * eapply kept_trans; [exact Hk|]. apply kept_same_heap. reflexivity.
      * split; [reflexivity|]. simpl. rewrite Ho, <- app_assoc. reflexivity.
    + exists result, w'. split; [reflexivity|]. split; [exact Hk|].
      split; [reflexivity|]. split; [reflexivity|]. rewrite app_nil_r. exact Ho.
Qed.

Lemma tagged_in_dom {B} π Q stamp w (tasks : list loc) (bs : list B) :
  Forall2 (tagged π Q stamp w) tasks bs → Forall (λ l, l ∈ dom (heap w)) tasks.
Proof.
  induction 1 as [|l b ls bs H _ IH]; constructor; [|exact IH]. apply H.
Qed.

Lemma Forall2_tagged_carried {B} (π : B → AsyncResult) Q stamp w w' tasks bs :
  Forall2 (tagged π Q stamp w) tasks bs → carried stamp w w' →
  Forall2 (tagged π Q stamp w') tasks bs.
Proof.
  intros H Hc. eapply Forall2_impl; [exact H|]. intros l b Ht.
  eapply tagged_carried; eauto.
Qed.

Lemma group_apply_spec app args tasks options w :
  tasks ≠ [] →
  let gid := prepared_group_id options w in
  ∃ ms g w',
    Builtins.Group.apply app args tasks options w = (Ok g, w') ∧
    gr_id g = gid ∧ length (gr_results g) = length tasks ∧
    Forall (λ r, is_Some (res_eager r)) (gr_results g) ∧
    outbox w' = outbox w ++
      Execute "celery.group"
        [VList (VRef <$> tasks); Canvas.serializable (mkGroupResult gid ms.*2);
         gid; VList args] ∅
      :: ((λ l, member_execute args (heap w' !!! l)) <$> tasks) ∧
    carried (group_stamp gid) w w' ∧
    Forall2 (tagged snd (λ l b, b.1 = l) (group_stamp gid) w') tasks ms ∧
    Forall2 (origin snd (drawn w)) tasks ms.
Proof.
  intros Hne gid. unfold Builtins.Group.apply.
  destruct (prepare_spec options tasks args w Hne)
    as (ms & w1 & Hp & Ho & Hc & Hall & Hor & _).
  fold gid in Hp, Hc, Hall. munfold. rewrite Hp. simpl.
  pose proof (tagged_in_dom _ _ _ _ _ _ Hall) as Hdom.
  destruct (group_run_spec app true false tasks (mkGroupResult gid ms.*2) gid args
              (log [Execute "celery.group"
                      [VList (VRef <$> tasks);
                       Canvas.serializable (mkGroupResult gid ms.*2); gid; VList args] ∅] w1)
              Hdom)
    as (g & w' & Hr & Hk & Hid & Hlen & Heag & Ho').
  simpl in Hr. rewrite Hr. exists ms, g, w'. split; [reflexivity|].
  split; [exact Hid|]. split; [exact Hlen|]. split; [exact Heag|].
  assert (Hk1 : kept w1 w').
  { eapply kept_trans; [|exact Hk]. apply kept_same_heap. reflexivity. }
  split; [|split].
  - rewrite Ho'. simpl. rewrite Ho, <- app_assoc. simpl. f_equal. f_equal.
    apply Forall_fmap_ext_1. eapply Forall_impl; [exact Hdom|].
    intros l Hl. simpl. f_equal. symmetry. apply Hk1, Hl.
  - eapply carried_trans; [exact Hc|]. apply kept_carried, Hk1.
  - split; [|exact Hor].
    eapply Forall2_tagged_carried; [exact Hall|]. apply kept_carried, Hk1.
Qed.

Lemma carried_group_chord gid body w w' :
  carried (group_stamp gid) w w' → carried (chord_stamp gid body) w w'.
Proof.
  intros [D C]. split; [exact D|]. intros l Hl.
  destruct (C l Hl) as (a & b & c & d & e & f & g). simpl.
  repeat split; trivial.
  - intros k v Hk Hs. unfold chord_stamp in Hk.
    destruct (decide (k = "group_id")) as [->|Hne].
    + rewrite lookup_insert_eq in Hk. injection Hk as <-.
      apply (f "group_id" gid); [reflexivity|exact Hs].
    + rewrite g; [exact Hs| |].
      * intros ->. rewrite !lookup_insert_ne, lookup_empty in Hk by done.
        discriminate.
      * unfold group_stamp. rewrite lookup_insert_ne by done. apply lookup_empty.
  - intros k Hk Hs. apply g; [exact Hk|].
    unfold chord_stamp, group_stamp in *.
    destruct (decide (k = "group_id")) as [->|Hne];
      [rewrite lookup_insert_eq in Hs; discriminate|].
    rewrite lookup_insert_ne by done. apply lookup_empty.
Qed.

Lemma same_handles {B B'} (π : B → AsyncResult) (π' : B' → AsyncResult)
    Q Q' stamp stamp' w (tasks : list loc) bs bs' :
  Forall2 (tagged π Q stamp w) tasks bs →
  Forall2 (tagged π' Q' stamp' w) tasks bs' →
  π <$> bs = π' <$> bs'.
Proof.
  intros H. revert bs'. induction H as [|l b ls bs Hb _ IH]; intros bs' H'.
  - inversion H'. reflexivity.
  - inversion H' as [|? b' ? bs'' Hb' Hrest]; subst. simpl. f_equal; [|apply IH, Hrest].
    destruct Hb as (_ & _ & (tid & Ht & ->) & _).
    destruct Hb' as (_ & _ & (tid' & Ht' & ->) & _). congruence.
Qed.

Lemma chord_run_spec app header body pa interval mr propagate eager w :
  header ≠ [] →
  let gid := VStr (uuid4 (uuid_ctr w)) in
  let message rs :=
    [VList (VRef <$> header); Canvas.serializable (mkGroupResult gid rs);
     gid; VList pa] in
  ∃ rs g w',
    Builtins.Chord.run app header body pa interval mr propagate eager w = (Ok g, w') ∧
    gr_id g = gid ∧
    carried (chord_stamp gid body) w w' ∧
    Forall2 (tagged id (λ _ _, True) (chord_stamp gid body) w') header rs ∧
    Forall2 (origin id (drawn w)) header rs ∧
    if eager || Task.CELERY_ALWAYS_EAGER app then
      length (gr_results g) = length header ∧
      Forall (λ r, is_Some (res_eager r)) (gr_results g) ∧
      outbox w' = outbox w ++
        (if eager then []
         else [OnChordApply gid (VRef body) interval mr (VBool propagate) rs]) ++
        Execute "celery.group" (message rs) ∅
        :: ((λ l, member_execute pa (heap w' !!! l)) <$> header)
    else
      g = mkGroupResult gid rs ∧
      dom (heap w') = list_to_set header ∪ dom (heap w) ∧
      outbox w' = outbox w ++
        [OnChordApply gid (VRef body) interval mr (VBool propagate) rs;
         Publish "celery.group" (message rs) ∅
           (prepared_options (header_options gid) w)]. 
Proof.
  intros Hne gid message. unfold Builtins.Chord.run, uuid. munfold. simpl.
  fold gid. fold (header_options gid).
  fold (drawn w).
  destruct (mapM_tag id (λ _ _, True) (chord_stamp gid body)
              (Builtins.Chord.tag_member gid body) (chord_stamp_no_tid gid body)
              (tag_member_spec gid body) header (drawn w))
    as (rs & w1 & Hm & Ho1 & Hc1 & Hall1).
  destruct (mapM_tag_origin id (λ _ _, True) (chord_stamp gid body)
              (Builtins.Chord.tag_member gid body) (chord_stamp_no_tid gid body)
              (tag_member_spec gid body) header (drawn w) rs w1 Hm)
    as (Hor1 & _ & Hdom1).
  rewrite Hm.
  assert (Hc01 : carried (chord_stamp gid body) w w1).
  { destruct Hc1 as [D C]. split; [exact D|exact C]. }
  assert (Hids : ∀ ms w', Forall2 (tagged snd (λ l b, b.1 = l) (group_stamp gid) w') header ms →
                   carried (group_stamp gid) w1 w' → ms.*2 = id <$> rs).
  { intros ms w' Hms Hc. eapply same_handles; [exact Hms|].
    eapply Forall2_tagged_carried; [exact Hall1|]. apply carried_group_chord, Hc. }
  destruct eager; simpl.
  - destruct (group_apply_spec app pa header (header_options gid) w1 Hne)
      as (ms & g & w' & Ha & Hid & Hlen & Heag & Ho & Hc & Hall & _).
    rewrite Ha. exists rs, g, w'. split; [reflexivity|]. split; [exact Hid|].
    split; [eapply carried_trans; [exact Hc01|apply carried_group_chord, Hc]|].
    split; [eapply Forall2_tagged_carried; [exact Hall1|apply carried_group_chord, Hc]|].
    split; [exact Hor1|].
    split; [exact Hlen|]. split; [exact Heag|].
    rewrite Ho, Ho1. unfold message. rewrite (Hids ms w' Hall Hc), list_fmap_id.
    reflexivity.
  - set (w1' := log [OnChordApply gid (VRef body) interval mr (VBool propagate) rs] w1).
    assert (Hk : carried (group_stamp gid) w1 w1') by (apply carried_same_heap; reflexivity).
    unfold Builtins.Group.apply_async.
    destruct (Task.CELERY_ALWAYS_EAGER app) eqn:He.
    + destruct (group_apply_spec app pa header (header_options gid) w1' Hne)
        as (ms & g & w' & Ha & Hid & Hlen & Heag & Ho & Hc & Hall & _).
      assert (Hc' : carried (group_stamp gid) w1 w')
        by (eapply carried_trans; [exact Hk|exact Hc]).
      rewrite Ha. exists rs, g, w'. split; [reflexivity|]. split; [exact Hid|].
      split; [eapply carried_trans; [exact Hc01|apply carried_group_chord, Hc']|].
      split; [eapply Forall2_tagged_carried; [exact Hall1|apply carried_group_chord, Hc']|].
      split; [exact Hor1|].
      split; [exact Hlen|]. split; [exact Heag|].
      rewrite Ho. unfold w1'; simpl. rewrite Ho1. unfold message.
      rewrite (Hids ms w' Hall Hc'), list_fmap_id, <- app_assoc. reflexivity.
    + pose proof (group_apply_async_spec app pa header (header_options gid) w1' He Hne)
        as (ms & w' & Ha & Ho & Hc & Hall & _ & Hdom).
      unfold Builtins.Group.apply_async in Ha. rewrite He in Ha.
        assert (Hc' : carried (group_stamp gid) w1 w')
        by (eapply carried_trans; [exact Hk|exact Hc]).
      rewrite Ha. exists rs, (mkGroupResult gid ms.*2), w'.
      split; [reflexivity|]. split; [reflexivity|].
      split; [eapply carried_trans; [exact Hc01|apply carried_group_chord, Hc']|].
      split; [eapply Forall2_tagged_carried; [exact Hall1|apply carried_group_chord, Hc']|].
      split; [exact Hor1|].
      rewrite (Hids ms w' Hall Hc'), list_fmap_id in *.
      split; [reflexivity|]. split.
      { rewrite Hdom. unfold w1'; simpl. rewrite Hdom1. simpl.
        rewrite (assoc_L (∪)), union_idemp_L. reflexivity. }
      rewrite Ho. unfold w1'; simpl. rewrite Ho1, <- app_assoc. reflexivity.
Qed.

Lemma last_item_Some {A} (xs : list A) x w :
  last xs = Some x → Chain.last_item xs w = (Ok x, w).
Proof. unfold Chain.last_item. intros ->. reflexivity. Qed.

Lemma with_options_id s : with_options (λ o, o) s = s.
Proof. destruct s; reflexivity. Qed.

Lemma set_option_spec l k v w :
  set_option l k v w = (Ok tt, set_heap (insert l (with_options (insert k v) (heap w !!! l))) w).
Proof. reflexivity. Qed.

Lemma tid_kept_refl w : tid_kept w w.
Proof. split; [done|]. reflexivity. Qed.

Lemma tid_kept_trans w1 w2 w3 : tid_kept w1 w2 → tid_kept w2 w3 → tid_kept w1 w3.
Proof.
  intros [D1 H1] [D2 H2]. split; [intros x Hx; apply D2, D1, Hx|].
  intros l Hl. rewrite H2, H1; auto.
Qed.

Lemma kept_tid_kept w w' : kept w w' → tid_kept w w'.
Proof. intros [D H]. split; [exact D|]. intros l Hl. rewrite (H l Hl). reflexivity. Qed.

Lemma set_option_tid_kept l k v w :
  k ≠ "task_id" → tid_kept w (snd (set_option l k v w)).
Proof.
  intros Hk. rewrite set_option_spec. unfold set_heap; simpl. split; simpl.
  - rewrite dom_insert_L. intros x Hx. apply elem_of_union_r, Hx.
  - intros l' Hl'. destruct (decide (l = l')) as [<-|Hne].
    + rewrite lookup_total_insert_eq. simpl. apply lookup_insert_ne. congruence.
    + rewrite lookup_total_insert_ne by done. reflexivity.
Qed.

Lemma step_handle_kept w w' t r : step_handle w t r → tid_kept w w' → step_handle w' t r.
Proof. intros [Hd Ht] [D H]. split; [apply D, Hd|]. rewrite (H t Hd). exact Ht. Qed.

Lemma begin_step_spec args i step w : ∃ task tid res w',
  Chain.begin_step args i step w = (Ok (task, tid, res), w') ∧
  outbox w' = outbox w ∧ kept w w' ∧ res_id res = tid ∧ step_handle w' task res.
Proof.
  unfold Chain.begin_step, Canvas.maybe_subtask, get_option, deref, uuid.
  munfold.
  set (a := match i with 0 => args | S _ => [] end).
  assert (Hc : (match i with
                | 0 => Canvas.clone step args
                | S _ => Canvas.clone step []
                end) w = Canvas.clone step a w) by (destruct i; reflexivity).
  rewrite Hc, clone_spec.
  set (c := fresh (dom (heap w))).
  set (w1 := set_heap (insert c (cloned a (heap w !!! step))) w).
  assert (Hk1 : kept w w1) by apply (alloc_kept (cloned a (heap w !!! step)) w).
  assert (Hin : c ∈ dom (heap w1)).
  { unfold w1, set_heap; simpl. rewrite dom_insert_L. apply elem_of_union_l, elem_of_singleton.
    reflexivity. }
  destruct (options (heap w1 !!! c) !! "task_id") as [t|] eqn:Ht; simpl.
  - destruct (is_none t) eqn:En.
    + unfold set_heap; simpl. eexists _, _, _, _. split; [reflexivity|].
      split; [reflexivity|]. split; [|split; [reflexivity|]].
      * destruct Hk1 as [D H]. split.
        -- simpl. rewrite dom_insert_L. intros x Hx. apply elem_of_union_r, D, Hx.
        -- intros l Hl. simpl. rewrite lookup_total_insert_ne; [apply H, Hl|].
           intros <-. exact (is_fresh _ Hl).
      * split; simpl.
        -- rewrite dom_insert_L. apply elem_of_union_l, elem_of_singleton. reflexivity.
        -- rewrite lookup_total_insert_eq. simpl. apply lookup_insert_eq.
    + exists c, t, (Result.AsyncResult t), w1. split; [reflexivity|].
      split; [reflexivity|]. split; [exact Hk1|]. split; [reflexivity|].
      split; [exact Hin|exact Ht].
  - unfold set_heap; simpl. eexists _, _, _, _. split; [reflexivity|].
    split; [reflexivity|]. split; [|split; [reflexivity|]].
    * destruct Hk1 as [D H]. split.
      -- simpl. rewrite dom_insert_L. intros x Hx. apply elem_of_union_r, D, Hx.
      -- intros l Hl. simpl. rewrite lookup_total_insert_ne; [apply H, Hl|].
         intros <-. exact (is_fresh _ Hl).
    * split; simpl.
      -- rewrite dom_insert_L. apply elem_of_union_l, elem_of_singleton. reflexivity.
      -- rewrite lookup_total_insert_eq. simpl. apply lookup_insert_eq.
Qed.

Lemma link_spec pt c w : ∃ v,
  Canvas.link pt c w = set_option pt "link" v w.
Proof. unfold Canvas.link, deref. munfold. eauto. Qed.

Lemma end_step_spec task tid res ns prev w :
  step_handle w task res → res_id res = tid →
  ∃ task' res' w',
    Chain.end_step task tid res ns prev w = (Ok (task', res'), w') ∧
    outbox w' = outbox w ∧ tid_kept w w' ∧ step_handle w' task' res'.
Proof.
  intros Hs Hid. unfold Chain.end_step. unfold mbind, M_bind.
  assert (H1 : ∃ t1 w1,
    (match ns with
     | Some body => Canvas.new_chord task body tid
     | None => mret task
     end) w = (Ok t1, w1) ∧ outbox w1 = outbox w ∧ tid_kept w w1 ∧ step_handle w1 t1 res).
  { destruct ns as [body|].
    - unfold Canvas.new_chord.
      set (s := mkSignature _ _ _ _ _).
      exists (fresh (dom (heap w))), (snd (alloc s w)).
      split; [reflexivity|]. split; [reflexivity|].
      split; [apply kept_tid_kept, alloc_kept|].
      unfold alloc, set_heap; simpl. split; simpl.
      + rewrite dom_insert_L. apply elem_of_union_l, elem_of_singleton. reflexivity.
      + rewrite lookup_total_insert_eq. simpl. rewrite Hid. apply lookup_insert_eq.
    - exists task, w. split; [reflexivity|]. split; [reflexivity|].
      split; [apply tid_kept_refl|exact Hs]. }
  destruct H1 as (t1 & w1 & -> & Ho1 & Hk1 & Hs1).
  destruct prev as [[pt pr]|]; unfold mbind, M_bind.
  - destruct (link_spec pt t1 w1) as [v Hl]. rewrite Hl, set_option_spec.
    pose proof (set_option_tid_kept pt "link" v w1 ltac:(done)) as Hk2.
    rewrite set_option_spec in Hk2. simpl in Hk2.
    eexists _, _, _. split; [reflexivity|]. split; [exact Ho1|].
    split; [eapply tid_kept_trans; eauto|].
    eapply (step_handle_kept w1); [|exact Hk2]. exact Hs1.
  - exists t1, res, w1. auto.
Qed.

Lemma prepare_loop_spec args n : ∀ steps i ns prev tasks results w,
  length steps ≤ n →
  Forall2 (step_handle w) tasks results →
  ∃ ts rs w',
    Chain.prepare_loop args steps i ns prev tasks results w =
      (Ok (tasks ++ ts, results ++ rs), w') ∧
    (steps ≠ [] → ts ≠ []) ∧ outbox w' = outbox w ∧
    Forall2 (step_handle w') (tasks ++ ts) (results ++ rs).
Proof.
  induction n as [|n IH]; intros steps i ns prev tasks results w Hn Hinv.
  - destruct steps; [|simpl in Hn; lia]. exists [], [], w. simpl.
    rewrite !app_nil_r. split; [reflexivity|]. split; [congruence|].
    split; [reflexivity|exact Hinv].
  - destruct steps as [|step steps].
    { exists [], [], w. simpl. rewrite !app_nil_r. split; [reflexivity|].
      split; [congruence|]. split; [reflexivity|exact Hinv]. }
    simpl in Hn. simpl. munfold.
    destruct (begin_step_spec args i step w)
      as (task & tid & res & w1 & Hb & Ho1 & Hk1 & Hid & Hs1).
    rewrite Hb. unfold deref.
    assert (Hgo : ∀ ns' rest, length rest ≤ n →
      ∃ ts rs w',
        (let (o, w') := Chain.end_step task tid res ns' prev w1 in
         match o with
         | Ok a => (let '(task0, res0) := a in
                    Chain.prepare_loop args rest (S i) ns' (Some (task0, res0))
                      (tasks ++ [task0]) (results ++ [res0])) w'
         | Raise e => (Raise e, w')
         end) = (Ok (tasks ++ ts, results ++ rs), w') ∧
        ts ≠ [] ∧ outbox w' = outbox w ∧
        Forall2 (step_handle w') (tasks ++ ts) (results ++ rs)).
    { intros ns' rest Hr.
      destruct (end_step_spec task tid res ns' prev w1 Hs1 Hid)
        as (t' & r' & w2 & He & Ho2 & Hk2 & Hs2).
      rewrite He.
      assert (Hinv2 : Forall2 (step_handle w2) (tasks ++ [t']) (results ++ [r'])).
      { apply Forall2_app; [|constructor; [exact Hs2|constructor]].
        eapply Forall2_impl; [exact Hinv|]. intros t r H.
        eapply step_handle_kept; [exact H|].
        eapply tid_kept_trans; [apply kept_tid_kept, Hk1|exact Hk2]. }
      destruct (IH rest (S i) ns' (Some (t', r')) (tasks ++ [t']) (results ++ [r']) w2
                  Hr Hinv2) as (ts & rs & w' & Hl & _ & Ho3 & Hinv3).
      exists (t' :: ts), (r' :: rs), w'. rewrite Hl, <- !app_assoc. simpl.
      split; [reflexivity|]. split; [congruence|]. split; [congruence|].
      rewrite <- !app_assoc in Hinv3. exact Hinv3. }
    destruct (is_group (subtask_type (heap w1 !!! task))).
    + destruct steps as [|body steps'].
      * destruct (Hgo None [] ltac:(simpl; lia)) as (ts & rs & w' & H & Hne & Ho & Hi).
        exists ts, rs, w'. auto.
      * destruct (Hgo (Some body) steps' ltac:(simpl in Hn; lia))
          as (ts & rs & w' & H & Hne & Ho & Hi).
        exists ts, rs, w'. auto.
    + destruct (Hgo ns steps ltac:(lia)) as (ts & rs & w' & H & Hne & Ho & Hi).
      exists ts, rs, w'. auto.
Qed.

Lemma prepare_steps_spec args tasks w : ∃ ts rs w',
  Chain.prepare_steps args tasks w = (Ok (ts, rs), w') ∧
  (tasks ≠ [] → ts ≠ []) ∧ outbox w' = outbox w ∧
  Forall2 (step_handle w') ts rs.
Proof.
  destruct (prepare_loop_spec args (length tasks) tasks 0 None None [] [] w (le_n _)
              (Forall2_nil_2 _ _ _))
    as (ts & rs & w' & H). exists ts, rs, w'. exact H.
Qed.

Lemma Forall2_last {A B} (P : A → B → Prop) xs ys x :
  Forall2 P xs ys → last xs = Some x → ∃ y, last ys = Some y ∧ P x y.
Proof.
  induction 1 as [|a b xs ys Hab Hrest IH]; [discriminate|].
  destruct Hrest as [|a' b' xs' ys' Hab' Hrest'].
  - simpl. intros [= <-]. eauto.
  - intros Hl. apply IH. exact Hl.
Qed.

Lemma chain_apply_async_spec app args tasks group_id chord task_id options w :
  Task.CELERY_ALWAYS_EAGER app = false →
  tasks ≠ [] →
  ∃ ts rs w1 t_first t_last r_last r w',
    Chain.prepare_steps args tasks w = (Ok (ts, rs), w1) ∧
    head ts = Some t_first ∧ last ts = Some t_last ∧ last rs = Some r_last ∧
    Chain.apply_async app args tasks group_id chord task_id options w = (Ok (Some r), w') ∧
    r = (if truthy task_id then Result.AsyncResult task_id else r_last) ∧
    heap w' !!! t_last =
      with_options (overrides group_id chord task_id) (heap w1 !!! t_last) ∧
    (∀ l, l ≠ t_last → heap w' !!! l = heap w1 !!! l) ∧
    Py.options (heap w' !!! t_last) !! "task_id" = Some (res_id r) ∧
    outbox w' = outbox w ++ [member_publish ∅ [] (heap w' !!! t_first)].
Proof.
  intros He Hne.
  destruct (prepare_steps_spec args tasks w) as (ts & rs & w1 & Hp & Hts & Ho & Hinv).
  specialize (Hts Hne).
  destruct (last ts) as [t_last|] eqn:Hlt; [|apply last_None in Hlt; congruence].
  destruct (Forall2_last _ _ _ _ Hinv Hlt) as (r_last & Hlr & _ & Htid).
  destruct ts as [|t_first ts']; [congruence|].
  set (ts := t_first :: ts') in *.
  assert (Hset : ∀ (v : pyval) k (wa : World),
    (if truthy v then t ← Chain.last_item ts; Canvas.set t k v else mret ()) wa =
    (Ok tt, set_heap (λ h, if truthy v
                           then <[t_last := with_options (insert k v) (h !!! t_last)]> h
                           else h) wa)).
  { intros v k wa. destruct (truthy v); munfold.
    - rewrite (last_item_Some ts t_last wa Hlt). reflexivity.
    - destruct wa; reflexivity. }
  set (w2 := set_heap (λ h, if truthy group_id
                 then <[t_last := with_options (insert "group_id" group_id) (h !!! t_last)]> h
                 else h) w1).
  set (w3 := set_heap (λ h, if truthy chord
                 then <[t_last := with_options (insert "chord" chord) (h !!! t_last)]> h
                 else h) w2).
  set (w4 := set_heap (λ h, if truthy task_id
                 then <[t_last := with_options (insert "task_id" task_id) (h !!! t_last)]> h
                 else h) w3).
  destruct (canvas_apply_async_spec ∅ t_first w4) as (r0 & w' & Ha & _ & Ho' & Hh).
  exists ts, rs, w1, t_first, t_last, r_last,
    (if truthy task_id then Result.AsyncResult task_id else r_last), w'.
  split; [exact Hp|]. split; [reflexivity|]. split; [exact Hlt|]. split; [exact Hlr|].
  assert (Hrun : Chain.apply_async app args tasks group_id chord task_id options w =
                 (Ok (Some (if truthy task_id then Result.AsyncResult task_id else r_last)), w')).
  { unfold Chain.apply_async. rewrite He. munfold. rewrite Hp.
    rewrite (last_item_Some rs r_last w1 Hlr).
    rewrite (Hset group_id "group_id" w1). fold w2.
    rewrite (Hset chord "chord" w2). fold w3.
    pose proof (Hset task_id "task_id" w3) as H3. fold w4 in H3.
    destruct (truthy task_id) eqn:Et; munfold.
    - rewrite (last_item_Some ts t_last w3 Hlt).
      unfold Canvas.set. rewrite set_option_spec.
      replace (set_heap _ w3) with w4 by (unfold w4; rewrite ?Et; reflexivity).
      unfold Chain.first_item. subst ts. cbv beta iota. munfold. rewrite Ha.
      reflexivity.
    - replace w3 with w4 by (unfold w4; rewrite ?Et; destruct w3; reflexivity).
      unfold Chain.first_item. subst ts. cbv beta iota. munfold. rewrite Ha.
      reflexivity. }
  split; [exact Hrun|]. split; [reflexivity|].
  rewrite Hh. split; [|split; [|split]].
  - unfold w4, w3, w2, overrides, set_if; simpl.
    destruct (truthy group_id), (truthy chord), (truthy task_id);
      rewrite ?lookup_total_insert_eq; unfold with_options; simpl;
      try reflexivity; destruct (heap w1 !!! t_last); reflexivity.
  - intros l Hl. unfold w4, w3, w2; simpl.
    destruct (truthy group_id), (truthy chord), (truthy task_id);
      rewrite ?lookup_total_insert_ne by done; reflexivity.
  - unfold w4, w3, w2; simpl.
    destruct (truthy group_id), (truthy chord), (truthy task_id);
      rewrite ?lookup_total_insert_eq; simpl; lookups; try reflexivity; exact Htid.
  - rewrite Ho'. f_equal. unfold w4, w3, w2. simpl. exact Ho.
Qed.

Lemma task_apply_async_spec name a kw opts w :
  ∃ w', Task.apply_async name a kw opts w =
          (Ok (Result.AsyncResult (submitted_id opts w)), w') ∧
        outbox w' = outbox w ++ [Publish name a kw opts] ∧ heap w' = heap w.
Proof.
  unfold Task.apply_async, submitted_id. munfold.
  destruct (truthy (default VNone (opts !! "task_id"))); simpl; eauto.
Qed.

Lemma chord_apply_async_spec app args header body task_id options w :
  Task.CELERY_ALWAYS_EAGER app = false →
  let group_id := default VNone (options !! "group_id") in
  let chord := default VNone (delete "group_id" options !! "chord") in
  let o1 := set_if chord "chord"
              (set_if group_id "group_id" (Py.options (heap w !!! body))) in
  let d := if truthy task_id then task_id else VStr (uuid4 (uuid_ctr w)) in
  let callback_id := default d (o1 !! "task_id") in
  let options' := delete "chord" (delete "group_id" options) in
  ∃ parent w',
    Chord.apply_async app args header body task_id options w =
      (Ok (mkAsyncResult callback_id None (Some parent)), w') ∧
    (∃ w0, parent = Result.AsyncResult (submitted_id options' w0)) ∧
    heap w' !!! body =
      with_options (λ _, <["task_id" := callback_id]> o1) (heap w !!! body) ∧
    (∀ l, l ≠ body → heap w' !!! l = heap w !!! l) ∧
    outbox w' = outbox w ++
      [Publish "celery.chord" [VList (VRef <$> header); VRef body; VList args]
         ∅ options'].
Proof.
  intros He group_id chord o1 d callback_id options'.
  unfold Chord.apply_async. rewrite He. fold group_id. fold chord. fold options'.
  unfold Canvas.maybe_subtask, Canvas.set. munfold.
  set (w1 := if truthy group_id
             then set_heap (insert body (with_options (insert "group_id" group_id)
                                           (heap w !!! body))) w else w).
  assert (H1 : (if truthy group_id then set_option body "group_id" group_id
                else λ w, (Ok (), w)) w = (Ok tt, w1)).
  { unfold w1. destruct (truthy group_id); reflexivity. }
  rewrite H1.
  set (w2 := if truthy chord
             then set_heap (insert body (with_options (insert "chord" chord)
                                           (heap w1 !!! body))) w1 else w1).
  assert (H2 : (if truthy chord then set_option body "chord" chord
                else λ w, (Ok (), w)) w1 = (Ok tt, w2)).
  { unfold w2. destruct (truthy chord); reflexivity. }
  rewrite H2.
  assert (Hb2 : heap w2 !!! body = with_options (λ _, o1) (heap w !!! body)).
  { unfold w2, w1, o1, set_if.
    destruct (truthy group_id), (truthy chord); unfold set_heap; simpl;
      rewrite ?lookup_total_insert_eq; unfold with_options; simpl; try reflexivity.
    destruct (heap w !!! body); reflexivity. }
  assert (Hn2 : ∀ l, l ≠ body → heap w2 !!! l = heap w !!! l).
  { intros l Hl. unfold w2, w1.
    destruct (truthy group_id), (truthy chord); unfold set_heap; simpl;
      rewrite ?lookup_total_insert_ne by done; reflexivity. }
  assert (Ho2 : outbox w2 = outbox w).
  { unfold w2, w1. destruct (truthy group_id), (truthy chord); reflexivity. }
  assert (Hu2 : uuid_ctr w2 = uuid_ctr w).
  { unfold w2, w1. destruct (truthy group_id), (truthy chord); reflexivity. }
  set (w3 := if truthy task_id then w2
             else mkWorld (heap w2) (S (uuid_ctr w2)) (outbox w2)).
  assert (H3 : (if truthy task_id return M pyval
                then λ w, (Ok task_id, w) else uuid) w2 = (Ok d, w3)).
  { unfold w3, d, uuid. destruct (truthy task_id); [reflexivity|].
    cbv beta. rewrite Hu2. reflexivity. }
  rewrite H3. unfold deref.
  assert (Hh3 : heap w3 = heap w2) by (unfold w3; destruct (truthy task_id); reflexivity).
  assert (Ho3 : outbox w3 = outbox w2) by (unfold w3; destruct (truthy task_id); reflexivity).
  rewrite Hh3, Hb2.
  change (Py.options (with_options (λ _ : gmap string pyval, o1) (heap w !!! body)))
    with o1.
  unfold callback_id.
  destruct (o1 !! "task_id") as [t|] eqn:Ht; cbv beta iota; unfold default.
  - destruct (task_apply_async_spec "celery.chord"
                [VList (VRef <$> header); VRef body; VList args] ∅ options' w3)
      as (w' & Ha & Ho' & Hh').
    rewrite Ha. eexists _, w'. split; [reflexivity|]. split; [eauto|].
    rewrite Hh', Hh3. split; [|split].
    + rewrite Hb2. unfold with_options; simpl. f_equal.
      symmetry. apply insert_id. exact Ht.
    + exact Hn2.
    + rewrite Ho', Ho3, Ho2. reflexivity.
  - rewrite set_option_spec.
    destruct (task_apply_async_spec "celery.chord"
                [VList (VRef <$> header); VRef body; VList args] ∅ options'
                (set_heap (insert body (with_options (insert "task_id" d)
                                          (heap w3 !!! body))) w3))
      as (w' & Ha & Ho' & Hh').
    rewrite Ha. eexists _, w'. split; [reflexivity|]. split; [eauto|].
    rewrite Hh'. unfold set_heap; simpl. rewrite Hh3. split; [|split].
    + rewrite lookup_total_insert_eq, Hb2. reflexivity.
    + intros l Hl. rewrite lookup_total_insert_ne by done. apply Hn2, Hl.
    + rewrite Ho'. simpl. rewrite Ho3, Ho2. reflexivity.
Qed.

Lemma join_outcome_values be rs propagate vs :
  join_outcome be rs propagate = Ok vs → vs = values be rs.
Proof.
  unfold join_outcome.
  destruct (if propagate then first_failure be rs else None); intros [=]; congruence.
Qed.

Lemma first_failure_exists be ids gid :
  (∃ id, id ∈ ids ∧ status (Result.get_task_meta be id) = FAILURE) →
  ∃ e, first_failure be (gr_results (header_of gid ids)) = Some e.
Proof.
  intros (id & Hin & Hst). unfold first_failure.
  destruct (find is_failure (Result.meta_of be <$> gr_results (header_of gid ids)))
    as [m|] eqn:Hf; [simpl; eauto|].
  exfalso.
  pose proof (List.find_none _ _ Hf (Result.get_task_meta be id)) as Hn.
  unfold is_failure in Hn. rewrite Hst in Hn. 
  assert (Hi : In (Result.get_task_meta be id)
                 (Result.meta_of be <$> gr_results (header_of gid ids))).
  { apply list_elem_of_In. simpl. rewrite <- list_fmap_compose.
    apply list_elem_of_fmap. exists id. split; [reflexivity|exact Hin]. }
  specialize (Hn Hi). discriminate.
Qed.

Lemma values_lookup be gid ids i id :
  ids !! i = Some id →
  values be (gr_results (header_of gid ids)) !! i = Some (result (Result.get_task_meta be id)).
Proof.
  intros Hi. unfold values, header_of; simpl.
  rewrite <- list_fmap_compose, list_lookup_fmap, Hi. reflexivity.
Qed.

Lemma values_length be gid ids :
  length (values be (gr_results (header_of gid ids))) = length ids.
Proof. unfold values, header_of; simpl. rewrite !length_fmap. reflexivity. Qed.

Lemma Forall2_conj {A B} (P Q : A → B → Prop) xs ys :
  Forall2 P xs ys → Forall2 Q xs ys → Forall2 (λ x y, P x y ∧ Q x y) xs ys.
Proof.
  intros HP. induction HP as [|x y xs ys Hxy _ IH]; intros HQ; inversion HQ; subst;
    constructor; auto.
Qed.

Lemma registration_member_execute pa (h : gmap loc Signature) (ls : list loc) :
  forallb (λ e, negb (is_registration e))
    ((λ l, member_execute pa (h !!! l)) <$> ls) = true.
Proof. induction ls as [|l ls IH]; simpl; auto. Qed.

Lemma publishes_member_execute pa (h : gmap loc Signature) (ls : list loc) :
  publishes ((λ l, member_execute pa (h !!! l)) <$> ls) = [].
Proof. induction ls as [|l ls IH]; simpl; auto. Qed.

Lemma tagged_member {B} (π : B → AsyncResult) Q stamp w (tasks : list loc) (bs : list B) l :
  Forall2 (tagged π Q stamp w) tasks bs → l ∈ tasks → ∃ b, tagged π Q stamp w l b.
Proof.
  intros H Hl. apply list_elem_of_lookup in Hl as [i Hi].
  destruct (Forall2_lookup_l _ _ _ _ _ H Hi) as (b & _ & Hb). eauto.
Qed.

Lemma group_apply_async_members app partial_args tasks options w :
  tasks ≠ [] →
  let gid := prepared_group_id options w in
  let w' := snd (Group.apply_async app partial_args tasks options w) in
  carried (group_stamp gid) w w' ∧
  (∃ ms, Forall2 (tagged snd (λ l b, b.1 = l) (group_stamp gid) w') tasks ms) ∧
  (Task.CELERY_ALWAYS_EAGER app = false →
     dom (heap w') = list_to_set tasks ∪ dom (heap w)).
Proof.
  intros Hne gid w'. destruct (Task.CELERY_ALWAYS_EAGER app) eqn:He.
  - destruct (group_apply_spec app partial_args tasks options w Hne)
      as (ms & g & w1 & Ha & _ & _ & _ & _ & Hc & Hall & _).
    assert (w' = w1) as ->.
    { unfold w', Group.apply_async. rewrite He, Ha. reflexivity. }
    split; [exact Hc|]. split; [eauto|discriminate].
  - destruct (group_apply_async_spec app partial_args tasks options w He Hne)
      as (ms & w1 & Ha & _ & Hc & Hall & _ & Hdom).
    assert (w' = w1) as -> by (unfold w'; rewrite Ha; reflexivity).
    split; [exact Hc|]. split; [eauto|]. intros _. exact Hdom.
Qed.

Lemma chord_run_members app header body pa interval mr propagate eager w :
  header ≠ [] →
  let gid := VStr (uuid4 (uuid_ctr w)) in
  let w' := snd (Chord.run app header body pa interval mr propagate eager w) in
  carried (chord_stamp gid body) w w' ∧
  (∃ rs, Forall2 (tagged id (λ _ _, True) (chord_stamp gid body) w') header rs) ∧
  (eager = false → Task.CELERY_ALWAYS_EAGER app = false →
     dom (heap w') = list_to_set header ∪ dom (heap w)).
Proof.
  intros Hne gid w'.
  destruct (chord_run_spec app header body pa interval mr propagate eager w Hne)
    as (rs & g & w1 & Hrun & _ & Hc & Hall & _ & Hmode).
  assert (w' = w1) as -> by (unfold w'; rewrite Hrun; reflexivity).
  split; [exact Hc|]. split; [eauto|]. intros -> He. rewrite He in Hmode.
  simpl in Hmode. apply Hmode.
Qed.

Lemma published_ids_members gid pa (h : gmap loc Signature) tasks (rs : list AsyncResult) :
  Forall2 (λ l r, options (h !!! l) !! "task_id" = Some (res_id r)) tasks rs →
  published_ids ((λ l, member_publish (run_options gid) pa (h !!! l)) <$> tasks)
    = res_id <$> rs.
Proof.
  induction 1 as [|l r ls rs Hlr _ IH]; [reflexivity|].
  simpl. unfold published_ids in *. simpl.
  rewrite lookup_union_r by reflexivity. rewrite Hlr. simpl. f_equal. exact IH.
Qed.

(** A group with at least one member, on an app that is not eager: the
    group id is the caller's [task_id] option or a new uuid; every member
    carries it and a task id, its own or a new one; the result is built
    before the one submission and has one child per member, in order,
    with the member's task id; and the worker then submits the members
    in that order under those ids. *)
Lemma Group_apply_async_members app partial_args tasks options w :
  Task.CELERY_ALWAYS_EAGER app = false →
  tasks ≠ [] →
  let group_id := prepared_group_id options w in
  ∃ result w',
    Group.apply_async app partial_args tasks options w = (Ok result, w') ∧
    gr_id result = group_id ∧
    length (gr_results result) = length tasks ∧
    Forall2 (λ l r,
      let o := Py.options (heap w' !!! l) in
      (o !! "task_id" = Some (res_id r) ∧ r = Result.AsyncResult (res_id r) ∧
       o !! "group_id" = Some group_id) ∧
      ∃ n, uuid_ctr w < n ∧
        res_id r = default (VStr (uuid4 n)) (Py.options (heap w !!! l) !! "task_id"))
      tasks (gr_results result) ∧
    outbox w' = outbox w ++
      [Publish "celery.group"
         [VList (VRef <$> tasks); Canvas.serializable result; group_id;
          VList partial_args] ∅ (prepared_options options w)] ∧
    ∀ in_worker, ∃ w'' evs,
      Group.run app false in_worker tasks result group_id partial_args w'
        = (Ok result, w'') ∧
      outbox w'' = outbox w' ++ evs ∧
      published_ids evs = res_id <$> gr_results result.
Proof.
  intros He Hne group_id.
  destruct (group_apply_async_spec app partial_args tasks options w He Hne)
    as (ms & w' & Ha & Ho & Hc & Hall & Hor & Hdom).
  fold group_id in Ha, Ho, Hc, Hall.
  assert (Hmem : Forall2 (λ l r,
      let o := Py.options (heap w' !!! l) in
      (o !! "task_id" = Some (res_id r) ∧ r = Result.AsyncResult (res_id r) ∧
       o !! "group_id" = Some group_id) ∧
      ∃ n, uuid_ctr w < n ∧
        res_id r = default (VStr (uuid4 n)) (Py.options (heap w !!! l) !! "task_id"))
      tasks ms.*2).
  { apply Forall2_fmap_r. apply Forall2_conj.
    - eapply Forall2_impl; [exact Hall|].
      intros l m (_ & _ & (tid & Ht & Hr) & Hs). rewrite Hr. simpl.
      split; [exact Ht|]. split; [reflexivity|]. apply Hs. reflexivity.
    - eapply Forall2_impl; [exact Hor|].
      intros l m (n & Hn & Hr). simpl in Hn. rewrite Hr. exists n.
      split; [lia|reflexivity]. }
  exists (mkGroupResult group_id ms.*2), w'. split; [exact Ha|].
  split; [reflexivity|]. split.
  { simpl. symmetry. eapply Forall2_length, Hmem. }
  split; [exact Hmem|]. split; [exact Ho|].
  intros in_worker.
  destruct (group_run_spec app false in_worker tasks (mkGroupResult group_id ms.*2)
              group_id partial_args w' (tagged_in_dom _ _ _ _ _ _ Hall))
    as (g & w'' & Hr & _ & _ & Hmode).
  rewrite He in Hmode. simpl in Hmode. destruct Hmode as [-> Hev].
  eexists w'', _. split; [exact Hr|]. split; [exact Hev|].
  unfold published_ids. rewrite omap_app.
  fold (published_ids ((λ l, member_publish (run_options group_id) partial_args
                               (heap w' !!! l)) <$> tasks)).
  rewrite (published_ids_members group_id partial_args (heap w') tasks ms.*2).
  - destruct in_worker; simpl; apply app_nil_r.
  - eapply Forall2_impl; [exact Hmem|]. intros l r [[H _] _]. exact H.
Qed.

Lemma Chain_apply_args_unused app args tasks options w :
  Chain.apply app args tasks options w = Chain.apply app [] tasks ∅ w.
Proof. reflexivity. Qed.

Lemma prepare_steps_group_then_body args g c w :
  subtask_type (heap w !!! g) = kind_group →
  ∃ h t tid w',
    Chain.prepare_steps args [g; c] w = (Ok ([t], [Result.AsyncResult tid]), w') ∧
    heap w' !!! t = chord_signature h c tid ∧
    h ≠ t ∧
    heap w' !!! h =
      with_options (λ o, if is_none (default VNone (o !! "task_id"))
                         then <["task_id" := tid]> o else o)
        (cloned args (heap w !!! g)) ∧
    Py.options (heap w' !!! h) !! "task_id" = Some tid.
Proof.
  intros Hg.
  destruct (begin_step_spec args 0 g w) as (h & tid & res & w1 & Hb & Ho & Hk & Hid & Hs).
  unfold Chain.prepare_steps. simpl. munfold. 
  unfold Chain.begin_step, Canvas.maybe_subtask, get_option, deref, uuid in *. munfold.
  rewrite clone_spec in *. simpl in Hb |- *.
  set (h0 := fresh (dom (heap w))) in *.
  rewrite lookup_total_insert_eq in *. simpl in Hb |- *.
  destruct (is_none (default VNone (Py.options (heap w !!! g) !! "task_id"))) eqn:En;
    simpl in Hb |- *; rewrite ?lookup_total_insert_eq; simpl; rewrite Hg; simpl;
    unfold Chain.end_step, Canvas.new_chord, alloc; munfold; simpl;
    injection Hb as <- <- <- <-.
  - eexists _, _, _, _. split; [reflexivity|]. simpl.
    set (t := fresh _).
    assert (Hne : h0 ≠ t).
    { intros E. apply (is_fresh (dom (<[h0 := with_options
          (insert "task_id" (VStr (uuid4 (uuid_ctr w))))
          (cloned args (heap w !!! g))]> (<[h0 := cloned args (heap w !!! g)]> (heap w))))).
      fold t. rewrite <- E. rewrite dom_insert_L.
      apply elem_of_union_l, elem_of_singleton. reflexivity. }
    rewrite lookup_total_insert_eq. split; [reflexivity|]. split; [exact Hne|].
    rewrite lookup_total_insert_ne by (intros E; apply Hne; symmetry; exact E).
    rewrite lookup_total_insert_eq. unfold with_options; simpl. rewrite En.
    split; [reflexivity|]. apply lookup_insert_eq.
  - eexists _, _, _, _. split; [reflexivity|]. simpl.
    set (t := fresh _).
    assert (Hne : h0 ≠ t).
    { intros E. apply (is_fresh (dom (<[h0 := cloned args (heap w !!! g)]> (heap w)))).
      fold t. rewrite <- E. rewrite dom_insert_L.
      apply elem_of_union_l, elem_of_singleton. reflexivity. }
    rewrite lookup_total_insert_eq. split; [reflexivity|]. split; [exact Hne|].
    rewrite lookup_total_insert_ne by (intros E; apply Hne; symmetry; exact E).
    rewrite lookup_total_insert_eq. unfold with_options; simpl. rewrite En.
    split; [destruct (heap w !!! g); reflexivity|].
    destruct (Py.options (heap w !!! g) !! "task_id") as [v|]; simpl in *;
      [reflexivity|discriminate].
Qed.

Lemma canvas_apply_holds app c a o w : ∃ r w',
  Canvas.apply app c a o w = (Ok r, w') ∧ heap w' = heap w ∧
  holds r (call app (heap w !!! c) a).
Proof.
  unfold Canvas.apply, deref, Task.apply, call, Canvas.merge_args. munfold.
  destruct (truthy (default VNone (Canvas.merge_options (heap w !!! c) o !! "task_id")));
    simpl;
    destruct (Task.registry app (task (heap w !!! c)) (a ++ args (heap w !!! c))
                (kwargs (heap w !!! c))) eqn:E;
    eexists _, _; (split; [reflexivity|]); (split; [reflexivity|]);
    unfold holds; reflexivity.
Qed.

Lemma holds_set_parent r x p : holds r x → holds (set_parent r p) x.
Proof. destruct x; exact id. Qed.

Lemma apply_loop_reflects app cs : ∀ p x w,
  holds p x →
  reflects (feed app ((λ c, heap w !!! c) <$> cs) x)
    (fst (Chain.apply_loop app cs (Some p) w)).
Proof.
  induction cs as [|c cs IH]; intros p x w Hp; simpl.
  - destruct x; simpl in *; eauto.
  - munfold. unfold Result.get, Result.meta_of.
    destruct x as [v|e]; simpl in Hp; rewrite Hp; simpl.
    + destruct (canvas_apply_holds app c [v] ∅ w) as (r & w' & Ha & Hh & Hr).
      rewrite Ha. rewrite <- Hh.
      apply IH. apply holds_set_parent. rewrite Hh. exact Hr.
    + right. reflexivity.
Qed.

Lemma clone_all tasks : ∀ w,
  Forall (λ l, l ∈ dom (heap w)) tasks →
  ∃ cs wc,
    mapM (λ task, t ← Canvas.maybe_subtask task; Canvas.clone t []) tasks w
      = (Ok cs, wc) ∧
    kept w wc ∧
    (λ c, heap wc !!! c) <$> cs = (λ l, cloned [] (heap w !!! l)) <$> tasks.
Proof.
  induction tasks as [|l tasks IH]; intros w Hdom; simpl.
  - exists [], w. split; [reflexivity|]. split; [apply kept_refl|reflexivity].
  - apply Forall_cons in Hdom as [Hl Hdom].
    set (c := fresh (dom (heap w))).
    set (w1 := set_heap (insert c (cloned [] (heap w !!! l))) w).
    assert (Hk1 : kept w w1) by apply (alloc_kept (cloned [] (heap w !!! l)) w).
    destruct (IH w1) as (cs & wc & Hm & Hk & Hcs).
    { eapply Forall_impl; [exact Hdom|]. intros x Hx. apply Hk1, Hx. }
    exists (c :: cs), wc. split.
    { unfold mbind at 1, M_bind at 1. unfold mbind at 1, M_bind at 1.
      unfold Canvas.maybe_subtask at 1. unfold mret at 1, M_ret at 1.
      rewrite clone_spec. fold c. fold w1.
      unfold mbind at 1, M_bind at 1. rewrite Hm. reflexivity. }
    split; [eapply kept_trans; eauto|]. simpl. f_equal.
    + destruct Hk as [_ Hk]. rewrite Hk.
      * unfold w1, set_heap; simpl. apply lookup_total_insert_eq.
      * unfold w1, set_heap; simpl. rewrite dom_insert_L.
        apply elem_of_union_l, elem_of_singleton. reflexivity.
    + transitivity ((λ l, cloned [] (heap w1 !!! l)) <$> tasks); [exact Hcs|].
      apply Forall_fmap_ext_1. eapply Forall_impl; [exact Hdom|].
      intros x Hx. simpl. f_equal. apply Hk1, Hx.
Qed.

Lemma feed_cloned app sigs : ∀ x,
  feed app (cloned [] <$> sigs) x = feed app sigs x.
Proof.
  induction sigs as [|s sigs IH]; intros x; simpl; [reflexivity|].
  destruct x; [|reflexivity]. apply IH.
Qed.

(** What the eager chain computes: manual application from no initial
    argument, whatever [args] is. *)
Lemma Chain_apply_is_manual_application_of_no_args app args tasks options w :
  Forall (λ l, l ∈ dom (heap w)) tasks →
  match manual_application app ((λ l, heap w !!! l) <$> tasks) [] with
  | Some x => reflects x (fst (Chain.apply app args tasks options w))
  | None => fst (Chain.apply app args tasks options w) = Ok None
  end.
Proof.
  intros Hdom.
  destruct (clone_all tasks w Hdom) as (cs & wc & Hm & _ & Hcs).
  unfold Chain.apply. unfold mbind at 1, M_bind at 1. rewrite Hm.
  destruct tasks as [|l tasks]; simpl in *.
  - destruct cs; [reflexivity|discriminate].
  - destruct cs as [|c cs]; [discriminate|]. simpl in Hcs.
    injection Hcs as Hc Hcs. simpl. munfold.
    destruct (canvas_apply_holds app c [] ∅ wc) as (r & w' & Ha & Hh & Hr).
    rewrite Ha.
    pose proof (apply_loop_reflects app cs (set_parent r None)
                  (call app (heap wc !!! c) []) w'
                  (holds_set_parent _ _ _ Hr)) as H.
    assert (Hcs' : (λ c, heap wc !!! c) <$> cs
                   = cloned [] <$> ((λ l, heap w !!! l) <$> tasks)).
    { rewrite <- list_fmap_compose. exact Hcs. }
    rewrite Hh, Hcs', Hc, feed_cloned in H. exact H.
Qed.

(** [chain(a, b, c)], no group: the steps are cloned (to 5, 6, 7), each
    linked from its predecessor, and each handle has its predecessor's
    for parent. *)
Example prepare_steps_links_plain_steps :
  let '(r, w') :=
    Chain.prepare_steps [] [0; 1; 3] (Examples.world Examples.canvas) in
  ∃ r0 r1 r2,
    r = Ok ([5; 6; 7], [r0; r1; r2]) ∧
    res_parent r0 = None ∧ res_parent r1 = Some r0 ∧ res_parent r2 = Some r1 ∧
    task (heap w' !!! 5) = "a" ∧ task (heap w' !!! 6) = "b" ∧
    task (heap w' !!! 7) = "c" ∧
    subtask_type (heap w' !!! 5) = kind_task ∧
    subtask_type (heap w' !!! 6) = kind_task ∧
    subtask_type (heap w' !!! 7) = kind_task ∧
    Py.options (heap w' !!! 5) !! "link" = Some (VList [VRef 6]) ∧
    Py.options (heap w' !!! 6) !! "link" = Some (VList [VRef 7]) ∧
    Py.options (heap w' !!! 7) !! "link" = None.
Proof. vm_compute. eexists _, _, _. repeat split. Qed.

(** [chain(c, group(a, b))]: the group is the last step and stays a
    group, linked from [c]. *)
Example prepare_steps_keeps_last_group :
  let '(r, w') :=
    Chain.prepare_steps [] [3; 2] (Examples.world Examples.canvas) in
  ∃ r0 r1,
    r = Ok ([5; 6], [r0; r1]) ∧ res_parent r1 = Some r0 ∧
    task (heap w' !!! 5) = "c" ∧
    subtask_type (heap w' !!! 6) = kind_group ∧
    Py.options (heap w' !!! 5) !! "link" = Some (VList [VRef 6]).
Proof. vm_compute. eexists _, _. repeat split. Qed.

Lemma log_nil w : log [] w = w.
Proof. destruct w. unfold log. simpl. rewrite app_nil_r. reflexivity. Qed.

Lemma log_log e1 e2 w : log e2 (log e1 w) = log (e1 ++ e2) w.
Proof. unfold log. simpl. rewrite app_assoc. reflexivity. Qed.

Lemma mapM_fmap {A B C} (f : B → M C) (g : A → B) (l : list A) w :
  mapM f (g <$> l) w = mapM (λ x, f (g x)) l w.
Proof.
  revert w. induction l as [|x l IH]; intros w; simpl; [reflexivity|].
  unfold mbind, M_bind. destruct (f (g x) w) as [[y|e] w1]; [|reflexivity].
  rewrite IH. reflexivity.
Qed.

Lemma call_returned app name a v w :
  Task.registry app name a ∅ = Task.Returned v →
  Task.call app name a w = (Ok v, log [Execute name a ∅] w).
Proof. intros H. unfold Task.call. munfold. rewrite H. reflexivity. Qed.

Lemma call_threw app name a e w :
  Task.registry app name a ∅ = Task.Threw e →
  Task.call app name a w = (Raise (Raised e), log [Execute name a ∅] w).
Proof. intros H. unfold Task.call. munfold. rewrite H. reflexivity. Qed.

Lemma mapM_call_returns app name calls vs : ∀ w,
  Forall2 (λ a v, Task.registry app name a ∅ = Task.Returned v) calls vs →
  mapM (Task.call app name) calls w = (Ok vs, log (executions name calls) w).
Proof.
  intros w H. revert w. induction H as [|a v calls vs Ha _ IH]; intros w.
  - simpl. rewrite log_nil. reflexivity.
  - simpl. unfold mbind at 1, M_bind at 1. rewrite (call_returned _ _ _ _ _ Ha).
    unfold mbind at 1, M_bind at 1. rewrite IH. rewrite log_log. reflexivity.
Qed.

Lemma mapM_call_raises app name pre a post vs e : ∀ w,
  Forall2 (λ a v, Task.registry app name a ∅ = Task.Returned v) pre vs →
  Task.registry app name a ∅ = Task.Threw e →
  mapM (Task.call app name) (pre ++ a :: post) w =
    (Raise (Raised e), log (executions name (pre ++ [a])) w).
Proof.
  intros w H He. revert w. induction H as [|b v pre vs Hb _ IH]; intros w.
  - simpl. unfold mbind at 1, M_bind at 1. rewrite (call_threw _ _ _ _ _ He).
    reflexivity.
  - simpl. unfold mbind at 1, M_bind at 1. rewrite (call_returned _ _ _ _ _ Hb).
    unfold mbind at 1, M_bind at 1. rewrite IH. rewrite log_log. reflexivity.
Qed.

Lemma bind_ok {A B} (m : M A) (k : A → M B) a w w' :
  m w = (Ok a, w') → (x ← m; k x) w = k a w'.
Proof. intros H. unfold mbind, M_bind. rewrite H. reflexivity. Qed.

Lemma bind_raise {A B} (m : M A) (k : A → M B) e w w' :
  m w = (Raise e, w') → (x ← m; k x) w = (Raise e, w').
Proof. intros H. unfold mbind, M_bind. rewrite H. reflexivity. Qed.

Lemma Forall2_singletons {B} (P : list pyval → B → Prop) xs ys :
  Forall2 (λ x y, P [x] y) xs ys → Forall2 P (singletons xs) ys.
Proof. intros H. unfold singletons. apply Forall2_fmap_l. exact H. Qed.

Lemma singletons_app xs x : singletons (xs ++ [x]) = singletons xs ++ [[x]].
Proof. unfold singletons. rewrite fmap_app. reflexivity. Qed.

Lemma xstarmap_singletons app task it w :
  xstarmap app task (singletons it) w = xmap app task it w.
Proof.
  unfold xstarmap, xmap, singletons. unfold mbind, M_bind.
  rewrite mapM_fmap. reflexivity.
Qed.

Lemma decorate_all_spec {C} (cs : list C) : ∀ reg,
  decorate_all cs reg = (cs, reg ++ cs).
Proof.
  unfold decorate_all.
  assert (G : ∀ (acc reg : list C),
    foldl (λ st c, let '(c', l) := shared_task c st.2 in (st.1 ++ [c'], l))
      (acc, reg) cs = (acc ++ cs, reg ++ cs)).
  { induction cs as [|c cs IH]; intros acc reg; simpl.
    - rewrite !app_nil_r. reflexivity.
    - rewrite IH. rewrite <- !app_assoc. reflexivity. }
  intros reg. apply (G [] reg).
Qed.

Lemma load_shared_tasks_app {S} (l1 l2 : list (S → S)) app :
  load_shared_tasks (l1 ++ l2) app = load_shared_tasks l2 (load_shared_tasks l1 app).
Proof. unfold load_shared_tasks. apply foldl_app. Qed.

Section CloneEachOn.
Context (pa : list pyval) (k : loc → M AsyncResult).
Context (ev : Signature → Event) (P : Signature → AsyncResult → Prop).
Hypothesis k_spec : ∀ c w, ∃ r w',
  k c w = (Ok r, w') ∧ P (heap w !!! c) r ∧
  outbox w' = outbox w ++ [ev (heap w !!! c)] ∧ heap w' = heap w.

Lemma mapM_clone_on tasks : ∀ w,
  Forall (λ l, l ∈ dom (heap w)) tasks →
  ∃ rs w',
    mapM (λ task, t ← Canvas.clone task pa; k t) tasks w = (Ok rs, w') ∧
    Forall2 (λ l r, P (cloned pa (heap w !!! l)) r) tasks rs ∧
    outbox w' = outbox w ++ ((λ l, ev (cloned pa (heap w !!! l))) <$> tasks) ∧
    kept w w'.
Proof.
  induction tasks as [|l tasks IH]; intros w Hdom; simpl.
  - exists [], w. rewrite app_nil_r. repeat split; auto using kept_refl.
  - apply Forall_cons in Hdom as [Hl Hdom].
    munfold. rewrite clone_spec.
    set (c := fresh (dom (heap w))).
    set (w1 := set_heap (insert c (cloned pa (heap w !!! l))) w).
    destruct (k_spec c w1) as (r & w2 & Hk & HP & Ho & Hh).
    rewrite Hk.
    assert (Hc1 : kept w w1) by apply (alloc_kept (cloned pa (heap w !!! l)) w).
    assert (Hc2 : kept w1 w2) by (apply kept_same_heap, Hh).
    assert (Hc : kept w w2) by (eapply kept_trans; eauto).
    destruct (IH w2) as (rs & w' & Hm & HPs & Ho' & Hc').
    { eapply Forall_impl; [exact Hdom|]. intros x Hx. apply Hc, Hx. }
    rewrite Hm. exists (r :: rs), w'. split; [reflexivity|].
    split; [|split; [|eapply kept_trans; eauto]].
    + constructor.
      * unfold w1 in HP. simpl in HP. rewrite lookup_total_insert_eq in HP. exact HP.
      * clear - HPs Hdom Hc. revert HPs. generalize rs.
        induction Hdom as [|x xs Hx Hxs IHx]; intros rs' H;
          inversion H; subst; constructor.
        -- destruct Hc as [_ Hc]. rewrite <- (Hc x Hx). assumption.
        -- apply IHx. assumption.
    + rewrite Ho', Ho. unfold w1 at 1. simpl. rewrite <- app_assoc. f_equal. simpl.
      f_equal.
      * unfold w1; simpl. rewrite lookup_total_insert_eq. reflexivity.
      * apply Forall_fmap_ext_1. eapply Forall_impl; [exact Hdom|].
        intros x Hx. simpl. f_equal. f_equal. apply Hc, Hx.
Qed.
End CloneEachOn.

Lemma canvas_apply_executed app gid c w : ∃ r w',
  Canvas.apply app c [] (<["group_id" := gid]> ∅) w = (Ok r, w') ∧
  (executed app [] (heap w !!! c) r ∧ is_Some (res_eager r)) ∧
  outbox w' = outbox w ++ [member_execute [] (heap w !!! c)] ∧ heap w' = heap w.
Proof.
  unfold Canvas.apply, deref, Task.apply, executed, call, member_execute,
    Canvas.merge_args, Canvas.merge_options.
  munfold. simpl.
  set (s := heap w !!! c).
  assert (Ht : (<["group_id" := gid]> ∅ ∪ options s) !! "task_id"
               = options s !! "task_id").
  { rewrite lookup_union_r; [reflexivity|]. rewrite lookup_insert_ne by done.
    apply lookup_empty. }
  rewrite Ht.
  destruct (options s !! "task_id") as [t|] eqn:Et; simpl.
  - destruct (truthy t) eqn:Tt; simpl;
      destruct (Task.registry app (task s) (args s) (kwargs s)) eqn:E;
      eexists _, _; (split; [reflexivity|]); unfold holds; simpl;
      (split; [split; [split; [reflexivity|]|eexists; reflexivity]|split; reflexivity]);
      intros t' [= <-] Ht'; simpl; congruence.
  - destruct (Task.registry app (task s) (args s) (kwargs s)) eqn:E;
      eexists _, _; (split; [reflexivity|]); unfold holds; simpl;
      (split; [split; [split; [reflexivity|]|eexists; reflexivity]|split; reflexivity]);
      intros t' [=].
Qed.

Lemma executed_cloned app pa s r :
  executed app [] (cloned pa s) r → executed app pa s r.
Proof. unfold executed, call, cloned, Canvas.merge_args. simpl. auto. Qed.

(** The eager branch of [Group.run]. *)
Lemma group_run_eager app is_eager in_worker tasks result gid pa w :
  is_eager || Task.CELERY_ALWAYS_EAGER app = true →
  Forall (λ l, l ∈ dom (heap w)) tasks →
  ∃ rs w',
    Group.run app is_eager in_worker tasks result gid pa w =
      (Ok (mkGroupResult (gr_id result) rs), w') ∧
    kept w w' ∧
    Forall2 (λ l r, executed app pa (heap w !!! l) r ∧ is_Some (res_eager r)) tasks rs ∧
    outbox w' = outbox w ++ ((λ l, member_execute pa (heap w !!! l)) <$> tasks).
Proof.
  intros He Hdom. unfold Group.run. rewrite He.
  destruct (mapM_clone_on pa _ _
              (λ s r, executed app [] s r ∧ is_Some (res_eager r))
              (canvas_apply_executed app gid) tasks w Hdom)
    as (rs & w' & Hm & HP & Ho & Hk).
  munfold. rewrite Hm. exists rs, w'. split; [reflexivity|]. split; [exact Hk|].
  split; [|exact Ho].
  eapply Forall2_impl; [exact HP|]. intros l r [H1 H2]. split; [|exact H2].
  apply executed_cloned, H1.
Qed.

Lemma with_options_insert_id k v s :
  options s !! k = Some v → with_options (insert k v) s = s.
Proof.
  intros H. destruct s as [t a kw o st]. unfold with_options. simpl in *.
  f_equal. apply insert_id, H.
Qed.

Lemma set_option_id l k v w :
  l ∈ dom (heap w) → options (heap w !!! l) !! k = Some v →
  set_option l k v w = (Ok tt, w).
Proof.
  intros Hl H. rewrite set_option_spec. rewrite (with_options_insert_id _ _ _ H).
  f_equal. destruct w as [h u o]. unfold set_heap. simpl in *. f_equal.
  apply insert_id. apply elem_of_dom in Hl as [s Hs].
  rewrite (lookup_total_correct _ _ _ Hs). exact Hs.
Qed.

Lemma prepare_member_fixed gid l tid w :
  l ∈ dom (heap w) →
  options (heap w !!! l) !! "group_id" = Some gid →
  options (heap w !!! l) !! "task_id" = Some tid →
  Group.prepare_member gid l w = (Ok (l, Result.AsyncResult tid), w).
Proof.
  intros Hl Hg Ht. unfold Group.prepare_member, Canvas.maybe_subtask.
  unfold mbind at 1, M_bind at 1, mret at 1, M_ret at 1.
  unfold mbind at 1, M_bind at 1. rewrite (set_option_id _ _ _ _ Hl Hg).
  unfold mbind at 1, M_bind at 1, deref at 1. rewrite Ht. reflexivity.
Qed.

Lemma mapM_prepare_member_fixed gid w tasks ms :
  Forall2 (tagged snd (λ l b, b.1 = l) (group_stamp gid) w) tasks ms →
  mapM (Group.prepare_member gid) tasks w = (Ok ms, w).
Proof.
  induction 1 as [|l b tasks ms (Hb & Hl & (tid & Ht & Hr) & Hs) _ IH]; simpl.
  - reflexivity.
  - unfold mbind at 1, M_bind at 1.
    rewrite (prepare_member_fixed gid l tid w Hl); [|apply Hs; reflexivity|exact Ht].
    unfold mbind at 1, M_bind at 1. rewrite IH. unfold mret, M_ret. f_equal. f_equal.
    f_equal. destruct b as [b1 b2]. simpl in *. congruence.
Qed.

Lemma prepare_empty_raises options args w :
  ∃ w', Group.prepare options [] args w = (Raise ValueError, w').
Proof. eexists. reflexivity. Qed.

Lemma prepare_ok_inv options tasks args w tasks1 result gid a o1 w1 :
  Group.prepare options tasks args w = (Ok (tasks1, result, gid, a, o1), w1) →
  ∃ ms,
    tasks ≠ [] ∧ tasks1 = tasks ∧ result = mkGroupResult gid ms.*2 ∧
    gid = prepared_group_id options w ∧ a = args ∧
    o1 = prepared_options options w ∧
    carried (group_stamp gid) w w1 ∧
    Forall2 (tagged snd (λ l b, b.1 = l) (group_stamp gid) w1) tasks ms ∧
    Forall2 (origin snd (drawn w)) tasks ms.
Proof.
  intros H. destruct tasks as [|l tasks].
  { destruct (prepare_empty_raises options args w) as [w' E]. congruence. }
  destruct (prepare_spec options (l :: tasks) args w ltac:(discriminate))
    as (ms & w' & Hp & _ & Hc & Hall & Hor & _).
  rewrite Hp in H. injection H as <- <- <- <- <- <-.
  exists ms. split; [discriminate|]. do 5 (split; [reflexivity|]).
  split; [exact Hc|]. split; [exact Hall|exact Hor].
Qed.

Lemma carried_call app stamp w w' l a :
  carried stamp w w' → l ∈ dom (heap w) →
  call app (heap w' !!! l) a = call app (heap w !!! l) a.
Proof.
  intros [_ C] Hl. destruct (C l Hl) as (Ht & Ha & Hk & _).
  unfold call. rewrite Ht, Ha, Hk. reflexivity.
Qed.

(** [Group.apply] on a group with a member. *)
Lemma group_apply_executed app args tasks options w :
  tasks ≠ [] →
  Forall (λ l, l ∈ dom (heap w)) tasks →
  let gid := prepared_group_id options w in
  ∃ ms g w',
    Group.apply app args tasks options w = (Ok g, w') ∧
    gr_id g = gid ∧
    Forall2 (λ l r, (executed app args (heap w' !!! l) r ∧ is_Some (res_eager r)) ∧
                    holds r (call app (heap w !!! l) args))
      tasks (gr_results g) ∧
    outbox w' = outbox w ++
      Execute "celery.group"
        [VList (VRef <$> tasks); Canvas.serializable (mkGroupResult gid ms.*2);
         gid; VList args] ∅
      :: ((λ l, member_execute args (heap w !!! l)) <$> tasks) ∧
    carried (group_stamp gid) w w' ∧
    Forall2 (tagged snd (λ l b, b.1 = l) (group_stamp gid) w') tasks ms.
Proof.
  intros Hne Hdom0 gid. unfold Group.apply.
  destruct (prepare_spec options tasks args w Hne)
    as (ms & w1 & Hp & Ho & Hc & Hall & Hor & _).
  fold gid in Hp, Hc, Hall. munfold. rewrite Hp. simpl.
  pose proof (tagged_in_dom _ _ _ _ _ _ Hall) as Hdom.
  destruct (group_run_eager app true false tasks (mkGroupResult gid ms.*2) gid args
              (log [Execute "celery.group"
                      [VList (VRef <$> tasks);
                       Canvas.serializable (mkGroupResult gid ms.*2); gid; VList args] ∅] w1)
              eq_refl Hdom)
    as (rs & w' & Hr & Hk & Hx & Ho').
  simpl in Hr. rewrite Hr. exists ms, (mkGroupResult gid rs), w'.
  split; [reflexivity|]. split; [reflexivity|].
  assert (Hk1 : kept w1 w').
  { eapply kept_trans; [|exact Hk]. apply kept_same_heap. reflexivity. }
  split; [|split; [|split]].
  - simpl. clear - Hx Hdom Hdom0 Hk1 Hc.
    revert Hdom Hdom0. induction Hx as [|l r ls rs [H1 H2] _ IH]; intros Hd Hd0.
    { constructor. }
    apply Forall_cons in Hd as [Hl Hd]. apply Forall_cons in Hd0 as [Hl0 Hd0].
    constructor; [|apply IH; assumption].
    simpl in H1. destruct Hk1 as [_ Hk1]. rewrite (Hk1 l Hl).
    split; [split; assumption|].
    destruct H1 as [H1 _]. rewrite <- (carried_call app _ _ _ l args Hc Hl0).
    exact H1.
  - rewrite Ho'. simpl. rewrite Ho, <- app_assoc. simpl. f_equal. f_equal.
    apply Forall_fmap_ext_1. eapply Forall_impl; [exact Hdom0|].
    intros l Hl. simpl. unfold member_execute.
    destruct Hc as [_ C]. destruct (C l Hl) as (Ht & Ha & Hkw & _).
    rewrite Ht, Ha, Hkw. reflexivity.
  - eapply carried_trans; [exact Hc|]. apply kept_carried, Hk1.
  - eapply Forall2_tagged_carried; [exact Hall|]. apply kept_carried, Hk1.
Qed.

Lemma lineage_set_parent r prev :
  lineage (set_parent r prev) = set_parent r prev :: ancestry prev.
Proof. destruct prev as [p|]; reflexivity. Qed.

Lemma lineage_nonempty r : lineage r ≠ [].
Proof. destruct r as [? ? [?|]]; discriminate. Qed.

Lemma canvas_apply_full app c a o w : ∃ r w',
  Canvas.apply app c a o w = (Ok r, w') ∧ heap w' = heap w ∧
  outbox w' = outbox w ++ [member_execute a (heap w !!! c)] ∧
  holds r (call app (heap w !!! c) a).
Proof.
  unfold Canvas.apply, deref, Task.apply, call, member_execute, Canvas.merge_args.
  munfold.
  destruct (truthy (default VNone (Canvas.merge_options (heap w !!! c) o !! "task_id")));
    simpl;
    destruct (Task.registry app (task (heap w !!! c)) (a ++ args (heap w !!! c))
                (kwargs (heap w !!! c))) eqn:E;
    eexists _, _; (split; [reflexivity|]); (split; [reflexivity|]);
    (split; [reflexivity|]); unfold holds; reflexivity.
Qed.

Lemma apply_loop_after_failure app cs p e w :
  res_eager p = Some (FAILURE, e) →
  Chain.apply_loop app cs (Some p) w =
    (match cs with [] => Ok (Some p) | _ :: _ => Raise (Raised e) end, w).
Proof.
  intros Hp. destruct cs as [|c cs]; simpl; [reflexivity|].
  munfold. unfold Result.get, Result.meta_of. rewrite Hp. reflexivity.
Qed.

Lemma carry_arg app prev a w :
  carry prev a →
  (match prev with
   | Some p => v ← Result.get (Task.backend app) true p; mret [v]
   | None => mret []
   end) w = (Ok a, w).
Proof.
  destruct prev as [p|]; simpl.
  - intros (v & Hp & ->). munfold. unfold Result.get, Result.meta_of.
    rewrite Hp. reflexivity.
  - intros ->. reflexivity.
Qed.

Lemma apply_loop_run app cs : ∀ prev a w,
  carry prev a →
  let run := chain_run app ((λ c, heap w !!! c) <$> cs) a in
  ∃ out w',
    Chain.apply_loop app cs prev w = (out, w') ∧ heap w' = heap w ∧
    outbox w' = outbox w ++ run.*1 ∧
    chain_ended (length cs) run (ancestry prev) out ∧
    (cs = [] → out = Ok prev).
Proof.
  induction cs as [|c cs IH]; intros prev a w Hc run.
  - exists (Ok prev), w. subst run. simpl. rewrite app_nil_r.
    split; [reflexivity|]. split; [reflexivity|]. split; [reflexivity|].
    split; [|reflexivity].
    destruct prev as [p|]; simpl.
    + split; [reflexivity|]. exists []. split; [reflexivity|constructor].
    + split; reflexivity.
  - cbn [Chain.apply_loop]. unfold mbind at 1, M_bind at 1.
    rewrite (carry_arg app prev a w Hc).
    destruct (canvas_apply_full app c a ∅ w) as (r & w1 & Ha & Hh & Ho & Hr).
    unfold mbind at 1, M_bind at 1. rewrite Ha.
    set (x := call app (heap w !!! c) a) in *.
    set (p1 := set_parent r prev).
    assert (Hp1 : holds p1 x) by (apply holds_set_parent, Hr).
    assert (Hrun : run = (member_execute a (heap w !!! c), x) ::
                         match x with
                         | Task.Returned v =>
                             chain_run app ((λ c, heap w !!! c) <$> cs) [v]
                         | Task.Threw _ => []
                         end) by reflexivity.
    destruct x as [v1|e0] eqn:Ex.
    + destruct (IH (Some p1) [v1] w1) as (out & w' & Hl & Hh' & Ho' & He & _).
      { simpl. exists v1. split; [exact Hp1|reflexivity]. }
      rewrite Hh in Ho', He.
      set (run' := chain_run app ((λ c, heap w !!! c) <$> cs) [v1]) in *.
      exists out, w'. split; [exact Hl|]. split; [congruence|].
      split; [rewrite Ho', Ho, Hrun, <- app_assoc; reflexivity|].
      split; [|discriminate].
      rewrite Hrun. unfold chain_ended in He |- *. unfold ancestry in He at 1.
      destruct out as [[r'|]|e]; cbn [length fmap list_fmap snd] in He |- *.
      * destruct He as (Hlen & hs & Hlin & Hall). split; [lia|].
        exists (hs ++ [p1]). split.
        -- rewrite Hlin. change (lineage p1) with (lineage (set_parent r prev)).
           rewrite lineage_set_parent.
           rewrite <- app_assoc. reflexivity.
        -- rewrite reverse_app. simpl. constructor; assumption.
      * destruct He as [_ He]. destruct (lineage_nonempty _ He).
      * destruct He as (Hlen & y & Hlast & ->). split; [lia|].
        exists y. split; [|reflexivity].
        rewrite last_cons, Hlast. reflexivity.
    + rewrite (apply_loop_after_failure app cs p1 e0 w1 Hp1).
      eexists _, w1. split; [reflexivity|]. split; [exact Hh|].
      split; [rewrite Ho, Hrun; reflexivity|]. split; [|discriminate].
      rewrite Hrun. destruct cs as [|c' cs]; simpl.
      * split; [reflexivity|]. exists [p1]. split.
        -- unfold p1. apply lineage_set_parent.
        -- constructor; [exact Hp1|constructor].
      * split; [lia|]. exists e0. split; reflexivity.
Qed.

Lemma clone_all_outbox tasks : ∀ w,
  outbox (mapM (λ task, t ← Canvas.maybe_subtask task; Canvas.clone t []) tasks w).2
    = outbox w.
Proof.
  induction tasks as [|l tasks IH]; intros w; simpl; [reflexivity|].
  unfold mbind at 1, M_bind at 1. unfold mbind at 1, M_bind at 1.
  unfold Canvas.maybe_subtask at 1. unfold mret at 1, M_ret at 1.
  rewrite clone_spec.
  unfold mbind at 1, M_bind at 1.
  set (w1 := set_heap _ w). specialize (IH w1).
  destruct (mapM _ tasks w1) as [[cs|e] w2]; simpl in *; exact IH.
Qed.

Lemma chain_run_cloned app sigs : ∀ a,
  chain_run app (cloned [] <$> sigs) a = chain_run app sigs a.
Proof.
  induction sigs as [|s sigs IH]; intros a; simpl; [reflexivity|].
  change (call app (cloned [] s) a) with (call app s a).
  change (member_execute a (cloned [] s)) with (member_execute a s).
  f_equal. destruct (call app s a); [apply IH|reflexivity].
Qed.

(** [Chain.apply] on steps that exist. *)
Lemma chain_apply_run app args tasks options w :
  Forall (λ l, l ∈ dom (heap w)) tasks →
  let run := chain_run app ((λ l, heap w !!! l) <$> tasks) [] in
  ∃ out w',
    Chain.apply app args tasks options w = (out, w') ∧
    kept w w' ∧
    outbox w' = outbox w ++ run.*1 ∧
    chain_ended (length tasks) run [] out.
Proof.
  intros Hdom run.
  destruct (clone_all tasks w Hdom) as (cs & wc & Hm & Hk & Hcs).
  pose proof (clone_all_outbox tasks w) as Hq. rewrite Hm in Hq. simpl in Hq.
  unfold Chain.apply. unfold mbind at 1, M_bind at 1. rewrite Hm.
  destruct (apply_loop_run app cs None [] wc eq_refl)
    as (out & w' & Hl & Hh & Ho & He & _).
  assert (Hrun : chain_run app ((λ c, heap wc !!! c) <$> cs) [] = run).
  { rewrite Hcs. unfold run.
    rewrite <- (chain_run_cloned app ((λ l, heap w !!! l) <$> tasks)). f_equal.
    rewrite <- list_fmap_compose. reflexivity. }
  rewrite Hrun in Ho, He.
  assert (Hlen : length cs = length tasks).
  { apply (f_equal length) in Hcs. rewrite !length_fmap in Hcs. exact Hcs. }
  rewrite Hlen in He.
  exists out, w'. split; [exact Hl|].
  split; [eapply kept_trans; [exact Hk|apply kept_same_heap, Hh]|].
  split; [rewrite Ho, Hq; reflexivity|exact He].
Qed.

Lemma begin_step_eq args i step w :
  let c := fresh (dom (heap w)) in
  let s := cloned (turn_args args i) (heap w !!! step) in
  let tid := step_tid w s in
  Chain.begin_step args i step w =
    (Ok (c, tid, Result.AsyncResult tid),
     if is_none (default VNone (options s !! "task_id"))
     then mkWorld (<[c := with_options (insert "task_id" tid) s]> (heap w))
            (S (uuid_ctr w)) (outbox w)
     else set_heap (insert c s) w).
Proof.
  intros c s tid.
  unfold Chain.begin_step, Canvas.maybe_subtask, get_option, deref, uuid.
  munfold.
  assert (Hc : (match i with
                | 0 => Canvas.clone step args
                | S _ => Canvas.clone step []
                end) w = Canvas.clone step (turn_args args i) w)
    by (destruct i; reflexivity).
  rewrite Hc, clone_spec. fold c. fold s.
  unfold set_heap at 1 2 3. cbn [heap uuid_ctr outbox].
  rewrite lookup_total_insert_eq.
  unfold tid, step_tid.
  destruct (is_none (default VNone (options s !! "task_id"))) eqn:En.
  - rewrite set_option_spec. unfold set_heap. cbn [heap uuid_ctr outbox].
    rewrite lookup_total_insert_eq, insert_insert_eq. reflexivity.
  - reflexivity.
Qed.

Lemma end_step_eq task tid res ns prev w :
  let ch := fresh (dom (heap w)) in
  let task' := match ns with Some _ => ch | None => task end in
  let w1 := match ns with
            | Some body => set_heap (insert ch (chord_signature task body tid)) w
            | None => w
            end in
  Chain.end_step task tid res ns prev w =
    match prev with
    | Some (pt, pr) =>
        (Ok (task', set_parent res (Some pr)),
         set_heap (insert pt (with_link task' (heap w1 !!! pt))) w1)
    | None => (Ok (task', res), w1)
    end.
Proof.
  intros ch task' w1. unfold Chain.end_step.
  unfold mbind at 1, M_bind at 1.
  assert (H1 : (match ns with
                | Some body => Canvas.new_chord task body tid
                | None => mret task
                end) w = (Ok task', w1)).
  { unfold task', w1. destruct ns; reflexivity. }
  rewrite H1. destruct prev as [[pt pr]|].
  - unfold mbind at 1, M_bind at 1. unfold mbind at 1, M_bind at 1.
    unfold Canvas.link, deref. unfold mbind at 1, M_bind at 1.
    rewrite set_option_spec. reflexivity.
  - reflexivity.
Qed.

Lemma chained_snoc rs : ∀ p r,
  chained p rs → res_parent r = from_option Some p (last rs) →
  chained p (rs ++ [r]).
Proof.
  induction rs as [|x rs IH]; intros p r Hc Hr; simpl in *.
  - split; [exact Hr|exact I].
  - destruct Hc as [Hx Hc]. split; [exact Hx|]. apply IH; [exact Hc|].
    rewrite Hr. rewrite last_cons. destruct (last rs); reflexivity.
Qed.

Lemma turn_begin_end args i step ns prev w :
  (∀ pt pr, prev = Some (pt, pr) → pt ∈ dom (heap w)) →
  ∃ c tid w1 task' r' w2,
    Chain.begin_step args i step w = (Ok (c, tid, Result.AsyncResult tid), w1) ∧
    heap w1 !!! c =
      (let s := cloned (turn_args args i) (heap w !!! step) in
       if is_none (default VNone (options s !! "task_id"))
       then with_options (insert "task_id" (step_tid w s)) s else s) ∧
    Chain.end_step c tid (Result.AsyncResult tid) ns prev w1 = (Ok (task', r'), w2) ∧
    (ns = None → task' = c ∧ ∀ pr, prev ≠ Some (c, pr)) ∧
    res_id r' = tid ∧
    turn prev w w2 task' r' ∧
    (∀ l, l ∈ dom (heap w1) → (∀ pr, prev ≠ Some (l, pr)) →
          heap w2 !!! l = heap w1 !!! l) ∧
    tid = step_tid w (cloned (turn_args args i) (heap w !!! step)) ∧
    c ∈ dom (heap w1).
Proof.
  intros Hprev.
  pose proof (begin_step_eq args i step w) as Hb. cbv zeta in Hb.
  set (c := fresh (dom (heap w))) in *.
  set (s := cloned (turn_args args i) (heap w !!! step)) in *.
  set (tid := step_tid w s) in *.
  set (w1 := if is_none (default VNone (options s !! "task_id"))
             then mkWorld (<[c := with_options (insert "task_id" tid) s]> (heap w))
                    (S (uuid_ctr w)) (outbox w)
             else set_heap (insert c s) w) in *.
  assert (Hc : c ∉ dom (heap w)) by apply is_fresh.
  assert (Hd1 : dom (heap w1) = {[c]} ∪ dom (heap w)).
  { unfold w1. destruct (is_none _); simpl; apply dom_insert_L. }
  assert (Ho1 : outbox w1 = outbox w).
  { unfold w1. destruct (is_none _); reflexivity. }
  assert (Hf1 : ∀ l, l ≠ c → heap w1 !!! l = heap w !!! l).
  { intros l Hl. unfold w1. destruct (is_none _); simpl;
      apply lookup_total_insert_ne; congruence. }
  assert (Hs1 : heap w1 !!! c =
                if is_none (default VNone (options s !! "task_id"))
                then with_options (insert "task_id" tid) s else s).
  { unfold w1. destruct (is_none _); simpl; apply lookup_total_insert_eq. }
  pose proof (end_step_eq c tid (Result.AsyncResult tid) ns prev w1) as He.
  cbv zeta in He.
  set (ch := fresh (dom (heap w1))) in *.
  set (task' := match ns with Some _ => ch | None => c end) in *.
  set (w1' := match ns with
              | Some body => set_heap (insert ch (chord_signature c body tid)) w1
              | None => w1
              end) in *.
  assert (Hch : ch ∉ dom (heap w1)) by apply is_fresh.
  assert (Hcin : c ∈ dom (heap w1)).
  { rewrite Hd1. apply elem_of_union_l, elem_of_singleton. reflexivity. }
  assert (Hsub1 : dom (heap w) ⊆ dom (heap w1)).
  { rewrite Hd1. intros x Hx. apply elem_of_union_r, Hx. }
  assert (Hd1' : dom (heap w1) ⊆ dom (heap w1')).
  { unfold w1'. destruct ns; [|done]. simpl. rewrite dom_insert_L.
    intros x Hx. apply elem_of_union_r, Hx. }
  assert (Ht'in : task' ∈ dom (heap w1')).
  { unfold task', w1'. destruct ns; simpl.
    - rewrite dom_insert_L. apply elem_of_union_l, elem_of_singleton. reflexivity.
    - exact Hcin. }
  assert (Ht'out : task' ∉ dom (heap w)).
  { unfold task'. destruct ns; [|exact Hc]. intros Hx. apply Hch, Hsub1, Hx. }
  assert (Hf1' : ∀ l, l ∈ dom (heap w1) → heap w1' !!! l = heap w1 !!! l).
  { intros l Hl. unfold w1'. destruct ns; [|reflexivity]. simpl.
    apply lookup_total_insert_ne. intros <-. exact (Hch Hl). }
  assert (Ho1' : outbox w1' = outbox w1).
  { unfold w1'. destruct ns; reflexivity. }
  assert (Hcprev : ∀ pr, prev ≠ Some (c, pr)).
  { intros pr E. exact (Hc (Hprev _ _ E)). }
  destruct prev as [[pt pr]|].
  - eexists c, tid, w1, task', _, _. split; [exact Hb|]. split; [exact Hs1|].
    split; [exact He|].
    split; [intros ->; split; [reflexivity|exact Hcprev]|].
    split; [reflexivity|]. split; [|].
    + unfold turn. simpl. split; [congruence|].
      split; [|split; [|split; [exact Ht'out|split; [|split; [|reflexivity]]]]].
      * rewrite dom_insert_L. intros x Hx. apply elem_of_union_r, Hd1', Hsub1, Hx.
      * rewrite dom_insert_L. apply elem_of_union_r, Ht'in.
      * intros l Hl Hne. rewrite lookup_total_insert_ne.
        -- rewrite Hf1' by (apply Hsub1, Hl). apply Hf1. intros ->. exact (Hc Hl).
        -- intros <-. exact (Hne pr eq_refl).
      * intros pt' pr' [= <- <-]. rewrite lookup_total_insert_eq. f_equal.
        assert (Hpt : pt ∈ dom (heap w)) by (eapply Hprev; reflexivity).
        rewrite Hf1' by (apply Hsub1, Hpt). apply Hf1. intros ->. exact (Hc Hpt).
    + split; [|split; [reflexivity|exact Hcin]].
      intros l Hl Hne. simpl. rewrite lookup_total_insert_ne.
      * apply Hf1', Hl.
      * intros <-. exact (Hne pr eq_refl).
  - eexists c, tid, w1, task', _, _. split; [exact Hb|]. split; [exact Hs1|].
    split; [exact He|].
    split; [intros ->; split; [reflexivity|exact Hcprev]|].
    split; [reflexivity|]. split; [|].
    + unfold turn. split; [congruence|].
      split; [|split; [exact Ht'in|split; [exact Ht'out|split; [|split; [|reflexivity]]]]].
      * intros x Hx. apply Hd1', Hsub1, Hx.
      * intros l Hl _. rewrite Hf1' by (apply Hsub1, Hl). apply Hf1.
        intros ->. exact (Hc Hl).
      * intros pt pr [=].
    + split; [|split; [reflexivity|exact Hcin]].
      intros l Hl _. apply Hf1', Hl.
Qed.

Lemma prepared_turn w0 w w2 prev tasks results task' r' :
  prepared w0 w prev tasks results →
  turn prev w w2 task' r' →
  prepared w0 w2 (Some (task', r')) (tasks ++ [task']) (results ++ [r']).
Proof.
  intros (Hk & Ho & Hall & Hnd & Hlen & Hch & Hprev & Hlk)
         (Ho2 & Hsub & Hin & Hout & Hfr & Hln & Hpar).
  assert (Hnotin : task' ∉ tasks).
  { intros Hx. rewrite Forall_forall in Hall. apply Hout, (Hall _ Hx). }
  assert (Hlast : ∀ t pr, prev = Some (t, pr) → t ∈ tasks ∧ t ∉ dom (heap w0)).
  { intros t pr ->. destruct Hprev as [Hl _].
    assert (Ht : t ∈ tasks).
    { apply last_Some in Hl as [l' ->]. apply elem_of_app. right.
      apply list_elem_of_singleton. reflexivity. }
    rewrite Forall_forall in Hall. split; [exact Ht|apply (Hall _ Ht)]. }
  unfold prepared. split; [|split; [|split; [|split; [|split; [|split; [|split]]]]]].
  - destruct Hk as [D K]. split; [intros x Hx; apply Hsub, D, Hx|].
    intros l Hl. rewrite Hfr; [apply K, Hl|apply D, Hl|].
    intros pr E. destruct (Hlast _ _ E) as [_ Hn]. exact (Hn Hl).
  - congruence.
  - apply Forall_app. split.
    + eapply Forall_impl; [exact Hall|]. intros t [H1 H2]. split; [apply Hsub, H1|exact H2].
    + constructor; [|constructor]. split; [exact Hin|].
      intros Hx. apply Hout. destruct Hk as [D _]. apply D, Hx.
  - apply NoDup_app. split; [exact Hnd|]. split.
    + intros x Hx Hx'. apply list_elem_of_singleton in Hx'. subst. exact (Hnotin Hx).
    + apply NoDup_singleton.
  - rewrite !length_app. simpl. lia.
  - apply chained_snoc; [exact Hch|]. rewrite Hpar.
    destruct prev as [[pt pr]|]; simpl.
    + destruct Hprev as [_ ->]. reflexivity.
    + destruct Hprev as [_ ->]. reflexivity.
  - split; apply last_snoc.
  - intros i t t' Hi Hsi.
    destruct (decide (S i < length tasks)) as [Hlt|Hge].
    + rewrite lookup_app_l in Hi by lia. rewrite lookup_app_l in Hsi by lia.
      destruct (Hlk i t t' Hi Hsi) as [items Hit]. exists items.
      rewrite Hfr; [exact Hit| |].
      * rewrite Forall_forall in Hall. apply Hall. eapply list_elem_of_lookup_2, Hi.
      * intros pr E. subst prev. destruct Hprev as [Hl _].
        rewrite last_lookup in Hl.
        assert (Hij : i = pred (length tasks)).
        { eapply NoDup_lookup; [exact Hnd|exact Hi|exact Hl]. }
        lia.
    + assert (Hsi' : S i = length tasks).
      { apply lookup_lt_Some in Hi. rewrite length_app in Hi. simpl in Hi.
        apply lookup_lt_Some in Hsi. rewrite length_app in Hsi. simpl in Hsi. lia. }
      rewrite lookup_app_r in Hsi by lia. rewrite Hsi' in Hsi.
      rewrite Nat.sub_diag in Hsi. injection Hsi as <-.
      rewrite lookup_app_l in Hi by lia.
      destruct prev as [[pt pr]|].
      * destruct Hprev as [Hl _]. rewrite last_lookup in Hl.
        assert (t = pt).
        { rewrite <- Hsi' in Hl. simpl in Hl. congruence. }
        subst t. rewrite (Hln pt pr eq_refl). unfold with_link. simpl.
        rewrite lookup_insert_eq. eauto.
      * destruct Hprev as [-> _]. simpl in Hsi'. lia.
Qed.

Lemma prepared_prev_in_dom w0 w prev tasks results :
  prepared w0 w prev tasks results →
  ∀ pt pr, prev = Some (pt, pr) → pt ∈ dom (heap w).
Proof.
  intros (_ & _ & Hall & _ & _ & _ & Hprev & _) pt pr ->.
  destruct Hprev as [Hl _]. apply last_Some in Hl as [l' ->].
  apply Forall_app in Hall as [_ Hall]. inversion Hall; subst. tauto.
Qed.

Lemma prepare_loop_prepared w0 args n : ∀ steps i ns prev tasks results w,
  length steps ≤ n →
  prepared w0 w prev tasks results →
  ∃ ts rs w' prev',
    Chain.prepare_loop args steps i ns prev tasks results w = (Ok (ts, rs), w') ∧
    prepared w0 w' prev' ts rs ∧
    length ts ≤ length tasks + length steps.
Proof.
  induction n as [|n IH]; intros steps i ns prev tasks results w Hn Hinv.
  - destruct steps; [|simpl in Hn; lia]. exists tasks, results, w, prev. simpl.
    split; [reflexivity|]. split; [exact Hinv|lia].
  - destruct steps as [|step steps].
    { exists tasks, results, w, prev. simpl.
      split; [reflexivity|]. split; [exact Hinv|lia]. }
    simpl in Hn. cbn [Chain.prepare_loop].
    assert (Hgo : ∀ ns' rest, length rest ≤ n → length rest ≤ length steps →
      ∃ c tid w1,
        Chain.begin_step args i step w = (Ok (c, tid, Result.AsyncResult tid), w1) ∧
        ∃ ts rs w' prev',
          (x ← Chain.end_step c tid (Result.AsyncResult tid) ns' prev;
           let '(task0, res0) := x in
           Chain.prepare_loop args rest (S i) ns' (Some (task0, res0))
             (tasks ++ [task0]) (results ++ [res0])) w1 = (Ok (ts, rs), w') ∧
          prepared w0 w' prev' ts rs ∧
          length ts ≤ length tasks + S (length steps)).
    { intros ns' rest Hr Hr'.
      destruct (turn_begin_end args i step ns' prev w
                  (prepared_prev_in_dom _ _ _ _ _ Hinv))
        as (c & tid & w1 & t' & r' & w2 & Hb & Hs & He & _ & _ & Ht & _).
      exists c, tid, w1. split; [exact Hb|].
      pose proof (prepared_turn _ _ _ _ _ _ _ _ Hinv Ht) as Hinv2.
      destruct (IH rest (S i) ns' (Some (t', r')) (tasks ++ [t']) (results ++ [r']) w2
                  Hr Hinv2) as (ts & rs & w' & prev' & Hl & Hinv3 & Hlen).
      exists ts, rs, w', prev'. unfold mbind at 1, M_bind at 1. rewrite He.
      split; [exact Hl|]. split; [exact Hinv3|].
      rewrite length_app in Hlen. simpl in Hlen. lia. }
    destruct (Hgo ns steps ltac:(lia) ltac:(lia)) as (c & tid & w1 & Hb & _).
    unfold mbind at 1, M_bind at 1. rewrite Hb.
    unfold mbind at 1, M_bind at 1. unfold deref at 1.
    destruct (is_group (subtask_type (heap w1 !!! c))).
    + destruct steps as [|body steps'].
      * destruct (Hgo None [] ltac:(simpl; lia) ltac:(simpl; lia))
          as (c' & tid' & w1' & Hb' & ts & rs & w' & prev' & H & Hp & Hlen).
        rewrite Hb in Hb'.
        assert (Ec : c' = c) by congruence. assert (Ew : w1' = w1) by congruence.
        assert (Et : tid' = tid) by congruence. subst c' tid' w1'.
        exists ts, rs, w', prev'. split; [exact H|]. split; [exact Hp|]. simpl in Hlen |- *. lia.
      * destruct (Hgo (Some body) steps' ltac:(simpl in Hn; lia) ltac:(simpl; lia))
          as (c' & tid' & w1' & Hb' & ts & rs & w' & prev' & H & Hp & Hlen).
        rewrite Hb in Hb'.
        assert (Ec : c' = c) by congruence. assert (Ew : w1' = w1) by congruence.
        assert (Et : tid' = tid) by congruence. subst c' tid' w1'.
        exists ts, rs, w', prev'. split; [exact H|]. split; [exact Hp|]. simpl in Hlen |- *. lia.
    + destruct (Hgo ns steps ltac:(lia) ltac:(lia))
        as (c' & tid' & w1' & Hb' & ts & rs & w' & prev' & H & Hp & Hlen).
      rewrite Hb in Hb'.
        assert (Ec : c' = c) by congruence. assert (Ew : w1' = w1) by congruence.
        assert (Et : tid' = tid) by congruence. subst c' tid' w1'.
      exists ts, rs, w', prev'. split; [exact H|]. split; [exact Hp|]. simpl in Hlen |- *. lia.
Qed.

Lemma copy_of_with_link a s s' r t :
  copy_of a s s' r → copy_of a s (with_link t s') r.
Proof.
  intros (H1 & H2 & H3 & H4 & H5 & H6 & H7). unfold with_link, copy_of. simpl.
  repeat split; try assumption.
  - rewrite lookup_insert_ne by done. exact H5.
  - intros k Hk1 Hk2. rewrite lookup_insert_ne by congruence. apply H7; assumption.
Qed.

Lemma copy_of_begin a s w r :
  let s0 := cloned a s in
  res_id r = step_tid w s0 →
  copy_of a s
    (if is_none (default VNone (options s0 !! "task_id"))
     then with_options (insert "task_id" (step_tid w s0)) s0 else s0) r.
Proof.
  intros s0 Hr. unfold copy_of. rewrite Hr. unfold step_tid.
  change (options s0) with (options s).
  destruct (options s !! "task_id") as [t|] eqn:Et; simpl.
  - destruct (is_none t) eqn:En; simpl.
    + repeat split; try reflexivity.
      * apply lookup_insert_eq.
      * intros tid [= <-] Hn. congruence.
      * intros k Hk _. apply lookup_insert_ne. congruence.
    + repeat split; try reflexivity.
      * exact Et.
      * intros tid [= <-] _. reflexivity.
  - repeat split; try reflexivity.
    + apply lookup_insert_eq.
    + intros tid [=].
    + intros k Hk _. apply lookup_insert_ne. congruence.
Qed.

Lemma prepare_loop_plain w0 args steps : ∀ done prev tasks results w,
  Forall (λ l, l ∈ dom (heap w0) ∧
               is_group (subtask_type (heap w0 !!! l)) = false) steps →
  prepared w0 w prev tasks results →
  copies w0 w args done tasks results →
  ∃ ts rs w' prev',
    Chain.prepare_loop args steps (length done) None prev tasks results w
      = (Ok (ts, rs), w') ∧
    prepared w0 w' prev' ts rs ∧
    copies w0 w' args (done ++ steps) ts rs.
Proof.
  induction steps as [|step rest IH]; intros done prev tasks results w Hst Hinv Hcp.
  - exists tasks, results, w, prev. rewrite app_nil_r.
    split; [reflexivity|]. split; [exact Hinv|exact Hcp].
  - apply Forall_cons in Hst as [[Hsd Hsg] Hst].
    cbn [Chain.prepare_loop].
    destruct (turn_begin_end args (length done) step None prev w
                (prepared_prev_in_dom _ _ _ _ _ Hinv))
      as (c & tid & w1 & t' & r' & w2 & Hb & Hs & He & Hnone & Hid & Ht & Hfr
          & Htid & Hcin).
    destruct (Hnone eq_refl) as [-> Hcprev].
    unfold mbind at 1, M_bind at 1. rewrite Hb.
    unfold mbind at 1, M_bind at 1. unfold deref at 1.
    assert (Hk : heap w !!! step = heap w0 !!! step).
    { destruct Hinv as ([_ K] & _). apply K, Hsd. }
    assert (Hg : is_group (subtask_type (heap w1 !!! c)) = false).
    { rewrite Hs. cbv zeta. destruct (is_none _); simpl; rewrite Hk; exact Hsg. }
    rewrite Hg.
    unfold mbind at 1, M_bind at 1. rewrite He.
    pose proof (prepared_turn _ _ _ _ _ _ _ _ Hinv Ht) as Hinv2.
    assert (Hcp2 : copies w0 w2 args (done ++ [step]) (tasks ++ [c]) (results ++ [r'])).
    { destruct Hcp as (L1 & L2 & Hcp). unfold copies.
      rewrite !length_app. simpl. split; [lia|]. split; [lia|].
      intros j l t r Hj Htj Hrj.
      destruct (decide (j < length done)) as [Hlt|Hge].
      - rewrite lookup_app_l in Hj by lia. rewrite lookup_app_l in Htj by lia.
        rewrite lookup_app_l in Hrj by lia.
        pose proof (Hcp j l t r Hj Htj Hrj) as Hold.
        assert (Htd : t ∈ dom (heap w)).
        { destruct Hinv as (_ & _ & Hall & _). rewrite Forall_forall in Hall.
          apply Hall. eapply list_elem_of_lookup_2, Htj. }
        destruct Ht as (_ & _ & _ & _ & Hframe & Hlink & _).
        destruct prev as [[pt pr]|].
        + destruct (decide (t = pt)) as [->|Hne].
          * rewrite (Hlink pt pr eq_refl). apply copy_of_with_link, Hold.
          * rewrite Hframe; [exact Hold|exact Htd|]. intros pr' [= E _]. congruence.
        + rewrite Hframe; [exact Hold|exact Htd|]. intros pr' [=].
      - assert (Ej : j = length done).
        { apply lookup_lt_Some in Hj. rewrite length_app in Hj. simpl in Hj. lia. }
        subst j.
        rewrite lookup_app_r in Hj by lia. rewrite Nat.sub_diag in Hj.
        injection Hj as <-.
        rewrite lookup_app_r in Htj by lia. rewrite L1, Nat.sub_diag in Htj.
        injection Htj as <-.
        rewrite lookup_app_r in Hrj by lia. rewrite L2, Nat.sub_diag in Hrj.
        injection Hrj as <-.
        rewrite (Hfr c Hcin Hcprev), Hs, Hk.
        apply copy_of_begin. rewrite Hid, Htid, Hk. reflexivity. }
    destruct (IH (done ++ [step]) (Some (c, r')) (tasks ++ [c]) (results ++ [r']) w2
                Hst Hinv2 Hcp2) as (ts & rs & w' & prev' & Hl & Hinv3 & Hcp3).
    rewrite length_app in Hl. simpl in Hl. rewrite Nat.add_1_r in Hl.
    rewrite <- app_assoc in Hcp3. simpl in Hcp3.
    exists ts, rs, w', prev'. split; [exact Hl|]. split; [exact Hinv3|exact Hcp3].
Qed.

Lemma carried_member_execute stamp w w' l a :
  carried stamp w w' → l ∈ dom (heap w) →
  member_execute a (heap w' !!! l) = member_execute a (heap w !!! l).
Proof.
  intros [_ C] Hl. destruct (C l Hl) as (Ht & Ha & Hk & _).
  unfold member_execute. rewrite Ht, Ha, Hk. reflexivity.
Qed.

Lemma holds_ready be r x : holds r x → Result.ready be r = true.
Proof.
  unfold Result.ready, Result.meta_of. destruct x; simpl; intros ->; reflexivity.
Qed.

Lemma join_outcome_cons be r rs :
  join_outcome be (r :: rs) true =
    if is_failure (Result.meta_of be r)
    then Raise (Raised (result (Result.meta_of be r)))
    else match join_outcome be rs true with
         | Ok vs => Ok (result (Result.meta_of be r) :: vs)
         | Raise e => Raise e
         end.
Proof.
  unfold join_outcome, first_failure, values. rewrite !fmap_cons. cbn [find].
  destruct (is_failure (Result.meta_of be r)); [reflexivity|].
  destruct (find is_failure (Result.meta_of be <$> rs)); reflexivity.
Qed.

Lemma join_outcome_gather be rs xs :
  Forall2 holds rs xs →
  forallb (Result.ready be) rs = true ∧ join_outcome be rs true = gather xs.
Proof.
  induction 1 as [|r x rs xs Hr _ [IH1 IH2]]; [split; reflexivity|].
  split.
  - simpl. rewrite (holds_ready be r x Hr), IH1. reflexivity.
  - rewrite join_outcome_cons, IH2. unfold is_failure, Result.meta_of.
    destruct x as [v|e]; simpl in Hr; rewrite Hr; reflexivity.
Qed.

(** [Chord.run] with [eager=True], on header members that exist. *)
Lemma chord_run_eager_executed app header body pa interval mr propagate w :
  header ≠ [] →
  Forall (λ l, l ∈ dom (heap w)) header →
  let gid := VStr (uuid4 (uuid_ctr w)) in
  ∃ a g w',
    Chord.run app header body pa interval mr propagate true w = (Ok g, w') ∧
    gr_id g = gid ∧
    carried (chord_stamp gid body) w w' ∧
    Forall2 (λ l r, holds r (call app (heap w !!! l) pa)) header (gr_results g) ∧
    outbox w' = outbox w ++
      Execute "celery.group" a ∅
      :: ((λ l, member_execute pa (heap w !!! l)) <$> header).
Proof.
  intros Hne Hdom gid. unfold Chord.run, uuid. munfold. simpl.
  fold gid. fold (header_options gid). fold (drawn w).
  destruct (mapM_tag id (λ _ _, True) (chord_stamp gid body)
              (Chord.tag_member gid body) (chord_stamp_no_tid gid body)
              (tag_member_spec gid body) header (drawn w))
    as (rs & w1 & Hm & Ho1 & Hc1 & Hall1).
  rewrite Hm.
  assert (Hc01 : carried (chord_stamp gid body) w w1).
  { destruct Hc1 as [D C]. split; [exact D|exact C]. }
  assert (Hdom1 : Forall (λ l, l ∈ dom (heap w1)) header).
  { eapply Forall_impl; [exact Hdom|]. intros l Hl. destruct Hc01 as [D _].
    apply D, Hl. }
  destruct (group_apply_executed app pa header (header_options gid) w1 Hne Hdom1)
    as (ms & g & w' & Ha & Hid & Hx & Ho & Hc & _).
  rewrite Ha. eexists _, g, w'. split; [reflexivity|]. split; [exact Hid|].
  split; [eapply carried_trans; [exact Hc01|apply carried_group_chord, Hc]|].
  split.
  - clear - Hx Hdom Hc01. revert Hdom.
    induction Hx as [|l r ls rs' [_ H] _ IH]; intros Hd; [constructor|].
    apply Forall_cons in Hd as [Hl Hd]. constructor; [|apply IH, Hd].
    rewrite <- (carried_call app _ _ _ l pa Hc01 Hl). exact H.
  - rewrite Ho, Ho1. simpl. f_equal. f_equal.
    apply Forall_fmap_ext_1. eapply Forall_impl; [exact Hdom|].
    intros l Hl. simpl. apply (carried_member_execute _ _ _ _ _ Hc01 Hl).
Qed.

Section EmitsOnly.
Context (ok : Event → bool).

Lemma eo_ret {A} (a : A) : emits_only ok (mret a).
Proof. intros w. exists []. simpl. rewrite app_nil_r. split; reflexivity. Qed.

Lemma eo_raise {A} e : emits_only ok (raise e : M A).
Proof. intros w. exists []. simpl. rewrite app_nil_r. split; reflexivity. Qed.

Lemma eo_bind {A B} (m : M A) (k : A → M B) :
  emits_only ok m → (∀ a, emits_only ok (k a)) → emits_only ok (m ≫= k).
Proof.
  intros Hm Hk w. destruct (Hm w) as (e1 & H1 & F1).
  unfold mbind, M_bind. destruct (m w) as [[a|e] w1]; simpl in *.
  - destruct (Hk a w1) as (e2 & H2 & F2). exists (e1 ++ e2).
    rewrite H2, H1, app_assoc. split; [reflexivity|].
    rewrite forallb_app, F1, F2. reflexivity.
  - exists e1. split; assumption.
Qed.

Lemma eo_emit ev : ok ev = true → emits_only ok (emit ev).
Proof. intros H w. exists [ev]. simpl. rewrite H. split; reflexivity. Qed.

Lemma eo_same {A} (m : M A) : (∀ w, outbox (m w).2 = outbox w) → emits_only ok m.
Proof. intros H w. exists []. rewrite app_nil_r. split; [apply H|reflexivity]. Qed.

Lemma eo_uuid : emits_only ok uuid.
Proof. apply eo_same. reflexivity. Qed.

Lemma eo_deref l : emits_only ok (deref l).
Proof. apply eo_same. reflexivity. Qed.

Lemma eo_alloc s : emits_only ok (alloc s).
Proof. apply eo_same. reflexivity. Qed.

Lemma eo_set_option l k v : emits_only ok (set_option l k v).
Proof. apply eo_same. reflexivity. Qed.

Lemma eo_get_option l k : emits_only ok (get_option l k).
Proof. apply eo_same. reflexivity. Qed.

Lemma eo_mapM {A B} (f : A → M B) xs :
  (∀ x, emits_only ok (f x)) → emits_only ok (mapM f xs).
Proof.
  intros Hf. induction xs as [|x xs IH]; simpl.
  - apply eo_ret.
  - apply eo_bind; [apply Hf|]. intros y. apply eo_bind; [exact IH|].
    intros ys. apply eo_ret.
Qed.

Lemma eo_clone l a : emits_only ok (Canvas.clone l a).
Proof. apply eo_same. reflexivity. Qed.

Lemma eo_link l c : emits_only ok (Canvas.link l c).
Proof. apply eo_same. reflexivity. Qed.

Lemma eo_prepare_member gid l : emits_only ok (Group.prepare_member gid l).
Proof.
  apply eo_same. intros w.
  destruct (prepare_member_spec gid l w) as (b & w' & -> & _ & _ & _ & Ho & _).
  exact Ho.
Qed.

Lemma eo_tag_member gid body l : emits_only ok (Chord.tag_member gid body l).
Proof.
  apply eo_same. intros w.
  destruct (tag_member_spec gid body l w) as (b & w' & -> & _ & _ & _ & Ho & _).
  exact Ho.
Qed.

Lemma eo_prepare options tasks args : emits_only ok (Group.prepare options tasks args).
Proof.
  unfold Group.prepare. apply eo_bind; [apply eo_uuid|]. intros u.
  apply eo_bind; [apply eo_mapM, eo_prepare_member|]. intros [|m ms].
  - apply eo_raise.
  - apply eo_ret.
Qed.

Lemma eo_prepare_steps args tasks : emits_only ok (Chain.prepare_steps args tasks).
Proof.
  apply eo_same. intros w.
  destruct (prepare_steps_spec args tasks w) as (ts & rs & w' & -> & _ & Ho & _).
  exact Ho.
Qed.

Lemma eo_get be propagate r : emits_only ok (Result.get be propagate r).
Proof.
  apply eo_same. intros w. unfold Result.get.
  destruct (status _); try reflexivity. destruct propagate; reflexivity.
Qed.

End EmitsOnly.

Lemma eo_task_apply app name a kw opts :
  emits_only is_local (Task.apply app name a kw opts).
Proof.
  unfold Task.apply. apply eo_bind.
  - destruct (truthy _); [apply eo_ret|apply eo_uuid].
  - intros tid. apply eo_bind; [apply eo_emit; reflexivity|]. intros _. apply eo_ret.
Qed.

Lemma eo_canvas_apply app l a o : emits_only is_local (Canvas.apply app l a o).
Proof.
  unfold Canvas.apply. apply eo_bind; [apply eo_deref|]. intros s.
  apply eo_task_apply.
Qed.

Lemma eo_join be g propagate : emits_only is_local (Result.join be g propagate).
Proof.
  unfold Result.join. apply eo_bind; [apply eo_emit; reflexivity|]. intros _.
  apply eo_mapM. intros r. apply eo_get.
Qed.

Lemma eo_join_native be g propagate :
  emits_only is_local (Result.join_native be g propagate).
Proof.
  unfold Result.join_native. apply eo_bind; [apply eo_emit; reflexivity|]. intros _.
  destruct (negb _); [apply eo_raise|].
  destruct (if propagate then _ else _); [apply eo_raise|apply eo_ret].
Qed.

Lemma eo_group_run_eager app in_worker tasks result gid pa :
  emits_only is_local (Group.run app true in_worker tasks result gid pa).
Proof.
  unfold Group.run. simpl. apply eo_bind.
  - apply eo_mapM. intros l. apply eo_bind; [apply eo_clone|]. intros t.
    apply eo_canvas_apply.
  - intros rs. apply eo_ret.
Qed.

Lemma eo_group_apply app args tasks options :
  emits_only is_local (Group.apply app args tasks options).
Proof.
  unfold Group.apply. apply eo_bind; [apply eo_prepare|].
  intros [[[[ts result] gid] a] o].
  apply eo_bind; [apply eo_emit; reflexivity|]. intros _.
  apply eo_group_run_eager.
Qed.

Lemma eo_apply_loop app tasks : ∀ prev,
  emits_only is_local (Chain.apply_loop app tasks prev).
Proof.
  induction tasks as [|t tasks IH]; intros prev; simpl.
  - apply eo_ret.
  - apply eo_bind.
    + destruct prev as [p|]; [|apply eo_ret].
      apply eo_bind; [apply eo_get|]. intros v. apply eo_ret.
    + intros a. apply eo_bind; [apply eo_canvas_apply|]. intros res. apply IH.
Qed.

Lemma eo_chain_apply app args tasks options :
  emits_only is_local (Chain.apply app args tasks options).
Proof.
  unfold Chain.apply. apply eo_bind.
  - apply eo_mapM. intros l. apply eo_bind; [apply eo_ret|]. intros t. apply eo_clone.
  - intros cs. apply eo_apply_loop.
Qed.

Lemma eo_chord_run_eager app header body pa interval mr propagate :
  emits_only is_local (Chord.run app header body pa interval mr propagate true).
Proof.
  unfold Chord.run. apply eo_bind; [apply eo_uuid|]. intros gid.
  apply eo_bind; [apply eo_mapM, eo_tag_member|]. intros r.
  apply eo_group_apply.
Qed.

Lemma eo_chord_apply app args header body propagate options :
  emits_only is_local (Chord.apply app args header body propagate options).
Proof.
  unfold Chord.apply. destruct args as [|x args]; [|apply eo_raise].
  apply eo_bind; [apply eo_emit; reflexivity|]. intros _.
  apply eo_bind; [apply eo_chord_run_eager|]. intros res.
  apply eo_bind.
  - destruct (Result.supports_native_join _); [apply eo_join_native|apply eo_join].
  - intros vs. apply eo_bind; [apply eo_ret|]. intros b. apply eo_canvas_apply.
Qed.

Lemma eo_task_apply_async name a kw opts :
  emits_only is_publish (Task.apply_async name a kw opts).
Proof.
  unfold Task.apply_async. apply eo_bind.
  - destruct (truthy _); [apply eo_ret|apply eo_uuid].
  - intros tid. apply eo_bind; [apply eo_emit; reflexivity|]. intros _. apply eo_ret.
Qed.

Lemma eo_canvas_apply_async l a o : emits_only is_publish (Canvas.apply_async l a o).
Proof.
  unfold Canvas.apply_async. apply eo_bind; [apply eo_deref|]. intros s.
  apply eo_task_apply_async.
Qed.

Lemma eo_last_item ok {A} (xs : list A) : emits_only ok (Chain.last_item xs).
Proof. unfold Chain.last_item. destruct (last xs); [apply eo_ret|apply eo_raise]. Qed.

Lemma eo_first_item ok {A} (xs : list A) : emits_only ok (Chain.first_item xs).
Proof. unfold Chain.first_item. destruct xs; [apply eo_raise|apply eo_ret]. Qed.

Lemma eo_set_last ok (v : pyval) (k : string) (tasks : list loc) :
  emits_only ok
    (if truthy v then t ← Chain.last_item tasks; Canvas.set t k v else mret tt).
Proof.
  destruct (truthy v); [|apply eo_ret].
  apply eo_bind; [apply eo_last_item|]. intros t. apply eo_set_option.
Qed.

Lemma prepare_steps_chained args steps w ts rs w' :
  Chain.prepare_steps args steps w = (Ok (ts, rs), w') → chained None rs.
Proof.
  intros H.
  assert (Hinit : prepared w w None [] []).
  { unfold prepared. split; [apply kept_refl|]. split; [reflexivity|].
    split; [constructor|]. split; [constructor|]. split; [reflexivity|].
    split; [exact I|]. split; [split; reflexivity|].
    intros i t t' Hi. discriminate. }
  destruct (prepare_loop_prepared w args (length steps) steps 0 None None [] [] w
              (le_n _) Hinit)
    as (ts' & rs' & w'' & prev' & Hl & (_ & _ & _ & _ & _ & Hch & _) & _).
  unfold Chain.prepare_steps in H. rewrite Hl in H. injection H as <- <- <-.
  exact Hch.
Qed.

Lemma lineage_parent r : lineage r = r :: ancestry (res_parent r).
Proof. destruct r as [i e [p|]]; reflexivity. Qed.

Lemma chained_lineage rs : ∀ p r,
  chained p rs → last rs = Some r → lineage r = reverse rs ++ ancestry p.
Proof.
  induction rs as [|x rs IH]; intros p r Hc Hl; [discriminate|].
  destruct Hc as [Hx Hc]. destruct rs as [|y rs].
  - injection Hl as <-. rewrite lineage_parent, Hx. reflexivity.
  - rewrite last_cons in Hl.
    assert (Hl' : last (y :: rs) = Some r).
    { destruct (last (y :: rs)) eqn:E; [exact Hl|].
      apply last_None in E. discriminate. }
    rewrite (IH (Some x) r Hc Hl'). simpl ancestry.
    rewrite lineage_parent, Hx. rewrite (reverse_cons _ x), <- app_assoc.
    reflexivity.
Qed.

(** ** The properties of the specification *)





(** C3 (the code departs from the claim). [Chain.prepare_steps] on
    [chain(group(a, b), c, d)]: the group is composed into a chord with
    body [c], as the claim says; but [next_step] still holds [c] at the
    next turn of the loop, so the plain task [d] is composed into a chord
    too, with header [d] and body [c], and linked from the first chord.
    The claim allows a chord only for a group that has a following
    step. *)
Theorem Chain_prepare_steps_stale_next_step :
  let '(r, w') :=
    Chain.prepare_steps [] [2; 3; 4] (Examples.world Examples.canvas) in
  ∃ r0 r1,
    r = Ok ([6; 8], [r0; r1]) ∧
    subtask_type (heap w' !!! 6) = kind_chord ∧
    kwargs (heap w' !!! 6) !! "header" = Some (VRef 5) ∧
    kwargs (heap w' !!! 6) !! "body" = Some (VRef 3) ∧
    subtask_type (heap w' !!! 5) = kind_group ∧
    subtask_type (heap w' !!! 8) = kind_chord ∧
    kwargs (heap w' !!! 8) !! "header" = Some (VRef 7) ∧
    kwargs (heap w' !!! 8) !! "body" = Some (VRef 3) ∧
    task (heap w' !!! 7) = "d" ∧
    subtask_type (heap w' !!! 7) = kind_task ∧
    Py.options (heap w' !!! 6) !! "link" = Some (VList [VRef 8]).
Proof. vm_compute. eexists _, _. repeat split. Qed.

(** C4 (the code departs from the claim). [Chain.apply] never reads its
    [args]: for the chain of the one step [add.s(2)] and the initial
    arguments [(1,)], manual application gives [add(1, 2) = 3], while the
    eager chain calls [add(2)] and returns 2. *)
Theorem Chain_apply_drops_initial_args :
  let h : gmap loc Signature := <[0 := Examples.sig "add" [VInt 2]]> ∅ in
  manual_application Examples.app [Examples.sig "add" [VInt 2]] [VInt 1]
    = Some (Task.Returned (VInt 3)) ∧
  ∃ r, fst (Chain.apply Examples.app [VInt 1] [0] ∅ (Examples.world h)) = Ok (Some r) ∧
       res_eager r = Some (SUCCESS, VInt 2).
Proof. vm_compute. split; [reflexivity|]. eexists. split; reflexivity. Qed.

(** C5. [unlock_chord] on a header that is ready: the one join it calls
    is the native one exactly when the group result supports it. With
    [propagate=True] and a header member in FAILURE state, the join
    raises and nothing is published. With [propagate=False] the join
    returns one value per member, each at its member's position (for a
    failed member, the exception instance it stored), and the callback
    is published with that list. *)
Theorem unlock_chord_join_respects_propagate be req gid cb interval propagate mr ids w :
  Result.group_ready be (header_of gid ids) = true →
  let vs := values be (gr_results (header_of gid ids)) in
  ∃ r w' evs,
    unlock_chord be req gid cb interval propagate mr ids w = (r, w') ∧
    outbox w' = outbox w ++ Join (Result.supports_native_join be) ids propagate :: evs ∧
    (propagate = true →
       (∃ id, id ∈ ids ∧ status (Result.get_task_meta be id) = FAILURE) →
       (∃ e, r = Raise (Raised e)) ∧ evs = []) ∧
    (propagate = false →
       r = Ok tt ∧ evs = [callback_message cb vs] ∧
       length vs = length ids ∧
       ∀ i id, ids !! i = Some id →
         vs !! i = Some (result (Result.get_task_meta be id))).
Proof.
  intros Hr vs.
  destruct (unlock_chord_outcome be req gid cb interval propagate mr ids w)
    as (w' & Hu & Ho & _).
  unfold unlock_chord_trace in Hu, Ho. rewrite Hr, header_ids in Hu, Ho.
  destruct propagate.
  - destruct (join_outcome be _ true) as [vs'|e] eqn:Hj; simpl in Hu, Ho.
    + eexists _, w', _. split; [exact Hu|]. split; [exact Ho|].
      split; [|discriminate]. intros _ Hfail.
      destruct (first_failure_exists be ids gid Hfail) as [e He].
      unfold join_outcome in Hj. rewrite He in Hj. discriminate.
    + eexists _, w', _. split; [exact Hu|]. split; [exact Ho|].
      split; [|discriminate]. intros _ _. split; [|reflexivity].
      apply join_outcome_raise in Hj as [v ->]. eauto.
  - simpl in Hu, Ho. eexists _, w', _. split; [exact Hu|]. split; [exact Ho|].
    split; [discriminate|]. intros _. split; [reflexivity|]. split; [reflexivity|].
    split; [apply values_length|]. intros i id. apply values_lookup.
Qed.

Lemma unlock_chord_join_respects_propagate_witness :
  ∃ r w' evs,
    unlock_chord (Result.mkBackend false Samples.settled) (Task.mkRequest 0)
      (VStr "g") Samples.body (VInt 1) false VNone Samples.ids Samples.idle = (r, w') ∧
    r = Ok tt ∧
    evs = [callback_message Samples.body [VInt 1; VExc "boom"]].
Proof.
  destruct (unlock_chord_join_respects_propagate
              (Result.mkBackend false Samples.settled) (Task.mkRequest 0)
              (VStr "g") Samples.body (VInt 1) false VNone Samples.ids Samples.idle)
    as (r & w' & evs & Hu & _ & _ & Hp).
  - reflexivity.
  - destruct (Hp eq_refl) as (Hr & He & _).
    exists r, w', evs. split; [exact Hu|]. split; [exact Hr|exact He].
Defined.

(** C6 (the code departs from the claim). For a group of no members,
    [Group.apply_async] returns no GroupResult: [prepare] unpacks the zip
    of no pairs into two names and raises [ValueError], in eager mode and
    otherwise. The claim promises a result of exactly N children for
    every N. *)
Theorem Group_apply_async_empty_group app partial_args options w :
  fst (Group.apply_async app partial_args [] options w) = Raise ValueError.
Proof.
  unfold Group.apply_async, Group.apply.
  destruct (Task.CELERY_ALWAYS_EAGER app); reflexivity.
Qed.







(** C10. [Group.apply_async] and [Chord.run] write on the caller's own
    Signature objects: after the call, the object at a member's
    reference has [group_id] in its options (and [chord], the body, for
    a chord), has a task id, the one it had if it had one, and is
    otherwise as it was (other options, task, args, kwargs). When nothing
    is executed eagerly no object is created: the store holds the same
    references as before, with the members'. *)
Theorem members_are_written_in_place :
  (∀ app partial_args tasks options w l,
     l ∈ tasks → l ∈ dom (heap w) →
     let w' := snd (Group.apply_async app partial_args tasks options w) in
     let group_id := prepared_group_id options w in
     let s := heap w !!! l in
     let s' := heap w' !!! l in
     Py.options s' !! "group_id" = Some group_id ∧
     is_Some (Py.options s' !! "task_id") ∧
     (∀ t, Py.options s !! "task_id" = Some t → Py.options s' !! "task_id" = Some t) ∧
     (∀ k, k ≠ "group_id" → k ≠ "task_id" → Py.options s' !! k = Py.options s !! k) ∧
     task s' = task s ∧ args s' = args s ∧ kwargs s' = kwargs s ∧
     (Task.CELERY_ALWAYS_EAGER app = false →
        dom (heap w') = list_to_set tasks ∪ dom (heap w)))
  ∧
  (∀ app header body partial_args interval max_retries propagate eager w l,
     l ∈ header → l ∈ dom (heap w) →
     let w' := snd (Chord.run app header body partial_args interval max_retries
                      propagate eager w) in
     let group_id := VStr (uuid4 (uuid_ctr w)) in
     let s := heap w !!! l in
     let s' := heap w' !!! l in
     Py.options s' !! "group_id" = Some group_id ∧
     Py.options s' !! "chord" = Some (VRef body) ∧
     is_Some (Py.options s' !! "task_id") ∧
     (∀ t, Py.options s !! "task_id" = Some t → Py.options s' !! "task_id" = Some t) ∧
     (∀ k, k ≠ "group_id" → k ≠ "chord" → k ≠ "task_id" →
        Py.options s' !! k = Py.options s !! k) ∧
     task s' = task s ∧ args s' = args s ∧ kwargs s' = kwargs s ∧
     (eager = false → Task.CELERY_ALWAYS_EAGER app = false →
        dom (heap w') = list_to_set header ∪ dom (heap w))).
Proof.
  split.
  - intros app partial_args tasks options w l Hl Hd w' group_id s s'.
    subst s s' w' group_id.
    assert (Hne : tasks ≠ []) by (intros ->; inversion Hl).
    destruct (group_apply_async_members app partial_args tasks options w Hne)
      as ([_ Hc] & (ms & Hall) & Hdom).
    destruct (tagged_member _ _ _ _ _ _ l Hall Hl)
      as (b & _ & _ & (tid & Ht & _) & Hs).
    destruct (Hc l Hd) as (a1 & a2 & a3 & _ & a5 & _ & a7).
    split; [apply Hs; reflexivity|]. split; [rewrite Ht; eauto|].
    split; [exact a5|]. split.
    { intros k Hk1 Hk2. apply a7; [exact Hk2|].
      unfold group_stamp. rewrite lookup_insert_ne by done. apply lookup_empty. }
    split; [exact a1|]. split; [exact a2|]. split; [exact a3|exact Hdom].
  - intros app header body pa interval mr propagate eager w l Hl Hd w' group_id s s'.
    subst s s' w' group_id.
    assert (Hne : header ≠ []) by (intros ->; inversion Hl).
    destruct (chord_run_members app header body pa interval mr propagate eager w Hne)
      as ([_ Hc] & (rs & Hall) & Hdom).
    destruct (tagged_member _ _ _ _ _ _ l Hall Hl)
      as (b & _ & _ & (tid & Ht & _) & Hs).
    destruct (Hc l Hd) as (a1 & a2 & a3 & _ & a5 & _ & a7).
    split; [apply Hs; reflexivity|]. split; [apply Hs; reflexivity|].
    split; [rewrite Ht; eauto|]. split; [exact a5|]. split.
    { intros k Hk1 Hk2 Hk3. apply a7; [exact Hk3|].
      unfold chord_stamp. rewrite !lookup_insert_ne by done. apply lookup_empty. }
    split; [exact a1|]. split; [exact a2|]. split; [exact a3|exact Hdom].
Qed.

Lemma members_are_written_in_place_witness :
  Py.options
    (heap (snd (Group.apply_async Examples.app [] [0; 1] ∅
                  (Examples.world Examples.canvas))) !!! 0) !! "group_id"
  = Some (VStr (uuid4 0)).
Proof.
  refine (proj1 (proj1 members_are_written_in_place Examples.app [] [0; 1] ∅
                   (Examples.world Examples.canvas) 0 _ _)).
  - constructor.
  - apply (bool_decide_unpack _). vm_compute. exact I.
Defined.

(** ** Further properties of the code *)

(** X1. [xmap(task, it)], when the task returns on every item: the task
    the signature names is called once per item, in the order of [it],
    with the item as its one positional argument, and the values come
    back as a list in that same order. *)
Theorem xmap_returns_values_in_order app task it vs w :
  Forall2 (λ x v, Task.registry app (Py.task task) [x] ∅ = Task.Returned v) it vs →
  xmap app task it w =
    (Ok (VList vs), log (executions (Py.task task) (singletons it)) w).
Proof.
  intros H. rewrite <- xstarmap_singletons. unfold xstarmap.
  erewrite bind_ok; [reflexivity|].
  apply mapM_call_returns, Forall2_singletons, H.
Qed.

Lemma xmap_returns_values_in_order_witness :
  xmap Picky.app Picky.inv [VInt 3; VInt 5] Samples.idle =
    (Ok (VList [VInt 3; VInt 5]),
     log (executions "inv" [[VInt 3]; [VInt 5]]) Samples.idle).
Proof.
  apply (xmap_returns_values_in_order Picky.app Picky.inv [VInt 3; VInt 5]
           [VInt 3; VInt 5] Samples.idle).
  repeat constructor.
Defined.

(** X2. [xmap(task, it)], when the call on some item raises: the
    exception of the first such item leaves [xmap] as it is, after the
    task has been called on the items up to and including that one, in
    order, and on no later item. *)
Theorem xmap_raises_first_failure app task pre x post vs e w :
  Forall2 (λ x v, Task.registry app (Py.task task) [x] ∅ = Task.Returned v) pre vs →
  Task.registry app (Py.task task) [x] ∅ = Task.Threw e →
  xmap app task (pre ++ x :: post) w =
    (Raise (Raised e), log (executions (Py.task task) (singletons (pre ++ [x]))) w).
Proof.
  intros H He. rewrite <- xstarmap_singletons. unfold xstarmap.
  rewrite singletons_app. unfold singletons at 1. rewrite fmap_app, fmap_cons.
  erewrite bind_raise; [reflexivity|].
  apply (mapM_call_raises app _ _ _ _ vs); [|exact He].
  apply Forall2_singletons, H.
Qed.

Lemma xmap_raises_first_failure_witness :
  xmap Picky.app Picky.inv ([VInt 3] ++ VInt 0 :: [VInt 5]) Samples.idle =
    (Raise (Raised (VExc "ZeroDivisionError")),
     log (executions "inv" [[VInt 3]; [VInt 0]]) Samples.idle).
Proof.
  apply (xmap_raises_first_failure Picky.app Picky.inv [VInt 3] (VInt 0)
           [VInt 5] [VInt 3] (VExc "ZeroDivisionError") Samples.idle).
  - repeat constructor.
  - reflexivity.
Defined.

(** X3. [xstarmap(task, it)], when the task returns on every item: the
    task is called once per item, in order, with the elements of the
    item as its positional arguments, and the values come back as a list
    in that order. *)
Theorem xstarmap_unpacks_each_item app task it vs w :
  Forall2 (λ a v, Task.registry app (Py.task task) a ∅ = Task.Returned v) it vs →
  xstarmap app task it w = (Ok (VList vs), log (executions (Py.task task) it) w).
Proof.
  intros H. unfold xstarmap. erewrite bind_ok; [reflexivity|].
  apply mapM_call_returns, H.
Qed.

Lemma xstarmap_unpacks_each_item_witness :
  xstarmap Examples.app (Examples.sig "add" []) [[VInt 1; VInt 2]; []; [VInt 4]]
    Samples.idle =
    (Ok (VList [VInt 3; VInt 0; VInt 4]),
     log (executions "add" [[VInt 1; VInt 2]; []; [VInt 4]]) Samples.idle).
Proof.
  apply (xstarmap_unpacks_each_item Examples.app (Examples.sig "add" [])
           [[VInt 1; VInt 2]; []; [VInt 4]] [VInt 3; VInt 0; VInt 4] Samples.idle).
  repeat constructor.
Defined.

(** X4. [xstarmap(task, it)], when the call on some item raises: the
    first exception leaves [xstarmap] as it is, and no later item is
    unpacked or called. *)
Theorem xstarmap_raises_first_failure app task pre a post vs e w :
  Forall2 (λ a v, Task.registry app (Py.task task) a ∅ = Task.Returned v) pre vs →
  Task.registry app (Py.task task) a ∅ = Task.Threw e →
  xstarmap app task (pre ++ a :: post) w =
    (Raise (Raised e), log (executions (Py.task task) (pre ++ [a])) w).
Proof.
  intros H He. unfold xstarmap. erewrite bind_raise; [reflexivity|].
  apply (mapM_call_raises app _ _ _ _ vs); assumption.
Qed.

Lemma xstarmap_raises_first_failure_witness :
  xstarmap Picky.app Picky.inv ([[VInt 3]] ++ [VInt 1; VInt 2] :: [[VInt 5]])
    Samples.idle =
    (Raise (Raised (VExc "TypeError")),
     log (executions "inv" [[VInt 3]; [VInt 1; VInt 2]]) Samples.idle).
Proof.
  apply (xstarmap_raises_first_failure Picky.app Picky.inv [[VInt 3]]
           [VInt 1; VInt 2] [[VInt 5]] [VInt 3] (VExc "TypeError") Samples.idle).
  - repeat constructor.
  - reflexivity.
Defined.

(** X5. [xstarmap] on tuples of one element each is [xmap] on the
    elements: same calls, same outcome. Neither reads anything of the
    signature it is given but the task it names. *)
Theorem xstarmap_of_singletons_is_xmap app task task' it w :
  Py.task task' = Py.task task →
  xstarmap app task' (singletons it) w = xmap app task it w.
Proof.
  intros H. rewrite xstarmap_singletons. unfold xmap. rewrite H. reflexivity.
Qed.

Lemma xstarmap_of_singletons_is_xmap_witness :
  xstarmap Examples.app (Examples.sig "add" [VInt 7]) (singletons [VInt 1; VInt 2])
    Samples.idle =
  xmap Examples.app (Examples.sig "add" []) [VInt 1; VInt 2] Samples.idle.
Proof.
  apply (xstarmap_of_singletons_is_xmap Examples.app (Examples.sig "add" [])
           (Examples.sig "add" [VInt 7]) [VInt 1; VInt 2] Samples.idle).
  reflexivity.
Defined.

(** X6. A constructor decorated with [shared_task] comes back as it is
    and joins the end of the list, so that [load_shared_tasks] calls, on
    the one app and in this order, the constructors that were on the
    list before and then the decorated ones in the order of their
    decoration, each as many times as it was decorated. *)
Theorem load_shared_tasks_calls_in_decoration_order {S : Type}
    (cs _shared_tasks : list (S → S)) (app : S) :
  (decorate_all cs _shared_tasks).1 = cs ∧
  load_shared_tasks (decorate_all cs _shared_tasks).2 app =
    foldl (λ app constructor, constructor app)
      (load_shared_tasks _shared_tasks app) cs.
Proof.
  rewrite decorate_all_spec. simpl. split; [reflexivity|].
  apply load_shared_tasks_app.
Qed.

(** X7. [Group.run] outside eager mode, run by a worker on the members
    and the result that [apply_async] sent: every member is copied with
    the partial arguments in front of its own and the copy is submitted,
    one message per member in the order of the members, under the
    member's own options with [group_id] and [add_to_parent=False] laid
    over them (and through the one publisher); the result is then appended to the children of the
    current worker task, when there is one, and returned as it came. No
    object that existed before is changed, and a group of no members
    submits nothing. *)
Theorem Group_run_submits_a_copy_of_each_member app in_worker tasks result gid pa w :
  Task.CELERY_ALWAYS_EAGER app = false →
  Forall (λ l, l ∈ dom (heap w)) tasks →
  ∃ w',
    Group.run app false in_worker tasks result gid pa w = (Ok result, w') ∧
    kept w w' ∧
    outbox w' = outbox w ++
      ((λ l, member_publish (run_options gid) pa (heap w !!! l)) <$> tasks) ++
      (if in_worker then [AppendChild result] else []).
Proof.
  intros He Hdom.
  destruct (group_run_spec app false in_worker tasks result gid pa w Hdom)
    as (g & w' & Hr & Hk & _ & H).
  rewrite He in H. simpl in H. destruct H as [-> Ho].
  exists w'. split; [exact Hr|]. split; [exact Hk|exact Ho].
Qed.

Lemma Group_run_submits_a_copy_of_each_member_witness :
  ∃ w',
    Group.run Examples.app false true [0; 1] (mkGroupResult (VStr "g") [])
      (VStr "g") [VInt 7] (Examples.world Examples.canvas)
      = (Ok (mkGroupResult (VStr "g") []), w') ∧
    kept (Examples.world Examples.canvas) w' ∧
    outbox w' = outbox (Examples.world Examples.canvas) ++
      ((λ l, member_publish (run_options (VStr "g")) [VInt 7]
               (heap (Examples.world Examples.canvas) !!! l)) <$> [0; 1]) ++
      [AppendChild (mkGroupResult (VStr "g") [])].
Proof.
  apply (Group_run_submits_a_copy_of_each_member Examples.app true [0; 1]
           (mkGroupResult (VStr "g") []) (VStr "g") [VInt 7]
           (Examples.world Examples.canvas)).
  - reflexivity.
  - repeat constructor; vm_compute; apply bool_decide_unpack; vm_compute; exact I.
Defined.





(** X10. [Group.prepare] writes on the member objects, so a Signature
    object that is a member twice is given one task id: the two children
    of the result, at the two positions of the object, are equal. *)
Theorem Group_prepare_same_object_same_handle options tasks args w i j l :
  tasks !! i = Some l → tasks !! j = Some l →
  ∃ tasks' result gid a o w' r,
    Group.prepare options tasks args w = (Ok (tasks', result, gid, a, o), w') ∧
    gr_results result !! i = Some r ∧ gr_results result !! j = Some r ∧
    Py.options (heap w' !!! l) !! "task_id" = Some (res_id r).
Proof.
  intros Hi Hj.
  assert (Hne : tasks ≠ []) by (intros ->; discriminate).
  destruct (prepare_spec options tasks args w Hne)
    as (ms & w' & Hp & _ & _ & Hall & _ & _).
  destruct (Forall2_lookup_l _ _ _ _ _ Hall Hi) as (bi & Hbi & (_ & _ & (ti & Hti & Hri) & _)).
  destruct (Forall2_lookup_l _ _ _ _ _ Hall Hj) as (bj & Hbj & (_ & _ & (tj & Htj & Hrj) & _)).
  rewrite Hti in Htj. injection Htj as <-.
  eexists _, _, _, _, _, w', (Result.AsyncResult ti).
  split; [exact Hp|]. simpl. rewrite !list_lookup_fmap, Hbi, Hbj. simpl.
  rewrite Hri, Hrj. repeat split. exact Hti.
Qed.

Lemma Group_prepare_same_object_same_handle_witness :
  ∃ tasks' result gid a o w' r,
    Group.prepare ∅ [0; 1; 0] [] (Examples.world Examples.canvas)
      = (Ok (tasks', result, gid, a, o), w') ∧
    gr_results result !! 0 = Some r ∧ gr_results result !! 2 = Some r ∧
    Py.options (heap w' !!! 0) !! "task_id" = Some (res_id r).
Proof.
  apply (Group_prepare_same_object_same_handle ∅ [0; 1; 0] []
           (Examples.world Examples.canvas) 0 2 0); reflexivity.
Defined.

(** X11. Preparing a group once more, with the options that the first
    preparation left (they now carry the group id as [task_id]), gives
    the same members, the same result with the same ids, the same group
    id and the same options, and changes no object: the ids are drawn
    once. The second pass only uses up one uuid, which [setdefault]'s
    argument draws before it is known to be unused. *)
Theorem Group_prepare_again_gives_the_same_ids
    options tasks args w tasks1 result gid a o1 w1 :
  Group.prepare options tasks args w = (Ok (tasks1, result, gid, a, o1), w1) →
  Group.prepare o1 tasks1 a w1 = (Ok (tasks1, result, gid, a, o1), drawn w1).
Proof.
  intros H.
  destruct (prepare_ok_inv _ _ _ _ _ _ _ _ _ _ H)
    as (ms & Hne & -> & -> & Hg & -> & -> & _ & Hall & _).
  assert (Ho : prepared_options options w !! "task_id" = Some gid).
  { unfold prepared_options. rewrite <- Hg.
    rewrite lookup_insert_ne by done. apply lookup_insert_eq. }
  unfold Group.prepare. unfold mbind at 1, M_bind at 1. unfold uuid at 1.
  fold (drawn w1). rewrite Ho. simpl default.
  unfold mbind at 1, M_bind at 1.
  rewrite (mapM_prepare_member_fixed gid (drawn w1) tasks ms Hall).
  destruct ms as [|m ms]; [inversion Hall; subst; contradiction|].
  unfold mret, M_ret. f_equal. f_equal.
  assert (E1 : (m :: ms).*1 = tasks).
  { apply Forall2_fst_eq. eapply Forall2_impl; [exact Hall|].
    intros l b (Hb & _). exact Hb. }
  rewrite E1. f_equal.
  unfold prepared_options. rewrite <- Hg. apply insert_id.
  apply lookup_insert_eq.
Qed.

Lemma Group_prepare_again_gives_the_same_ids_witness :
  let w := Examples.world Examples.canvas in
  let result := mkGroupResult (VStr "uuid-0")
                  [Result.AsyncResult (VStr "uuid-1"); Result.AsyncResult (VStr "uuid-2")] in
  let o1 := <["group_id" := VStr "uuid-0"]> (<["task_id" := VStr "uuid-0"]> ∅) in
  let w1 := (Group.prepare ∅ [0; 1] [] w).2 in
  Group.prepare o1 [0; 1] [] w1 = (Ok ([0; 1], result, VStr "uuid-0", [], o1), drawn w1).
Proof.
  intros w result o1 w1.
  apply (Group_prepare_again_gives_the_same_ids ∅ [0; 1] [] w [0; 1] result
           (VStr "uuid-0") [] o1 w1).
  vm_compute. reflexivity.
Defined.





(** X14. A chain of no steps: [Chain.apply_async] raises [IndexError]
    when it takes the last of the results that [prepare_steps] returned,
    none, before anything is submitted; in eager mode it goes to
    [Chain.apply], which returns [None]. Nothing else happens. *)
Theorem Chain_apply_async_of_no_steps app args group_id chord task_id options w :
  Chain.apply_async app args [] group_id chord task_id options w =
    (if Task.CELERY_ALWAYS_EAGER app then Ok None else Raise IndexError, w).
Proof.
  unfold Chain.apply_async. destruct (Task.CELERY_ALWAYS_EAGER app); reflexivity.
Qed.

(** X15. [Chain.prepare_steps], for every chain: it returns as many
    handles as prepared steps, at most one per step of the chain (and at
    least one if the chain has a step). Every prepared step is a new
    object, different from the others, and no object that existed before
    is changed; nothing is submitted. The first handle has no parent and
    every later handle has for parent the handle before it; every
    prepared step with a successor has that successor as the last of its
    callbacks; and every prepared step carries, as task id, the id of
    its handle. *)
Theorem Chain_prepare_steps_links_new_objects args steps w :
  ∃ ts rs w',
    Chain.prepare_steps args steps w = (Ok (ts, rs), w') ∧
    kept w w' ∧ outbox w' = outbox w ∧
    Forall (λ t, t ∈ dom (heap w') ∧ t ∉ dom (heap w)) ts ∧ NoDup ts ∧
    length ts = length rs ∧ length ts ≤ length steps ∧ (steps ≠ [] → ts ≠ []) ∧
    chained None rs ∧
    linked (heap w') ts ∧
    Forall2 (λ t r, Py.options (heap w' !!! t) !! "task_id" = Some (res_id r)) ts rs.
Proof.
  assert (Hinit : prepared w w None [] []).
  { unfold prepared. split; [apply kept_refl|]. split; [reflexivity|].
    split; [constructor|]. split; [constructor|]. split; [reflexivity|].
    split; [exact I|]. split; [split; reflexivity|].
    intros i t t' Hi. discriminate. }
  destruct (prepare_loop_prepared w args (length steps) steps 0 None None [] [] w
              (le_n _) Hinit)
    as (ts & rs & w' & prev' & Hl & (Hk & Ho & Hall & Hnd & Hlen & Hch & _ & Hlk) & Hle).
  destruct (prepare_steps_spec args steps w) as (ts' & rs' & w'' & Hl' & Hne & _ & Hsh).
  unfold Chain.prepare_steps in Hl'. rewrite Hl in Hl'. injection Hl' as <- <- <-.
  exists ts, rs, w'. split; [exact Hl|]. split; [exact Hk|]. split; [exact Ho|].
  split; [exact Hall|]. split; [exact Hnd|]. split; [exact Hlen|].
  split; [simpl in Hle; exact Hle|]. split; [exact Hne|]. split; [exact Hch|].
  split; [exact Hlk|].
  eapply Forall2_impl; [exact Hsh|]. intros t r [_ H]. exact H.
Qed.



(** X17. The handle that [Chain.apply_async] returns, when the app is
    not eager and the chain has a step. Without a [task_id] override it
    is the handle of the last prepared step, and following the parents
    from it gives the handles of all the prepared steps, the last one
    first. With a [task_id] override it is a new handle of that id,
    which has no parent: the handles of the earlier steps cannot be
    reached from it. *)
Theorem Chain_apply_async_handle_lineage
    app args tasks group_id chord task_id options w :
  Task.CELERY_ALWAYS_EAGER app = false →
  tasks ≠ [] →
  ∃ ts rs w1 r w',
    Chain.prepare_steps args tasks w = (Ok (ts, rs), w1) ∧
    Chain.apply_async app args tasks group_id chord task_id options w
      = (Ok (Some r), w') ∧
    if truthy task_id
    then res_id r = task_id ∧ res_parent r = None ∧ lineage r = [r]
    else lineage r = reverse rs.
Proof.
  intros He Hne.
  destruct (chain_apply_async_spec app args tasks group_id chord task_id options w
              He Hne)
    as (ts & rs & w1 & tf & tl & rl & r & w' & Hp & _ & _ & Hl & Ha & Hr & _).
  exists ts, rs, w1, r, w'. split; [exact Hp|]. split; [exact Ha|].
  destruct (truthy task_id).
  - subst r. repeat split.
  - subst r.
    rewrite (chained_lineage rs None rl (prepare_steps_chained _ _ _ _ _ _ Hp) Hl).
    apply app_nil_r.
Qed.

Lemma Chain_apply_async_handle_lineage_witness :
  ∃ ts rs w1 r w',
    Chain.prepare_steps [] [0; 1; 3] (Examples.world Examples.canvas)
      = (Ok (ts, rs), w1) ∧
    Chain.apply_async Examples.app [] [0; 1; 3] VNone VNone VNone ∅
      (Examples.world Examples.canvas) = (Ok (Some r), w') ∧
    lineage r = reverse rs.
Proof.
  apply (Chain_apply_async_handle_lineage Examples.app [] [0; 1; 3] VNone VNone
           VNone ∅ (Examples.world Examples.canvas)).
  - reflexivity.
  - discriminate.
Defined.

(** X18. [Chord.apply], the eager chord, with no positional arguments,
    on a header of at least one member, on objects that exist, when the
    group result joins without the backend's native join: the chord
    task, the group task and then every header member, in order, are
    executed in the current thread; the header's result is joined with
    exceptions propagated, whatever [propagate] is. If every member
    returned, the body is then executed with one argument in front of
    its own, the list of the members' values in the order of the header,
    and the handle that comes back holds what the body gave. If a member
    raised, the exception of the first that did leaves [Chord.apply] and
    the body is not executed. Nothing is submitted and no chord is
    registered with the backend. *)
Theorem Chord_apply_feeds_header_values_to_body app header body propagate options w :
  header ≠ [] →
  Forall (λ l, l ∈ dom (heap w)) header →
  body ∈ dom (heap w) →
  Result.supports_native_join (Task.backend app) = false →
  let xs := (λ l, call app (heap w !!! l) []) <$> header in
  ∃ out w' a ids,
    Chord.apply app [] header body propagate options w = (out, w') ∧
    outbox w' = outbox w ++
      Execute "celery.chord" [] (eager_chord_kwargs header body)
      :: Execute "celery.group" a ∅
      :: ((λ l, member_execute [] (heap w !!! l)) <$> header)
      ++ Join false ids true
      :: match gather xs with
         | Ok vs => [member_execute [VList vs] (heap w !!! body)]
         | Raise _ => []
         end ∧
    match gather xs with
    | Ok vs => ∃ r, out = Ok r ∧ holds r (call app (heap w !!! body) [VList vs])
    | Raise e => out = Raise e
    end.
Proof.
  intros Hne Hdom Hb Hnat xs. unfold Chord.apply.
  unfold mbind at 1, M_bind at 1. unfold emit at 1.
  fold (eager_chord_kwargs header body).
  set (w0 := log [Execute "celery.chord" [] (eager_chord_kwargs header body)] w).
  destruct (chord_run_eager_executed app header body [] (VInt 1) VNone false w0 Hne Hdom)
    as (a & g & w1 & Hr & _ & Hc & Hx & Ho).
  unfold mbind at 1, M_bind at 1. rewrite Hr.
  rewrite Hnat.
  assert (Hxs : Forall2 holds (gr_results g) xs).
  { unfold xs. apply Forall2_fmap_r, Forall2_flip. exact Hx. }
  destruct (join_outcome_gather (Task.backend app) _ _ Hxs) as [Hready Hj].
  unfold mbind at 1, M_bind at 1.
  rewrite (join_outcome_ready (Task.backend app) g true w1 Hready), Hj.
  set (w2 := log [Join false (res_id <$> gr_results g) true] w1).
  assert (Hout2 : outbox w2 = outbox w ++
      Execute "celery.chord" [] (eager_chord_kwargs header body)
      :: Execute "celery.group" a ∅
      :: ((λ l, member_execute [] (heap w !!! l)) <$> header)
      ++ [Join false (res_id <$> gr_results g) true]).
  { unfold w2. simpl. rewrite Ho. unfold w0. simpl.
    rewrite <- !app_assoc. simpl. reflexivity. }
  destruct (gather xs) as [vs|e].
  - unfold mbind at 1, M_bind at 1. unfold Canvas.maybe_subtask, mret at 1, M_ret at 1.
    destruct (canvas_apply_full app body [VList vs] ∅ w2) as (r & w' & Ha & Hh & Ho' & Hr').
    exists (Ok r), w', a, (res_id <$> gr_results g). split; [exact Ha|].
    assert (Hc2 : carried (chord_stamp (VStr (uuid4 (uuid_ctr w0))) body) w w2).
    { destruct Hc as [D C]. split; [exact D|exact C]. }
    split.
    + rewrite Ho', Hout2. rewrite (carried_member_execute _ _ _ _ _ Hc2 Hb).
      rewrite <- !app_assoc. simpl. rewrite <- app_assoc. reflexivity.
    + exists r. split; [reflexivity|].
      rewrite <- (carried_call app _ _ _ body [VList vs] Hc2 Hb). exact Hr'.
  - exists (Raise e), w2, a, (res_id <$> gr_results g). split; [reflexivity|].
    split; [exact Hout2|reflexivity].
Qed.

Lemma Chord_apply_feeds_header_values_to_body_witness :
  let w := Examples.world Pipeline.canvas in
  let xs := (λ l, call Examples.app (heap w !!! l) []) <$> [0; 1] in
  ∃ out w' a ids,
    Chord.apply Examples.app [] [0; 1] 1 false ∅ w = (out, w') ∧
    outbox w' = outbox w ++
      Execute "celery.chord" [] (eager_chord_kwargs [0; 1] 1)
      :: Execute "celery.group" a ∅
      :: ((λ l, member_execute [] (heap w !!! l)) <$> [0; 1])
      ++ Join false ids true
      :: match gather xs with
         | Ok vs => [member_execute [VList vs] (heap w !!! 1)]
         | Raise _ => []
         end ∧
    match gather xs with
    | Ok vs => ∃ r, out = Ok r ∧ holds r (call Examples.app (heap w !!! 1) [VList vs])
    | Raise e => out = Raise e
    end.
Proof.
  apply (Chord_apply_feeds_header_values_to_body Examples.app [0; 1] 1 false ∅
           (Examples.world Pipeline.canvas)).
  - discriminate.
  - repeat constructor; vm_compute; apply bool_decide_unpack; vm_compute; exact I.
  - apply (bool_decide_unpack _). vm_compute. exact I.
  - reflexivity.
Defined.

(** X19. With [CELERY_ALWAYS_EAGER] set, [apply_async] of a group, of a
    chain and of a chord stays in the current process, for every input
    and whether it returns or raises: the only calls it makes are
    executions of task bodies and joins of results. No message is
    handed to the queue, no chord is registered with the backend, no
    retry is asked for and no worker task gets a child. *)
Theorem eager_apply_async_stays_in_process app :
  Task.CELERY_ALWAYS_EAGER app = true →
  (∀ partial_args tasks options,
     emits_only is_local (Group.apply_async app partial_args tasks options)) ∧
  (∀ args tasks group_id chord task_id options,
     emits_only is_local
       (Chain.apply_async app args tasks group_id chord task_id options)) ∧
  (∀ args header body task_id options,
     emits_only is_local (Chord.apply_async app args header body task_id options)).
Proof.
  intros He. split; [|split].
  - intros pa tasks options. unfold Group.apply_async. rewrite He.
    apply eo_group_apply.
  - intros args tasks gid chord tid options. unfold Chain.apply_async. rewrite He.
    apply eo_chain_apply.
  - intros args header body tid options. unfold Chord.apply_async. rewrite He.
    apply eo_chord_apply.
Qed.

Lemma eager_apply_async_stays_in_process_witness :
  emits_only is_local
    (Chord.apply_async (Task.mkApp true (Result.mkBackend false ∅)
                          (Task.registry Examples.app))
       [] [0; 1] 3 VNone ∅).
Proof.
  apply (eager_apply_async_stays_in_process
           (Task.mkApp true (Result.mkBackend false ∅) (Task.registry Examples.app))).
  reflexivity.
Defined.

(** X20. Without [CELERY_ALWAYS_EAGER], [apply_async] of a group, of a
    chain and of a chord only hands messages to the queue, for every
    input and whether it returns or raises: no task body is executed in
    the current process, no result is joined, and nothing is registered
    with the backend. *)
Theorem apply_async_only_submits app :
  Task.CELERY_ALWAYS_EAGER app = false →
  (∀ partial_args tasks options,
     emits_only is_publish (Group.apply_async app partial_args tasks options)) ∧
  (∀ args tasks group_id chord task_id options,
     emits_only is_publish
       (Chain.apply_async app args tasks group_id chord task_id options)) ∧
  (∀ args header body task_id options,
     emits_only is_publish (Chord.apply_async app args header body task_id options)).
Proof.
  intros He. split; [|split].
  - intros pa tasks options. unfold Group.apply_async. rewrite He.
    apply eo_bind; [apply eo_prepare|]. intros [[[[ts result] gid] a] o].
    apply eo_bind; [apply eo_task_apply_async|]. intros _. apply eo_ret.
  - intros args tasks gid chord tid options. unfold Chain.apply_async. rewrite He.
    apply eo_bind; [apply eo_prepare_steps|]. intros [ts rs].
    apply eo_bind; [apply eo_last_item|]. intros result.
    apply eo_bind; [apply eo_set_last|]. intros _.
    apply eo_bind; [apply eo_set_last|]. intros _.
    apply eo_bind.
    + destruct (truthy tid); [|apply eo_ret].
      apply eo_bind; [apply eo_last_item|]. intros t.
      apply eo_bind; [apply eo_set_option|]. intros _. apply eo_ret.
    + intros result'. apply eo_bind; [apply eo_first_item|]. intros t0.
      apply eo_bind; [apply eo_canvas_apply_async|]. intros _. apply eo_ret.
  - intros args header body tid options. unfold Chord.apply_async. rewrite He.
    cbv zeta.
    apply eo_bind; [apply eo_ret|]. intros b.
    apply eo_bind; [destruct (truthy _); [apply eo_set_option|apply eo_ret]|]. intros _.
    apply eo_bind; [destruct (truthy _); [apply eo_set_option|apply eo_ret]|]. intros _.
    apply eo_bind; [destruct (truthy tid); [apply eo_ret|apply eo_uuid]|]. intros d.
    apply eo_bind; [apply eo_deref|]. intros s.
    apply eo_bind.
    + destruct (Py.options s !! "task_id"); [apply eo_ret|].
      apply eo_bind; [apply eo_set_option|]. intros _. apply eo_ret.
    + intros cid. apply eo_bind; [apply eo_task_apply_async|]. intros parent.
      apply eo_ret.
Qed.

Lemma apply_async_only_submits_witness :
  emits_only is_publish (Group.apply_async Examples.app [] [0; 1] ∅).
Proof.
  apply (apply_async_only_submits Examples.app).
  reflexivity.
Defined.
